(** * A weighted-graph library: adjacency store, BFS and Dijkstra

    Shallow embedding of the Go package [graph]:
    - [graph/graph.go]   the adjacency store [graphData] and its queries,
    - [directed.go], [undirected.go]   the two edge disciplines,
    - the path-finding file   [BFS], [BFSTo], [Dijkstra], [DijkstraTo],
    - [graph.go]   the earlier, iterator-based store,
    - the maze reader   [readLines].

    Modelling choices.
    - [Node[K]] is a one-field struct compared by value; a node is its key.
    - A Go [map] is a [gmap]; [for ... := range m] visits the entries in an
      order the runtime picks, which the class [MapRange] supplies.  Every
      statement below holds for every such order.
    - [float64] is IEEE 754 binary64 as the Standard Library specifies it
      ([SpecFloat], precision 53, [emax] 1024): signed zeros, the finite
      numbers as sign, mantissa and exponent, the two infinities and NaN.
      [+] is [SFadd], which rounds to nearest, ties to even, and overflows
      to an infinity; [<] is [SFltb].  Path weights are summed in the order
      in which the code accumulates them, with that addition.
    - A map read of a missing key yields the zero value of the value type
      ([0.0], a nil map, or the zero node [zero_value]).
    - A graph is a store that satisfies [Graph.closed]: every neighbour is
      itself a node.  The new store satisfies it and every mutator keeps
      it (section [closed_facts]). *)

From Stdlib Require Import ZArith Lia SpecFloat.
From stdpp Require Import gmap list fin_maps.

(* [set_solver] clears hypotheses by name and warns when one is gone. *)
#[local] Set Warnings "-clear-no-such-hyp".

(** ** float64 *)

Definition prec : Z := 53.
Definition emax : Z := 1024.

Definition float64 : Type := spec_float.

(** [math.Inf(1)], [math.Inf(-1)], [math.NaN()] *)
Definition PInf : float64 := S754_infinity false.
Definition NInf : float64 := S754_infinity true.
Definition NaN : float64 := S754_nan.

(** [a + b] *)
Definition fadd (a b : float64) : float64 := SFadd prec emax a b.

(** [a < b] *)
Definition flt (a b : float64) : bool := SFltb a b.

(** [a <= b] *)
Definition fle (a b : float64) : bool := SFleb a b.

(** The constant [n] as a [float64], or [float64(n)]: the [float64]
    nearest to the integer [n]. *)
Definition Fin (n : Z) : float64 := binary_normalize prec emax n 0 false.

(** [math.MaxFloat64] *)
Definition MaxFloat64 : float64 := SFmax_float prec emax.

(** [distances[k]]: a missing key reads as [0.0]. *)
Definition fget `{Countable K} (d : gmap K float64) (k : K) : float64 :=
  default (Fin 0) (d !! k).

(** *** The numbers behind the bits

    What follows is not part of the program: it names the values that the
    statements below are about. *)

(** a zero or a finite number *)
Definition finite (d : float64) : Prop :=
  match d with
  | S754_zero _ | S754_finite _ _ _ => True
  | _ => False
  end.

(** [+0], a positive [float64], or [+Inf]: what a distance can be when no
    weight is negative *)
Definition nonneg (d : float64) : Prop :=
  match d with
  | S754_zero s => s = false
  | S754_finite s m e => s = false ∧ bounded prec emax m e = true
  | S754_infinity s => s = false
  | S754_nan => False
  end.

(** a value whose sign bit is clear, a zero, or NaN: nothing below zero *)
Definition not_negative (d : float64) : Prop :=
  match d with
  | S754_finite s _ _ | S754_infinity s => s = false
  | _ => True
  end.

(** an edge weight [w] with [0 <= w] that is a [float64] value *)
Definition weight_ok (w : float64) : Prop :=
  fle (Fin 0) w = true ∧ valid_binary prec emax w = true.

(** The value of a finite [float64] that is not negative, in units of
    [2^-1074], the least positive [float64]. *)
Definition units (d : float64) : Z :=
  match d with
  | S754_finite false m e => (Z.pos m * 2 ^ (e + 1074))%Z
  | _ => 0%Z
  end.

(** The same, [+Inf] counting as [2^2098] units, which is above every
    finite value. *)
Definition val (d : float64) : Z :=
  match d with
  | S754_infinity _ => (2 ^ 2098)%Z
  | _ => units d
  end.

(** The number of low bits that a value of [N] units cannot hold. *)
Definition lowbits (N : Z) : Z := (Z.max (Z.log2 N - 52) 0)%Z.

(** [m] rounded to the multiples of [2^n], ties to even, in units of
    [2^n]. *)
Definition rne (m n : Z) : Z :=
  match (2 * (m mod 2 ^ n) ?= 2 ^ n)%Z with
  | Lt => (m / 2 ^ n)%Z
  | Eq => if Z.even (m / 2 ^ n) then (m / 2 ^ n)%Z else (m / 2 ^ n + 1)%Z
  | Gt => (m / 2 ^ n + 1)%Z
  end.

(** [N] units rounded to 53 significant bits, ties to even. *)
Definition round_int (N : Z) : Z := (rne N (lowbits N) * 2 ^ lowbits N)%Z.

(** The [float64] that is worth [N] units. *)
Definition of_units (N : Z) : float64 :=
  match N with
  | Zpos _ =>
      let k := lowbits N in
      if (k <=? 2045)%Z
      then S754_finite false (Z.to_pos (N / 2 ^ k)) (k - 1074)%Z
      else PInf
  | _ => S754_zero false
  end.

(** The [float64] nearest to [N] units. *)
Definition round_units (N : Z) : float64 := of_units (round_int N).

(** [q] is the mantissa and [k - 1074] the exponent of a [float64]. *)
Definition canon (q k : Z) : Prop :=
  (0 < q < 2 ^ 53 ∧ 0 ≤ k ∧ (k = 0 ∨ 2 ^ 52 ≤ q))%Z.

(** ** The Go runtime: zero values and map iteration order *)

Class ZeroValue (K : Type) := zero_value : K.

(** [range site m] is the order in which one [for ... := range m] visits
    the entries of [m]; [site] tells which map object is being ranged
    over ([None]: the outer [Adjacencies] map, [Some u]: the inner map of
    node [u]), so that different objects may be visited in unrelated
    orders. *)
Class MapRange (K : Type) `{Countable K} := {
  range : ∀ {V : Type}, option K → gmap K V → list (K * V);
  range_perm : ∀ (V : Type) (site : option K) (m : gmap K V),
      range site m ≡ₚ map_to_list m
}.

(** The order [map_to_list] happens to produce is one admissible order. *)
#[export] Instance canonical_range `{Countable K} : MapRange K :=
  {| range := λ V _ m, map_to_list m;
     range_perm := λ V _ m, reflexivity (R := (≡ₚ)) (map_to_list m) |}.

#[export] Instance Z_zero_value : ZeroValue Z := 0%Z.

Abbreviation graphData K := (gmap K (gmap K float64)).

(** ** graph/graph.go: the adjacency store *)

Module Graph.
Section graphData.
Context `{Countable K} `{!MapRange K}.
Implicit Types (g : graphData K) (n u v : K) (w : float64).

Record Edge : Type := mkEdge { edge_u : K; edge_v : K; edge_weight : float64 }.

(** [g.Adjacencies[n]], the nil map when [n] is absent *)
Definition adjacency g n : gmap K float64 := default ∅ (g !! n).

(** [g.Adjacencies[u][v]] with its presence flag *)
Definition entry g u v : option float64 := g !! u ≫= (.!! v).

Definition newGraphData : graphData K := ∅.

(** [Node[K]{ID: obj}] *)
Definition NewNode (obj : K) : K := obj.

Definition AddNode g n : graphData K :=
  match g !! n with
  | Some _ => g
  | None => <[n := ∅]> g
  end.

Definition AddNodesFrom g (ns : list K) : graphData K :=
  foldl AddNode g ns.

Definition HasNode g u : bool := bool_decide (is_Some (g !! u)).

Definition HasEdge g u v : bool :=
  match g !! u with
  | None => false
  | Some a => bool_decide (is_Some (a !! v))
  end.

(** The loop deletes [n] from every inner map; then the record of [n]
    goes. *)
Definition RemoveNode g n : graphData K :=
  delete n (delete n <$> g).

Definition RemoveNodesFrom g (ns : list K) : graphData K :=
  foldl RemoveNode g ns.

Definition Nodes g : list K := (range None g).*1.

Definition Edges g : list Edge :=
  u ← Nodes g;
  (λ vw, mkEdge u vw.1 vw.2) <$> range (Some u) (adjacency g u).

Definition Clear g : graphData K := ∅.

Definition NumberOfNodes g : nat := length (Nodes g).
Definition NumberOfEdges g : nat := length (Edges g).

Definition Successors g n : list K := (range (Some n) (adjacency g n)).*1.

Definition Predecessors g n : list K :=
  node ← Nodes g;
  neigh ← (range (Some node) (adjacency g node)).*1;
  if decide (neigh = n) then [node] else [].

Definition InDegree g n : nat := length (Predecessors g n).
Definition OutDegree g n : nat := length (Successors g n).
Definition Degree g n : nat := InDegree g n + OutDegree g n.

Definition Neighbors g n : list K := Successors g n ++ Predecessors g n.

(** *** Representation invariant

    Every neighbour recorded in an inner map is itself a node.  It holds
    of the empty store and every mutator keeps it. *)
Definition closed g : Prop :=
  ∀ u v, is_Some (entry g u v) → is_Some (g !! v).

End graphData.
End Graph.

(** ** directed.go *)

Module DirectedGraph.
Section directed.
Context `{Countable K} `{!MapRange K}.
Import Graph.
Implicit Types (g : graphData K) (n u v : K) (w : float64).

Definition NewDirectedGraph : graphData K := newGraphData.

Definition AddEdge g u v w : graphData K :=
  let g := if g !! u is Some _ then g else AddNode g u in
  let g := if g !! v is Some _ then g else AddNode g v in
  <[u := <[v := w]> (adjacency g u)]> g.

Definition AddEdgesFrom g (es : list Edge) : graphData K :=
  foldl (λ g e, AddEdge g (edge_u e) (edge_v e) (edge_weight e)) g es.

(** [delete] on the nil map of an absent [u] does nothing. *)
Definition RemoveEdge g u v : graphData K :=
  alter (delete v) u g.

Definition RemoveEdgesFrom g (es : list Edge) : graphData K :=
  foldl (λ g e, alter (delete (edge_v e)) (edge_u e) g) g es.

(** The mutating methods of a [DirectedGraph], as data. *)
Inductive operation : Type :=
| OpAddNode (n : K)
| OpAddNodesFrom (ns : list K)
| OpAddEdge (u v : K) (w : float64)
| OpAddEdgesFrom (es : list (@Edge K))
| OpRemoveNode (n : K)
| OpRemoveNodesFrom (ns : list K)
| OpRemoveEdge (u v : K)
| OpRemoveEdgesFrom (es : list (@Edge K))
| OpClear.

Definition apply g (op : operation) : graphData K :=
  match op with
  | OpAddNode n => AddNode g n
  | OpAddNodesFrom ns => AddNodesFrom g ns
  | OpAddEdge u v w => AddEdge g u v w
  | OpAddEdgesFrom es => AddEdgesFrom g es
  | OpRemoveNode n => RemoveNode g n
  | OpRemoveNodesFrom ns => RemoveNodesFrom g ns
  | OpRemoveEdge u v => RemoveEdge g u v
  | OpRemoveEdgesFrom es => RemoveEdgesFrom g es
  | OpClear => Clear g
  end.

Definition run g (ops : list operation) : graphData K := foldl apply g ops.

End directed.
End DirectedGraph.

(** ** undirected.go *)

Module UndirectedGraph.
Section undirected.
Context `{Countable K} `{!MapRange K}.
Import Graph.
Implicit Types (g : graphData K) (n u v : K) (w : float64).

Definition NewUndirectedGraph : graphData K := newGraphData.

Definition AddEdge g u v w : graphData K :=
  let g := if g !! u is Some _ then g else AddNode g u in
  let g := if g !! v is Some _ then g else AddNode g v in
  let g := <[u := <[v := w]> (adjacency g u)]> g in
  <[v := <[u := w]> (adjacency g v)]> g.

Definition AddEdgesFrom g (es : list Edge) : graphData K :=
  foldl (λ g e, AddEdge g (edge_u e) (edge_v e) (edge_weight e)) g es.

Definition RemoveEdge g u v : graphData K :=
  alter (delete u) v (alter (delete v) u g).

Definition RemoveEdgesFrom g (es : list Edge) : graphData K :=
  foldl (λ g e, alter (delete (edge_u e)) (edge_v e)
                  (alter (delete (edge_v e)) (edge_u e) g)) g es.

Definition Neighbors g n : list K := Successors g n.
Definition Predecessors g n : list K := Successors g n.
Definition Degree g n : nat := length (Neighbors g n).

(** The mutating methods of an [UndirectedGraph], as data. *)
Inductive operation : Type :=
| OpAddNode (n : K)
| OpAddNodesFrom (ns : list K)
| OpAddEdge (u v : K) (w : float64)
| OpAddEdgesFrom (es : list (@Edge K))
| OpRemoveNode (n : K)
| OpRemoveNodesFrom (ns : list K)
| OpRemoveEdge (u v : K)
| OpRemoveEdgesFrom (es : list (@Edge K))
| OpClear.

Definition apply g (op : operation) : graphData K :=
  match op with
  | OpAddNode n => AddNode g n
  | OpAddNodesFrom ns => AddNodesFrom g ns
  | OpAddEdge u v w => AddEdge g u v w
  | OpAddEdgesFrom es => AddEdgesFrom g es
  | OpRemoveNode n => RemoveNode g n
  | OpRemoveNodesFrom ns => RemoveNodesFrom g ns
  | OpRemoveEdge u v => RemoveEdge g u v
  | OpRemoveEdgesFrom es => RemoveEdgesFrom g es
  | OpClear => Clear g
  end.

Definition run g (ops : list operation) : graphData K := foldl apply g ops.

(** Both directions of every edge are stored, with one weight. *)
Definition symmetric g : Prop := ∀ u v, entry g u v = entry g v u.

End undirected.
End UndirectedGraph.

(** ** graph.go: the iterator-based store

    Only [Predecessors] differs in what it produces: the element handed to
    [yield] is the loop variable [neigh]. *)

Module IterGraph.
Section iter.
Context `{Countable K} `{!MapRange K}.
Import Graph.
Implicit Types (g : graphData K) (n u v : K).

(** [slices.Collect (g.Successors n)] *)
Definition Successors g n : list K := (range (Some n) (adjacency g n)).*1.

(** [slices.Collect (g.Predecessors n)] *)
Definition Predecessors g n : list K :=
  node ← (range None g).*1;
  neigh ← (range (Some node) (adjacency g node)).*1;
  if decide (neigh = n) then [neigh] else [].

Definition InDegree g n : nat := length (Predecessors g n).
Definition OutDegree g n : nat := length (Successors g n).
Definition Degree g n : nat := InDegree g n + OutDegree g n.

(** [slices.Collect (g.Neighbors n)]: what [Successors] yields, then what
    [Predecessors] yields *)
Definition Neighbors g n : list K := Successors g n ++ Predecessors g n.

End iter.
End IterGraph.

(** ** Path finding: BFS and Dijkstra

    [Queue[K]] and [Path[K]] are lists of nodes, [Distances[K]] is a map to
    [float64] and [Paths[K]] a map to nodes.  A result of [None] stands for
    a call that does not return: an index out of range, or a loop that is
    still running when its fuel is spent.  The fuel handed to each loop is
    computed from its input and is shown below to be sufficient. *)

Module PathFinder.
Section algorithms.
Context `{Countable K} `{!MapRange K} `{!ZeroValue K}.
Import Graph.
Implicit Types (g : graphData K) (start target current : K).

(** *** Paths of a graph *)

Inductive path g start : K → list K → Prop :=
| path_start : path g start start [start]
| path_step u v p :
    path g start u p → is_Some (entry g u v) → path g start v (p ++ [v]).

Definition reachable g start target : Prop := ∃ p, path g start target p.

Definition follows_edges g (p : list K) : Prop :=
  ∀ i u v, p !! i = Some u → p !! S i = Some v → is_Some (entry g u v).

Definition path_from_to g start target (p : list K) : Prop :=
  head p = Some start ∧ last p = Some target ∧ follows_edges g p.

(** [g.Adjacencies[u][v]] *)
Definition weight g (u v : K) : float64 := default (Fin 0) (entry g u v).

Fixpoint weight_from g (acc : float64) (u : K) (rest : list K) : float64 :=
  match rest with
  | [] => acc
  | v :: rest => weight_from g (fadd acc (weight g u v)) v rest
  end.

(** Total edge weight of a path, summed from its first edge on. *)
Definition path_weight g (p : list K) : float64 :=
  match p with
  | [] => Fin 0
  | u :: rest => weight_from g (Fin 0) u rest
  end.

(** The total edge weight of a path as a number, in units of [2^-1074]:
    the sum that [path_weight] would be if no addition were rounded. *)
Fixpoint exact_from g (u : K) (rest : list K) : Z :=
  match rest with
  | [] => 0%Z
  | v :: rest => (units (weight g u v) + exact_from g v rest)%Z
  end.

Definition exact_weight g (p : list K) : Z :=
  match p with
  | [] => 0%Z
  | u :: rest => exact_from g u rest
  end.

(** *** BFS *)

Record bfs_state : Type := mkBFS {
  bfs_queue : list K;
  bfs_visited : gset K;
  bfs_distances : gmap K float64;
  bfs_previous : gmap K K
}.

Definition bfs_visit current (st : bfs_state) (neighbor : K) : bfs_state :=
  if decide (neighbor ∈ bfs_visited st) then st
  else
    {| bfs_queue := bfs_queue st ++ [neighbor];
       bfs_visited := {[neighbor]} ∪ bfs_visited st;
       bfs_distances :=
         <[neighbor := fadd (fget (bfs_distances st) current) (Fin 1)]>
           (bfs_distances st);
       bfs_previous := <[neighbor := current]> (bfs_previous st) |}.

Definition bfs_pop (st : bfs_state) (queue : list K) : bfs_state :=
  {| bfs_queue := queue;
     bfs_visited := bfs_visited st;
     bfs_distances := bfs_distances st;
     bfs_previous := bfs_previous st |}.

Fixpoint bfs_loop (fuel : nat) g (st : bfs_state) : option bfs_state :=
  match bfs_queue st with
  | [] => Some st
  | current :: queue =>
      match fuel with
      | O => None
      | S fuel =>
          bfs_loop fuel g
            (foldl (bfs_visit current) (bfs_pop st queue)
               (range (Some current) (adjacency g current)).*1)
      end
  end.

Definition bfs_init start : bfs_state :=
  {| bfs_queue := [start];
     bfs_visited := {[start]};
     bfs_distances := {[start := Fin 0]};
     bfs_previous := {[start := start]} |}.

(** Every node that holds an incoming adjacency entry. *)
Definition edge_targets g : gset K := ⋃ (dom <$> (map_to_list g).*2).

(** Every node but [start] enters the queue as the target of an
    adjacency entry, and at most once. *)
Definition BFS g start : option (gmap K float64 * gmap K K) :=
  st ← bfs_loop (S (size (edge_targets g))) g (bfs_init start);
  Some (bfs_distances st, bfs_previous st).

(** The loop [for current != start] that follows the parent links; [path]
    is the slice built so far. *)
Fixpoint walk_back (fuel : nat) (previous : gmap K K) start current
    (path : list K) : option (list K) :=
  if decide (current = start) then Some path
  else
    match fuel with
    | O => None
    | S fuel =>
        let step := default zero_value (previous !! current) in
        walk_back fuel previous start step (path ++ [step])
    end.

(** The lines that [BFSTo] and [DijkstraTo] share: [path] starts as
    [[target]], the parent links are followed back to [start], and
    [slices.Reverse] turns the result round.  A walk that ends passes no
    node twice, so it takes fewer steps than [previous] has keys. *)
Definition build_path (previous : gmap K K) start target : option (list K) :=
  reverse <$> walk_back (size previous) previous start target [target].

Definition BFSTo g start target : option (list K * nat * float64) :=
  if decide (start = target) then Some ([start], 1, Fin 0)
  else
    '(distances, previous) ← BFS g start;
    match previous !! target with
    | None => Some ([], 0, PInf)
    | Some _ =>
        path ← build_path previous start target;
        Some (path, length path, fget distances target)
    end.

(** *** Dijkstra *)

Record dijkstra_state : Type := mkDijkstra {
  dj_queue : list K;
  dj_distances : gmap K float64;
  dj_previous : gmap K K
}.

Definition dijkstra_enqueue (st : dijkstra_state) (node : K) : dijkstra_state :=
  {| dj_queue := dj_queue st ++ [node];
     dj_distances := <[node := PInf]> (dj_distances st);
     dj_previous := dj_previous st |}.

Definition dijkstra_init g start : dijkstra_state :=
  let st := foldl dijkstra_enqueue (mkDijkstra [] ∅ ∅) (Nodes g) in
  {| dj_queue := dj_queue st;
     dj_distances := <[start := Fin 0]> (dj_distances st);
     dj_previous := <[start := start]> (dj_previous st) |}.

(** The scan [for i := range queue]; [i] is the index of the head of
    [queue] in the whole queue. *)
Fixpoint min_scan (distances : gmap K float64) (queue : list K)
    (i min_index : nat) (min_distance : float64) : nat :=
  match queue with
  | [] => min_index
  | x :: queue =>
      if flt (fget distances x) min_distance
      then min_scan distances queue (S i) i (fget distances x)
      else min_scan distances queue (S i) min_index min_distance
  end.

Definition relax current (st : dijkstra_state) (e : K * float64) : dijkstra_state :=
  let alternative := fadd (fget (dj_distances st) current) e.2 in
  if flt alternative (fget (dj_distances st) e.1)
  then
    {| dj_queue := dj_queue st;
       dj_distances := <[e.1 := alternative]> (dj_distances st);
       dj_previous := <[e.1 := current]> (dj_previous st) |}
  else st.

Definition dijkstra_extract (st : dijkstra_state) : option (K * dijkstra_state) :=
  let min_index := min_scan (dj_distances st) (dj_queue st) 0 0 PInf in
  current ← dj_queue st !! min_index;
  Some (current,
        {| dj_queue := delete min_index (dj_queue st);
           dj_distances := dj_distances st;
           dj_previous := dj_previous st |}).

Definition dijkstra_step g (st : dijkstra_state) : option dijkstra_state :=
  '(current, st) ← dijkstra_extract st;
  Some (foldl (relax current) st (range (Some current) (adjacency g current))).

Fixpoint dijkstra_loop (fuel : nat) g (st : dijkstra_state) : option dijkstra_state :=
  match dj_queue st with
  | [] => Some st
  | _ :: _ =>
      match fuel with
      | O => None
      | S fuel => st ← dijkstra_step g st; dijkstra_loop fuel g st
      end
  end.

(** Every turn of the outer loop takes one node off the queue. *)
Definition Dijkstra g start : option (gmap K float64 * gmap K K) :=
  let st := dijkstra_init g start in
  st ← dijkstra_loop (length (dj_queue st)) g st;
  Some (dj_distances st, dj_previous st).

Definition DijkstraTo g start target : option (list K * nat * float64) :=
  '(distances, previous) ← Dijkstra g start;
  match previous !! target with
  | None => Some ([], 0, PInf)
  | Some _ =>
      path ← build_path previous start target;
      Some (path, length path, fget distances target)
  end.

(** *** What the loops maintain *)

(** [chain previous start x p]: [p] runs from [start] to [x] and every
    node on it after the first has its predecessor on [p] as parent. *)
Inductive chain (previous : gmap K K) start : K → list K → Prop :=
| chain_start : chain previous start start [start]
| chain_step u v p :
    chain previous start u p → previous !! v = Some u → v ≠ start →
    chain previous start v (p ++ [v]).

(** the float that a hop count of [n] is stored as: [n] times [+ 1.0]
    from [0], which is the number [n] itself up to [2^53] hops *)
Fixpoint level (n : nat) : float64 :=
  match n with
  | O => Fin 0
  | S n => fadd (level n) (Fin 1)
  end.

(** State of [BFS] between two steps.  [hops x] is the number of edges
    on the way found to [x]; [pending u v] marks the adjacency entries of
    the node being expanded that the inner loop has not reached yet; [lo]
    is the hop count of the node expanded last. *)
Record bfs_inv g start (pending : K → K → Prop) (lo : nat) (hops : K → nat)
    (st : bfs_state) : Prop := {
  bfs_start : start ∈ bfs_visited st ∧ hops start = O;
  bfs_dom : ∀ x, x ∈ bfs_visited st ↔ is_Some (bfs_previous st !! x);
  bfs_level : ∀ x, x ∈ bfs_visited st →
      bfs_distances st !! x = Some (level (hops x));
  bfs_tree : ∀ x, x ∈ bfs_visited st →
      ∃ p, chain (bfs_previous st) start x p ∧ path g start x p ∧
           length p = S (hops x) ∧ NoDup p ∧
           ∀ y, y ∈ p → y ∈ bfs_visited st;
  bfs_queue_nodup : NoDup (bfs_queue st);
  bfs_queue_visited : ∀ x, x ∈ bfs_queue st → x ∈ bfs_visited st;
  bfs_sorted : ∀ i j x y, i ≤ j →
      bfs_queue st !! i = Some x → bfs_queue st !! j = Some y →
      hops x ≤ hops y;
  bfs_window_lo : ∀ x, x ∈ bfs_queue st → lo ≤ hops x;
  bfs_window_hi : ∀ y, y ∈ bfs_visited st → hops y ≤ S lo;
  bfs_relaxed : ∀ u v,
      u ∈ bfs_visited st → u ∉ bfs_queue st → is_Some (entry g u v) →
      pending u v ∨ (v ∈ bfs_visited st ∧ hops v ≤ S (hops u));
  bfs_universe : ∀ x, x ∈ bfs_visited st → x = start ∨ x ∈ edge_targets g
}.

(** at the head of the outer loop *)
Definition bfs_outer g start (hops : K → nat) (st : bfs_state) : Prop :=
  ∃ lo, bfs_inv g start (λ _ _, False) lo hops st.

(** inside the inner loop over the neighbours of [current], [todo] being
    the neighbours still to come *)
Definition bfs_inner g start current (todo : list K) (hops : K → nat)
    (st : bfs_state) : Prop :=
  bfs_inv g start (λ u v, u = current ∧ v ∈ todo) (hops current) hops st ∧
  current ∈ bfs_visited st ∧ (current ∉ bfs_queue st) ∧
  NoDup todo ∧ ∀ v, v ∈ todo → is_Some (entry g current v).

(** What is left to do: nodes not visited yet, and nodes queued. *)
Definition bfs_measure g start (st : bfs_state) : nat :=
  size (({[start]} ∪ edge_targets g) ∖ bfs_visited st) + length (bfs_queue st).

(** **** Dijkstra *)

(** every edge weight [w] satisfies [0 <= w] *)
Definition weights_nonneg g : Prop :=
  ∀ u v w, entry g u v = Some w → fle (Fin 0) w = true.

(** every edge weight is a [float64] value: mantissa and exponent are
    those of a binary64 number *)
Definition weights_valid g : Prop :=
  ∀ u v w, entry g u v = Some w → valid_binary prec emax w = true.

(** every edge weight is a [float64] value and not negative *)
Definition weights_ok g : Prop :=
  ∀ u v w, entry g u v = Some w → weight_ok w.

(** some path from [start] to [target] has a finite total weight *)
Definition reachable_finite g start target : Prop :=
  ∃ p, path g start target p ∧ finite (path_weight g p).

Definition dj_dist (st : dijkstra_state) (x : K) : float64 :=
  fget (dj_distances st) x.

(** State of [Dijkstra] between two steps, for weights that are not
    negative.  A node is settled once it has left the queue; [lo]
    separates the settled distances from the queued ones, and
    [pending u v] marks the adjacency entries of the node being expanded
    that are still to be relaxed. *)
Record dj_inv g start (pending : K → K → Prop) (lo : float64)
    (st : dijkstra_state) : Prop := {
  dj_start : dj_distances st !! start = Some (Fin 0) ∧
             dj_previous st !! start = Some start;
  dj_nonneg : ∀ x, nonneg (dj_dist st x);
  dj_lo : nonneg lo;
  dj_queue_nodup : NoDup (dj_queue st);
  dj_settled_le : ∀ x, x ∉ dj_queue st → fle (dj_dist st x) lo = true;
  dj_queued_ge : ∀ y, y ∈ dj_queue st → fle lo (dj_dist st y) = true;
  dj_relaxed : ∀ u v w, u ∉ dj_queue st → entry g u v = Some w →
      pending u v ∨ fle (dj_dist st v) (fadd (dj_dist st u) w) = true;
  dj_tree : ∀ x, is_Some (dj_previous st !! x) →
      ∃ p, chain (dj_previous st) start x p ∧ path g start x p ∧ NoDup p ∧
           (∀ y, y ∈ p → is_Some (dj_previous st !! y)) ∧
           (∀ y, y ∈ p → y ≠ x → y ∉ dj_queue st) ∧
           path_weight g p = dj_dist st x ∧ finite (dj_dist st x);
  dj_reached : ∀ x, is_Some (g !! x) → finite (dj_dist st x) →
      is_Some (dj_previous st !! x)
}.

Definition dj_outer g start (st : dijkstra_state) : Prop :=
  ∃ lo, dj_inv g start (λ _ _, False) lo st.

Definition dj_inner g start current (todo : list (K * float64))
    (st : dijkstra_state) : Prop :=
  dj_inv g start (λ u v, u = current ∧ v ∈ todo.*1) (dj_dist st current) st ∧
  (current ∉ dj_queue st) ∧ NoDup todo.*1 ∧
  ∀ e, e ∈ todo → entry g current e.1 = Some e.2.

(** State of [Dijkstra] when no weight is negative, on any store. *)
Definition dj_source g start (st : dijkstra_state) : Prop :=
  dj_distances st !! start = Some (Fin 0) ∧
  dj_previous st !! start = Some start ∧
  ∀ x, not_negative (dj_dist st x).

Definition dj_source_inner g start current (todo : list (K * float64))
    (st : dijkstra_state) : Prop :=
  dj_source g start st ∧ ∀ e, e ∈ todo → entry g current e.1 = Some e.2.

(** State of [Dijkstra] on any store and for any weights, the infinities
    and NaN included: only nodes are queued, a node without a parent entry
    still has distance [+Inf], and the parent entries are adjacency
    entries that lead back to [start]. *)
Record dj_sound g start (st : dijkstra_state) : Prop := {
  js_queue : ∀ x, x ∈ dj_queue st → is_Some (g !! x);
  js_start : is_Some (dj_previous st !! start);
  js_reachable : ∀ x, is_Some (dj_previous st !! x) → reachable g start x;
  js_parent : ∀ v u, dj_previous st !! v = Some u →
      is_Some (dj_previous st !! u) ∧ (v ≠ start → is_Some (entry g u v));
  js_unreached : ∀ x, is_Some (g !! x) → dj_previous st !! x = None →
      dj_dist st x = PInf;
  js_dom_lo : ∀ x, x = start ∨ is_Some (g !! x) →
      is_Some (dj_distances st !! x);
  js_dom_hi : ∀ x, is_Some (dj_distances st !! x) →
      x = start ∨ is_Some (g !! x) ∨ ∃ u, is_Some (entry g u x)
}.

Definition dj_sound_inner g start current (todo : list (K * float64))
    (st : dijkstra_state) : Prop :=
  dj_sound g start st ∧ is_Some (g !! current) ∧
  ∀ e, e ∈ todo → entry g current e.1 = Some e.2.

End algorithms.
End PathFinder.

(** ** Map objects in the heap

    Go maps are references: [g.Adjacencies] names one outer map object
    whose values name one inner map object per node.  For [Copy] the
    sharing matters, so here the store is spelled out as a heap of map
    objects.  A graph is the location of the outer map it owns; [view]
    reads off the adjacency structure reachable from it. *)

Module Heap.
Section heap.
Context `{Countable K} `{!MapRange K}.

Record heap : Type := mkHeap {
  outer_maps : gmap positive (gmap K positive);
  inner_maps : gmap positive (gmap K float64)
}.

Implicit Types (h : heap) (g c : positive) (n u v : K) (w : float64).

(** the outer map object at [g] *)
Definition nodes_of h g : gmap K positive := default ∅ (outer_maps h !! g).

(** the inner map object that [g.Adjacencies[n]] refers to *)
Definition ref h g n : option positive := nodes_of h g !! n.

Definition view h g : graphData K :=
  (λ i, default ∅ (inner_maps h !! i)) <$> nodes_of h g.

(** [make(map[Node[K]]map[Node[K]]float64)] *)
Definition newGraphData h : positive * heap :=
  let g := fresh (dom (outer_maps h)) in
  (g, mkHeap (<[g := ∅]> (outer_maps h)) (inner_maps h)).

(** [g.Adjacencies[n] = make(map[Node[K]]float64)] *)
Definition make_adjacency h g n : heap :=
  let i := fresh (dom (inner_maps h)) in
  mkHeap (alter (<[n := i]>) g (outer_maps h)) (<[i := ∅]> (inner_maps h)).

(** an update of the map object [g.Adjacencies[n]]; on a nil map a
    [delete] does nothing *)
Definition modify_adjacency h g n (f : gmap K float64 → gmap K float64) : heap :=
  match ref h g n with
  | Some i => mkHeap (outer_maps h) (alter f i (inner_maps h))
  | None => h
  end.

Definition AddNode h g n : heap :=
  if ref h g n is Some _ then h else make_adjacency h g n.

Definition RemoveNode h g n : heap :=
  let h := foldl (λ h node, modify_adjacency h g node (delete n)) h
             (range None (nodes_of h g)).*1 in
  mkHeap (alter (delete n) g (outer_maps h)) (inner_maps h).

Definition Clear h g : heap :=
  mkHeap (alter (λ _, ∅) g (outer_maps h)) (inner_maps h).

Definition DirectedAddEdge h g u v w : heap :=
  let h := if ref h g u is Some _ then h else AddNode h g u in
  let h := if ref h g v is Some _ then h else AddNode h g v in
  modify_adjacency h g u (<[v := w]>).

Definition UndirectedAddEdge h g u v w : heap :=
  let h := if ref h g u is Some _ then h else AddNode h g u in
  let h := if ref h g v is Some _ then h else AddNode h g v in
  let h := modify_adjacency h g u (<[v := w]>) in
  modify_adjacency h g v (<[u := w]>).

Definition DirectedRemoveEdge h g u v : heap :=
  modify_adjacency h g u (delete v).

Definition UndirectedRemoveEdge h g u v : heap :=
  modify_adjacency (modify_adjacency h g u (delete v)) g v (delete u).

(** The mutators of a graph, and the bare assignment
    [g.Adjacencies[u][v] = w], which panics on a nil inner map. *)
Inductive mutation : Type :=
| MAddNode (n : K)
| MRemoveNode (n : K)
| MClear
| MDirectedAddEdge (u v : K) (w : float64)
| MUndirectedAddEdge (u v : K) (w : float64)
| MDirectedRemoveEdge (u v : K)
| MUndirectedRemoveEdge (u v : K)
| MAssign (u v : K) (w : float64).

Definition mutate h g (m : mutation) : option heap :=
  match m with
  | MAddNode n => Some (AddNode h g n)
  | MRemoveNode n => Some (RemoveNode h g n)
  | MClear => Some (Clear h g)
  | MDirectedAddEdge u v w => Some (DirectedAddEdge h g u v w)
  | MUndirectedAddEdge u v w => Some (UndirectedAddEdge h g u v w)
  | MDirectedRemoveEdge u v => Some (DirectedRemoveEdge h g u v)
  | MUndirectedRemoveEdge u v => Some (UndirectedRemoveEdge h g u v)
  | MAssign u v w =>
      if ref h g u is Some _ then Some (modify_adjacency h g u (<[v := w]>))
      else None
  end.

Fixpoint mutate_all h g (ms : list mutation) : option heap :=
  match ms with
  | [] => Some h
  | m :: ms => h ← mutate h g m; mutate_all h g ms
  end.

(** The closure [getOrCreate] of [Copy] with its registry [nodesMap]. *)
Definition getOrCreate (nodesMap : gmap K K) (id : K) : K * gmap K K :=
  match nodesMap !! id with
  | Some node => (node, nodesMap)
  | None => (id, <[id := id]> nodesMap)
  end.

(** body of [for nei, weight := range neighbors] *)
Definition copy_entry c (newNode : K) (st : gmap K K * heap) (e : K * float64)
    : gmap K K * heap :=
  let '(newNeighbor, nodesMap) := getOrCreate st.1 e.1 in
  (nodesMap, modify_adjacency st.2 c newNode (<[newNeighbor := e.2]>)).

(** body of [for n, neighbors := range g.Adjacencies] *)
Definition copy_node c (st : gmap K K * heap) (e : K * positive)
    : gmap K K * heap :=
  let neighbors := default ∅ (inner_maps st.2 !! e.2) in
  let '(newNode, nodesMap) := getOrCreate st.1 e.1 in
  let h := if ref st.2 c newNode is Some _ then st.2
           else make_adjacency st.2 c newNode in
  foldl (copy_entry c newNode) (nodesMap, h) (range (Some e.1) neighbors).

Definition Copy h g : positive * heap :=
  let '(c, h) := newGraphData h in
  (c, (foldl (copy_node c) (∅, h) (range None (nodes_of h g))).2).

(** *** Heap invariants *)

(** no dangling reference *)
Definition allocated h : Prop :=
  ∀ g n i, ref h g n = Some i → is_Some (inner_maps h !! i).

(** every inner map object belongs to one node of one graph *)
Definition unshared h : Prop :=
  ∀ g1 n1 g2 n2 i, ref h g1 n1 = Some i → ref h g2 n2 = Some i →
                   g1 = g2 ∧ n1 = n2.

Definition heap_ok h : Prop := allocated h ∧ unshared h.

(** [g] points to an outer map object *)
Definition live h g : Prop := is_Some (outer_maps h !! g).

(** From [h] to [h'] no graph appeared or vanished, and every graph other
    than [g] kept its map objects and their contents. *)
Definition touches_only g h h' : Prop :=
  (∀ l, live h' l ↔ live h l) ∧
  (∀ l, l ≠ g → nodes_of h' l = nodes_of h l ∧ view h' l = view h l).

(** The registry of [Copy] maps every key to a node with that key. *)
Definition registry_ok (nodesMap : gmap K K) : Prop :=
  ∀ id node, nodesMap !! id = Some node → node = id.

(** What a mutation does to the adjacency structure of its graph. *)
Definition denote (m : mutation) (a : graphData K) : graphData K :=
  match m with
  | MAddNode n => Graph.AddNode a n
  | MRemoveNode n => Graph.RemoveNode a n
  | MClear => Graph.Clear a
  | MDirectedAddEdge u v w => DirectedGraph.AddEdge a u v w
  | MUndirectedAddEdge u v w => UndirectedGraph.AddEdge a u v w
  | MDirectedRemoveEdge u v => DirectedGraph.RemoveEdge a u v
  | MUndirectedRemoveEdge u v => UndirectedGraph.RemoveEdge a u v
  | MAssign u v w => <[u := <[v := w]> (Graph.adjacency a u)]> a
  end.

Definition denote_all (ms : list mutation) (a : graphData K) : graphData K :=
  foldl (λ a m, denote m a) a ms.

Definition empty_heap : heap := mkHeap ∅ ∅.

End heap.
End Heap.


(** ** The maze reader

    [readLines] turns the text of a maze into an undirected graph on the
    walkable tiles.  The file is its contents, or [None] when it cannot be
    read; a result of [None] is a panic. *)

Module Maze.

(** Go's [int] has 64 bits; [wrap] is the value a sum wraps round to. *)
Definition wrap (z : Z) : Z := ((z + 2 ^ 63) `mod` 2 ^ 64 - 2 ^ 63)%Z.

Record coordinate : Type := mkCoordinate { X : Z; Y : Z }.

(** [type Direction coordinate] *)
Definition Direction : Type := coordinate.

#[export] Instance coordinate_eq_dec : EqDecision coordinate.
Proof. solve_decision. Defined.

#[export] Instance coordinate_countable : Countable coordinate :=
  inj_countable' (λ c, (X c, Y c)) (λ p, mkCoordinate p.1 p.2)
    (λ c, match c with mkCoordinate _ _ => eq_refl end).

#[export] Instance coordinate_zero_value : ZeroValue coordinate :=
  mkCoordinate 0%Z 0%Z.

(** *** The runtime: [strings.Split] and [range] over a string *)

(** [strings.Split(s, "\n")]: the pieces between the newline bytes, one
    more than there are newlines *)
Fixpoint Split (s : list Byte.byte) : list (list Byte.byte) :=
  match s with
  | [] => [[]]
  | b :: s =>
      if Byte.eqb b Byte.x0a then [] :: Split s
      else match Split s with
           | line :: lines => (b :: line) :: lines
           | [] => [[b]]
           end
  end.

(** the rune [0xFFFD] that stands for an invalid sequence *)
Definition runeError : Z := 65533%Z.

(** a continuation byte, [0x80] to [0xBF] *)
Definition continuation (b : Z) : bool := ((128 <=? b) && (b <=? 191))%Z.

(** The rune that starts a string and the number of bytes it takes; an
    invalid sequence is the rune [0xFFFD] of width 1. *)
Definition decoderune (s : list Z) : Z * nat :=
  match s with
  | [] => (runeError, 1)
  | b0 :: rest =>
      if (b0 <? 128)%Z then (b0, 1)
      else if ((192 <=? b0) && (b0 <? 224))%Z then
        match rest with
        | b1 :: _ =>
            let r := ((b0 `mod` 32) * 64 + b1 `mod` 64)%Z in
            if continuation b1 && (127 <? r)%Z then (r, 2) else (runeError, 1)
        | _ => (runeError, 1)
        end
      else if ((224 <=? b0) && (b0 <? 240))%Z then
        match rest with
        | b1 :: b2 :: _ =>
            let r := (((b0 `mod` 16) * 64 + b1 `mod` 64) * 64 + b2 `mod` 64)%Z in
            if continuation b1 && continuation b2 && (2047 <? r)%Z
               && negb ((55296 <=? r) && (r <=? 57343))%Z
            then (r, 3) else (runeError, 1)
        | _ => (runeError, 1)
        end
      else if ((240 <=? b0) && (b0 <? 248))%Z then
        match rest with
        | b1 :: b2 :: b3 :: _ =>
            let r := ((((b0 `mod` 8) * 64 + b1 `mod` 64) * 64 + b2 `mod` 64) * 64
                      + b3 `mod` 64)%Z in
            if continuation b1 && continuation b2 && continuation b3
               && (65535 <? r)%Z && (r <=? 1114111)%Z
            then (r, 4) else (runeError, 1)
        | _ => (runeError, 1)
        end
      else (runeError, 1)
  end.

(** [for x, c := range line] from byte offset [x] on; every turn moves
    on by at least one byte. *)
Fixpoint range_from (fuel : nat) (x : Z) (s : list Z) : list (Z * Z) :=
  match fuel, s with
  | S fuel, _ :: _ =>
      let '(c, width) := decoderune s in
      (x, c) :: range_from fuel (x + Z.of_nat width)%Z (drop width s)
  | _, _ => []
  end.

Definition range_string (line : list Byte.byte) : list (Z * Z) :=
  let s := (λ b, Z.of_N (Byte.to_N b)) <$> line in
  range_from (length s) 0%Z s.

(** *** readLines *)

(** ['.'], ['S'] and ['T'] *)
Definition dot : Z := 46%Z.
Definition rune_S : Z := 83%Z.
Definition rune_T : Z := 84%Z.

Record scan : Type := mkScan {
  start : coordinate;
  target : coordinate;
  grid : list (list Z)
}.

(** body of [for x, c := range line]; [row] is the row built so far *)
Definition scan_rune (y : Z) (st : coordinate * coordinate * list Z)
    (xc : Z * Z) : coordinate * coordinate * list Z :=
  let '(start, target, row) := st in
  let '(x, c) := xc in
  let '(start, c) :=
    if decide (c = rune_S) then (mkCoordinate x y, dot) else (start, c) in
  let '(target, c) :=
    if decide (c = rune_T) then (mkCoordinate x y, dot) else (target, c) in
  (start, target, row ++ [c]).

(** body of [for y, line := range strings.Split(...)] *)
Definition scan_line (st : scan) (yl : nat * list Byte.byte) : scan :=
  let '(start, target, row) :=
    foldl (scan_rune (Z.of_nat yl.1)) (start st, target st, [])
      (range_string yl.2) in
  mkScan start target (grid st ++ [row]).

Definition scan_file (buf : list Byte.byte) : scan :=
  foldl scan_line (mkScan zero_value zero_value []) (imap pair (Split buf)).

(** body of [for _, d := range directions], at the walkable tile
    [(x, y)] *)
Definition visit_direction (grid : list (list Z)) (height width x y : Z)
    (g : option (graphData coordinate)) (d : Direction)
    : option (graphData coordinate) :=
  g ← g;
  let new_x := wrap (x + X d) in
  let new_y := wrap (y + Y d) in
  if decide (new_x < 0 ∨ width ≤ new_x ∨ new_y < 0 ∨ height ≤ new_y)%Z
  then Some g
  else
    row ← grid !! Z.to_nat new_y;
    c ← row !! Z.to_nat new_x;
    if decide (c = dot)
    then Some (UndirectedGraph.AddEdge g (mkCoordinate x y)
                 (mkCoordinate new_x new_y) (Fin 1))
    else Some g.

(** body of [for x, c := range row] *)
Definition visit_tile (grid : list (list Z)) (height width y : Z)
    (directions : list Direction)
    (g : option (graphData coordinate)) (xc : nat * Z)
    : option (graphData coordinate) :=
  if decide (xc.2 ≠ dot) then g
  else foldl (visit_direction grid height width (Z.of_nat xc.1) y) g directions.

(** body of [for y, row := range grid] *)
Definition visit_row (grid : list (list Z)) (height width : Z)
    (directions : list Direction)
    (g : option (graphData coordinate)) (yrow : nat * list Z)
    : option (graphData coordinate) :=
  foldl (visit_tile grid height width (Z.of_nat yrow.1) directions) g
    (imap pair yrow.2).

(** The walk over the grid; [grid[0]] is out of range on an empty grid. *)
Definition walk_grid (grid : list (list Z)) (directions : list Direction)
    : option (graphData coordinate) :=
  first ← grid !! 0;
  let height := Z.of_nat (length grid) in
  let width := Z.of_nat (length first) in
  foldl (visit_row grid height width directions)
    (Some UndirectedGraph.NewUndirectedGraph) (imap pair grid).

Definition readLines (file : option (list Byte.byte))
    (directions : list Direction)
    : option (graphData coordinate * coordinate * coordinate) :=
  buf ← file;
  let sc := scan_file buf in
  g ← walk_grid (grid sc) directions;
  Some (g, start sc, target sc).

(** *** What the first loop computes *)

(** the rune that the grid stores for the rune [c]: the start and the
    target tile are stored as walkable tiles *)
Definition stored (c : Z) : Z :=
  if decide (c = rune_S ∨ c = rune_T) then dot else c.

(** the row that a line becomes *)
Definition row_of (line : list Byte.byte) : list Z :=
  stored <$> (range_string line).*2.

(** the coordinates at which line [y] has the rune [r], as the loop
    records them: byte offset and line number *)
Definition marks (r : Z) (y : Z) (xs : list (Z * Z)) : list coordinate :=
  (λ xc, mkCoordinate xc.1 y) <$> filter (λ xc, xc.2 = r) xs.

Definition all_marks (r : Z) (lines : list (nat * list Byte.byte))
    : list coordinate :=
  yl ← lines; marks r (Z.of_nat yl.1) (range_string yl.2).

(** a text of ASCII bytes *)
Definition ascii (s : list Byte.byte) : Prop :=
  ∀ b, b ∈ s → (Byte.to_N b < 128)%N.

(** *** What the grid holds *)

(** the rune at a coordinate, if the grid has one there *)
Definition tile (grid : list (list Z)) (c : coordinate) : option Z :=
  if decide (0 ≤ X c ∧ 0 ≤ Y c)%Z
  then grid !! Z.to_nat (Y c) ≫= (.!! Z.to_nat (X c))
  else None.

Definition walkable (grid : list (list Z)) (c : coordinate) : Prop :=
  tile grid c = Some dot.

(** the coordinate one step in direction [d] from [c] *)
Definition step (d : Direction) (c : coordinate) : coordinate :=
  mkCoordinate (wrap (X c + X d)) (wrap (Y c + Y d)).


(** inside the bounds that [readLines] checks: the number of rows and the
    length of the first row *)
Definition in_bounds (grid : list (list Z)) (c : coordinate) : Prop :=
  (0 ≤ X c < Z.of_nat (length (default [] (grid !! 0%nat))))%Z ∧
  (0 ≤ Y c < Z.of_nat (length grid))%Z.

(** *** What the walk over the grid maintains *)




End Maze.

(** * Properties *)

(** ** Arithmetic and order of [float64] *)

(** *** Shifts and rounding in [SpecFloat] *)
Section shift_facts.
Local Open Scope Z_scope.

Lemma digits2_size p : digits2_pos p = Pos.size p.
Proof. induction p; simpl; congruence. Qed.

Lemma Zpos_digits p : Z.pos (digits2_pos p) = Z.log2 (Z.pos p) + 1.
Proof. rewrite digits2_size. destruct p; simpl; lia. Qed.

Lemma iter_pos_nat {A} (f : A → A) p x :
  SpecFloat.iter_pos f p x = Nat.iter (Pos.to_nat p) f x.
Proof.
  revert x. induction p as [p IH|p IH|]; intros x; cbn [SpecFloat.iter_pos].
  - rewrite !IH, Pos2Nat.inj_xI, Nat.iter_succ_r.
    replace (2 * Pos.to_nat p)%nat with (Pos.to_nat p + Pos.to_nat p)%nat by lia.
    by rewrite Nat.iter_add.
  - rewrite !IH, Pos2Nat.inj_xO.
    replace (2 * Pos.to_nat p)%nat with (Pos.to_nat p + Pos.to_nat p)%nat by lia.
    by rewrite Nat.iter_add.
  - done.
Qed.

Lemma shr_1_spec m r s :
  0 ≤ m →
  shr_1 {| shr_m := m; shr_r := r; shr_s := s |}
  = {| shr_m := m / 2; shr_r := Z.odd m; shr_s := r || s |}.
Proof.
  intros Hm. rewrite <- Z.div2_div.
  destruct m as [|[p|p|]|]; done || lia.
Qed.

Lemma mod_pow2_succ m j :
  0 ≤ j → m mod 2 ^ (j + 1) = m mod 2 ^ j + 2 ^ j * (if Z.odd (m / 2 ^ j) then 1 else 0).
Proof.
  intros Hj. rewrite Z.pow_add_r, Z.pow_1_r by lia.
  rewrite Z.rem_mul_r by lia. f_equal. f_equal.
  rewrite Zmod_odd. done.
Qed.

Lemma shr_iter m j :
  0 ≤ m →
  Nat.iter (S j) shr_1 {| shr_m := m; shr_r := false; shr_s := false |}
  = {| shr_m := m / 2 ^ Z.of_nat (S j);
       shr_r := Z.odd (m / 2 ^ Z.of_nat j);
       shr_s := negb (m mod 2 ^ Z.of_nat j =? 0) |}.
Proof.
  intros Hm. induction j as [|j IH].
  - unfold Nat.iter. cbn [nat_rect]. rewrite shr_1_spec by done.
    change (Z.of_nat 1) with 1. change (Z.of_nat 0) with 0.
    by rewrite Z.pow_0_r, Z.pow_1_r, Z.div_1_r, Z.mod_1_r.
  - rewrite Nat.iter_succ, IH.
    assert (Hp : 0 < 2 ^ Z.of_nat j) by (apply Z.pow_pos_nonneg; lia).
    assert (Hp' : 0 < 2 ^ Z.of_nat (S j)) by (apply Z.pow_pos_nonneg; lia).
    rewrite shr_1_spec by (apply Z.div_pos; lia). f_equal.
    + rewrite Z.div_div by lia. f_equal.
      rewrite <- (Z.pow_1_r 2) at 2. rewrite <- Z.pow_add_r by lia. f_equal. lia.
    + replace (Z.of_nat (S j)) with (Z.of_nat j + 1) by lia.
      rewrite mod_pow2_succ by lia.
      assert (Hr := Z.mod_pos_bound m (2 ^ Z.of_nat j) Hp).
      destruct (Z.odd (m / 2 ^ Z.of_nat j)); simpl.
      * symmetry. apply negb_true_iff, Z.eqb_neq. lia.
      * f_equal. rewrite Z.mul_0_r, Z.add_0_r. done.
Qed.

(** Shifting [n] bits out of [m], with the round bit and the sticky bit. *)
Lemma shr_spec m e n :
  0 ≤ m →
  shr {| shr_m := m; shr_r := false; shr_s := false |} e n
  = if n <=? 0 then ({| shr_m := m; shr_r := false; shr_s := false |}, e)
    else ({| shr_m := m / 2 ^ n;
             shr_r := Z.odd (m / 2 ^ (n - 1));
             shr_s := negb (m mod 2 ^ (n - 1) =? 0) |}, e + n).
Proof.
  intros Hm. destruct n as [|p|p]; try done.
  unfold shr. rewrite iter_pos_nat.
  destruct (Pos.to_nat p) as [|j] eqn:Hj; [lia|].
  rewrite shr_iter by done.
  assert (Z.pos p = Z.of_nat (S j)) as -> by lia.
  replace (Z.of_nat (S j) - 1) with (Z.of_nat j) by lia.
  by rewrite (proj2 (Z.leb_gt (Z.of_nat (S j)) 0)) by lia.
Qed.

(** The round bit and the sticky bit say where the bits shifted out lie
    with respect to one half. *)
Lemma round_loc m n :
  0 ≤ m → 0 < n →
  round_nearest_even (m / 2 ^ n)
    (loc_of_shr_record {| shr_m := m / 2 ^ n;
                          shr_r := Z.odd (m / 2 ^ (n - 1));
                          shr_s := negb (m mod 2 ^ (n - 1) =? 0) |})
  = match 2 * (m mod 2 ^ n) ?= 2 ^ n with
    | Lt => m / 2 ^ n
    | Eq => if Z.even (m / 2 ^ n) then m / 2 ^ n else m / 2 ^ n + 1
    | Gt => m / 2 ^ n + 1
    end.
Proof.
  intros Hm Hn.
  assert (Hp : 0 < 2 ^ (n - 1)) by (apply Z.pow_pos_nonneg; lia).
  assert (Hr := Z.mod_pos_bound m (2 ^ (n - 1)) Hp).
  assert (Hs := mod_pow2_succ m (n - 1) ltac:(lia)).
  replace (n - 1 + 1) with n in Hs by lia.
  assert (H2 : 2 ^ n = 2 * 2 ^ (n - 1)).
  { rewrite <- (Z.pow_1_r 2) at 2. rewrite <- Z.pow_add_r by lia. f_equal. lia. }
  rewrite Hs, H2.
  destruct (Z.odd (m / 2 ^ (n - 1))), (m mod 2 ^ (n - 1) =? 0) eqn:E; simpl;
    [apply Z.eqb_eq in E | apply Z.eqb_neq in E
    | apply Z.eqb_eq in E | apply Z.eqb_neq in E].
  - rewrite (proj2 (Z.compare_eq_iff _ _)) by lia. done.
  - rewrite (proj2 (Z.compare_gt_iff _ _)) by lia. done.
  - rewrite (proj2 (Z.compare_lt_iff _ _)) by lia. done.
  - rewrite (proj2 (Z.compare_lt_iff _ _)) by lia. done.
Qed.

Lemma iter_xO m p : Z.pos (Pos.iter xO m p) = Z.pos m * 2 ^ Z.pos p.
Proof.
  induction p as [|p IH] using Pos.peano_ind.
  - cbn [Pos.iter]. rewrite Pos2Z.inj_xO, Z.pow_1_r. lia.
  - rewrite Pos.iter_succ, Pos2Z.inj_xO, IH, Pos2Z.inj_succ, Z.pow_succ_r by lia.
    ring.
Qed.

Lemma shl_align_spec m e e' :
  shl_align m e e'
  = if e' <? e then (Z.to_pos (Z.pos m * 2 ^ (e - e')), e') else (m, e).
Proof.
  unfold shl_align. destruct (e' - e) as [|p|p] eqn:E.
  - by rewrite (proj2 (Z.ltb_ge e' e)) by lia.
  - by rewrite (proj2 (Z.ltb_ge e' e)) by lia.
  - rewrite (proj2 (Z.ltb_lt e' e)) by lia. f_equal.
    assert (e - e' = Z.pos p) as -> by lia.
    by rewrite <- iter_xO, Pos2Z.id.
Qed.

End shift_facts.

Section round_facts.
Local Open Scope Z_scope.

Lemma pow2_pos n : 0 ≤ n → 0 < 2 ^ n.
Proof. intros. apply Z.pow_pos_nonneg; lia. Qed.

Lemma pow2_le a b : 0 ≤ a ≤ b → 2 ^ a ≤ 2 ^ b.
Proof. intros. apply Z.pow_le_mono_r; lia. Qed.

Lemma pow2_lt a b : 0 ≤ a < b → 2 ^ a < 2 ^ b.
Proof. intros. apply Z.pow_lt_mono_r; lia. Qed.

Lemma pow2_split a b : 0 ≤ a ≤ b → 2 ^ b = 2 ^ (b - a) * 2 ^ a.
Proof. intros. rewrite <- Z.pow_add_r by lia. f_equal. lia. Qed.

Lemma fexp_eq x : fexp prec emax x = Z.max (x - 53) (-1074).
Proof. reflexivity. Qed.

Lemma log2_bounds q l : 0 ≤ l → 2 ^ l ≤ q < 2 ^ (l + 1) → Z.log2 q = l.
Proof. intros Hl Hq. apply Z.log2_unique; [done|]. by rewrite <- Z.add_1_r. Qed.

Lemma log2_spec q : 0 < q → 2 ^ Z.log2 q ≤ q < 2 ^ (Z.log2 q + 1).
Proof. intros Hq. rewrite Z.add_1_r. by apply Z.log2_spec. Qed.

Lemma lowbits_canon q k : canon q k → lowbits (q * 2 ^ k) = k.
Proof.
  intros ((Hq0 & Hq) & Hk & Hc). unfold lowbits.
  rewrite Z.log2_mul_pow2 by lia.
  assert (Hl := log2_spec q Hq0).
  assert (Z.log2 q < 53) by (apply Z.log2_lt_pow2; lia).
  destruct Hc as [->|Hc]; [lia|].
  assert (52 ≤ Z.log2 q) by (apply Z.log2_le_pow2; lia). lia.
Qed.

Lemma of_units_canon q k :
  canon q k →
  of_units (q * 2 ^ k)
  = if k <=? 2045 then S754_finite false (Z.to_pos q) (k - 1074) else PInf.
Proof.
  intros Hc. assert (Hd := lowbits_canon q k Hc).
  destruct Hc as ((Hq0 & Hq) & Hk & Hc).
  assert (Hp := pow2_pos k Hk).
  assert (HN : 0 < q * 2 ^ k) by lia.
  unfold of_units. destruct (q * 2 ^ k) as [|p|p] eqn:E; try lia.
  rewrite Hd, <- E, Z.div_mul by lia. done.
Qed.

Lemma rne_bounds m n : 0 ≤ n → m / 2 ^ n ≤ rne m n ≤ m / 2 ^ n + 1.
Proof. intros. unfold rne. destruct (_ ?= _); [destruct (Z.even _)| |]; lia. Qed.

Lemma binary_round_aux_spec m e :
  binary_round_aux prec emax false (Z.pos m) e loc_Exact
  = let n := Z.max (Z.log2 (Z.pos m) + 1 + e - 53) (-1074) - e in
    let q := if n <=? 0 then Z.pos m else rne (Z.pos m) n in
    let e1 := if n <=? 0 then e else e + n in
    let n1 := Z.max (Zdigits2 q + e1 - 53) (-1074) - e1 in
    match (if n1 <=? 0 then q else q / 2 ^ n1) with
    | Z0 => S754_zero false
    | Zpos p =>
        if (if n1 <=? 0 then e1 else e1 + n1) <=? 971
        then S754_finite false p (if n1 <=? 0 then e1 else e1 + n1)
        else PInf
    | Zneg _ => S754_nan
    end.
Proof.
  unfold binary_round_aux, shr_fexp.
  cbn [shr_record_of_loc Zdigits2]. rewrite Zpos_digits, !fexp_eq.
  rewrite shr_spec by lia. cbv zeta.
  set (n := Z.max (Z.log2 (Z.pos m) + 1 + e - 53) (-1074) - e).
  destruct (n <=? 0) eqn:En.
  - cbn [shr_m loc_of_shr_record round_nearest_even].
    rewrite shr_spec by lia. rewrite fexp_eq. change (emax - prec) with 971.
    set (n1 := Z.max (Zdigits2 (Z.pos m) + e - 53) (-1074) - e).
    by destruct (n1 <=? 0).
  - apply Z.leb_gt in En. cbn [shr_m]. rewrite round_loc by lia.
    fold (rne (Z.pos m) n).
    assert (Hq : 0 ≤ rne (Z.pos m) n).
    { assert (Hb := rne_bounds (Z.pos m) n ltac:(lia)).
      assert (0 ≤ Z.pos m / 2 ^ n) by (apply Z.div_pos; [lia | apply pow2_pos; lia]).
      lia. }
    rewrite shr_spec by done. rewrite fexp_eq. change (emax - prec) with 971.
    set (n1 := Z.max (Zdigits2 (rne (Z.pos m) n) + (e + n) - 53) (-1074) - (e + n)).
    by destruct (n1 <=? 0).
Qed.

Lemma Zdigits2_log2 q : 0 < q → Zdigits2 q = Z.log2 q + 1.
Proof. destruct q as [|p|p]; try lia. intros _. apply Zpos_digits. Qed.

Lemma canon_log2 q k :
  0 < q → 0 ≤ k → Z.log2 q ≤ 52 → (k = 0 ∨ Z.log2 q = 52) → canon q k.
Proof.
  intros Hq Hk Hl Hc. assert (Hs := log2_spec q Hq).
  assert (H0 := Z.log2_nonneg q).
  assert (2 ^ (Z.log2 q + 1) ≤ 2 ^ 53) by (apply pow2_le; lia).
  split; [lia|]. split; [done|].
  destruct Hc as [->|Hc]; [by left|right]. rewrite Hc in Hs. lia.
Qed.

Lemma canon_digits q k :
  canon q k → Z.max (Z.log2 q + 1 + (k - 1074) - 53) (-1074) - (k - 1074) = 0.
Proof.
  intros ((Hq0 & Hq) & Hk & Hc).
  assert (Z.log2 q < 53) by (apply Z.log2_lt_pow2; lia).
  destruct Hc as [->|Hc]; [lia|].
  assert (52 ≤ Z.log2 q) by (apply Z.log2_le_pow2; lia). lia.
Qed.

Lemma binary_round_aux_canon q k :
  canon q k →
  binary_round_aux prec emax false (Z.pos (Z.to_pos q)) (k - 1074) loc_Exact
  = if k <=? 2045 then S754_finite false (Z.to_pos q) (k - 1074) else PInf.
Proof.
  intros Hc. assert (Hd := canon_digits q k Hc).
  rewrite binary_round_aux_spec. cbv zeta.
  rewrite Z2Pos.id by (destruct Hc; lia). rewrite Hd.
  cbn [Z.leb Z.compare]. rewrite Zdigits2_log2 by (destruct Hc; lia).
  rewrite Hd. cbn [Z.leb Z.compare].
  destruct q as [|p|p]; try (destruct Hc; lia). cbn [Z.to_pos].
  by replace (k - 1074 <=? 971) with (k <=? 2045) by lia.
Qed.

Lemma round_int_exact N : 0 ≤ N → N mod 2 ^ lowbits N = 0 → round_int N = N.
Proof.
  intros HN Hm. unfold round_int, rne. rewrite Hm.
  assert (Hp : 0 < 2 ^ lowbits N) by (apply pow2_pos; unfold lowbits; lia).
  rewrite (proj2 (Z.compare_lt_iff _ _)) by lia.
  rewrite Z.mul_comm. symmetry. apply Z_div_exact_full_2; lia.
Qed.

Lemma round_units_canon q k :
  canon q k →
  round_units (q * 2 ^ k)
  = if k <=? 2045 then S754_finite false (Z.to_pos q) (k - 1074) else PInf.
Proof.
  intros Hc. unfold round_units. rewrite round_int_exact.
  - by apply of_units_canon.
  - destruct Hc as ((? & ?) & Hk & _). assert (Hp := pow2_pos k Hk). lia.
  - rewrite lowbits_canon by done. apply Z.mod_mul.
    destruct Hc as (_ & Hk & _). assert (Hp := pow2_pos k Hk). lia.
Qed.

Lemma rne_scaled m n j :
  0 ≤ n → 0 ≤ j →
  m * 2 ^ j / 2 ^ (n + j) = m / 2 ^ n ∧
  (2 * (m * 2 ^ j mod 2 ^ (n + j)) ?= 2 ^ (n + j)) = (2 * (m mod 2 ^ n) ?= 2 ^ n).
Proof.
  intros Hn Hj. assert (Hpn := pow2_pos n Hn). assert (Hpj := pow2_pos j Hj).
  rewrite Z.pow_add_r by lia. split.
  - apply Z.div_mul_cancel_r; lia.
  - rewrite Z.mul_mod_distr_r by lia. rewrite Z.mul_assoc.
    symmetry. apply Zmult_compare_compat_r. lia.
Qed.

Lemma round_int_scaled m n j :
  0 ≤ n → 0 ≤ j → lowbits (m * 2 ^ j) = n + j →
  round_int (m * 2 ^ j) = rne m n * 2 ^ (n + j).
Proof.
  intros Hn Hj Hd. unfold round_int, rne. rewrite Hd.
  destruct (rne_scaled m n j Hn Hj) as [-> ->]. done.
Qed.

Lemma div_pow2_bounds m n l :
  0 ≤ n → 0 ≤ l → 2 ^ (l + n) ≤ m < 2 ^ (l + 1 + n) →
  2 ^ l ≤ m / 2 ^ n < 2 ^ (l + 1).
Proof.
  intros Hn Hl. rewrite !Z.pow_add_r by lia. intros [H1 H2].
  assert (Hp := pow2_pos n Hn). split.
  - apply Z.div_le_lower_bound; lia.
  - apply Z.div_lt_upper_bound; lia.
Qed.

(** Rounding a mantissa and an exponent to a [float64] is rounding the
    number of units they stand for. *)
Lemma binary_round_units (M : positive) (e : Z) :
  -1074 ≤ e →
  binary_round prec emax false M e = round_units (Z.pos M * 2 ^ (e + 1074)).
Proof.
  intros He. unfold binary_round. rewrite Zpos_digits, fexp_eq, shl_align_spec.
  set (j := e + 1074). set (lM := Z.log2 (Z.pos M)).
  assert (Hj : 0 ≤ j) by (unfold j; lia).
  assert (HlM : 0 ≤ lM) by apply Z.log2_nonneg.
  assert (HM := log2_spec (Z.pos M) ltac:(lia)). fold lM in HM.
  assert (Hpj := pow2_pos j Hj).
  assert (HL : Z.log2 (Z.pos M * 2 ^ j) = j + lM) by (apply Z.log2_mul_pow2; lia).
  set (e' := Z.max (lM + 1 + e - 53) (-1074)).
  set (k := lowbits (Z.pos M * 2 ^ j)).
  assert (Hk : k = Z.max (j + lM - 52) 0) by (unfold k, lowbits; by rewrite HL).
  assert (He' : e' = k - 1074) by (unfold e', j in *; lia).
  destruct (e' <? e) eqn:E.
  - apply Z.ltb_lt in E.
    assert (Hc : canon (Z.pos M * 2 ^ (j - k)) k).
    { assert (Hp := pow2_pos (j - k) ltac:(lia)).
      apply canon_log2; try lia; rewrite Z.log2_mul_pow2 by lia; fold lM; lia. }
    assert (HN : Z.pos M * 2 ^ j = Z.pos M * 2 ^ (j - k) * 2 ^ k).
    { rewrite <- Z.mul_assoc. f_equal. apply pow2_split. lia. }
    rewrite HN, round_units_canon by done.
    replace (e - e') with (j - k) by lia. rewrite He'.
    by apply binary_round_aux_canon.
  - apply Z.ltb_ge in E. destruct (decide (e' = e)) as [Heq|Hne].
    + assert (Hc : canon (Z.pos M) k) by (apply canon_log2; fold lM; lia).
      assert (k = j) as Hkj by lia.
      rewrite <- Hkj, round_units_canon by done.
      replace e with (k - 1074) by lia.
      by apply (binary_round_aux_canon (Z.pos M) k).
    + set (n := k - j). assert (Hn : 0 < n) by (unfold n; lia).
      assert (Hkn : k = n + j) by (unfold n; lia).
      assert (Hl52 : lM = 52 + n) by lia.
      assert (Hq0 : 2 ^ 52 ≤ Z.pos M / 2 ^ n < 2 ^ (52 + 1)).
      { apply div_pow2_bounds; try lia. rewrite <- Hl52.
        replace (52 + 1 + n) with (lM + 1) by lia. done. }
      assert (Hb := rne_bounds (Z.pos M) n ltac:(lia)).
      unfold round_units. rewrite round_int_scaled with (n := n) by (fold k; lia).
      rewrite <- Hkn.
      rewrite binary_round_aux_spec. cbv zeta. fold lM. fold e'.
      replace (e' - e) with n by lia.
      rewrite (proj2 (Z.leb_gt n 0)) by lia.
      set (q := rne (Z.pos M) n) in *.
      replace (e + n) with (k - 1074) by lia.
      destruct (decide (q = 2 ^ 53)) as [Hq|Hq].
      * rewrite Hq. change (Zdigits2 (2 ^ 53)) with 54.
        replace (Z.max (54 + (k - 1074) - 53) (-1074) - (k - 1074)) with 1 by lia.
        change (1 <=? 0) with false. change (2 ^ 53 / 2 ^ 1) with (2 ^ 52). cbv iota.
        change (2 ^ 53) with (2 ^ 52 * 2 ^ 1).
        rewrite <- Z.mul_assoc, <- Z.pow_add_r by lia.
        rewrite of_units_canon by (split; [done|]; split; [lia|]; by right).
        replace (1 + k - 1074) with (k - 1074 + 1) by lia.
        replace (1 + k <=? 2045) with (k - 1074 + 1 <=? 971) by lia.
        done.
      * assert (Hc : canon q k).
        { split; [lia|]. split; [lia|]. right. lia. }
        rewrite of_units_canon by done.
        rewrite Zdigits2_log2 by lia. rewrite (canon_digits q k Hc).
        change (0 <=? 0) with true. cbv iota.
        destruct q as [|p|p]; try lia. cbn [Z.to_pos].
        by replace (k - 1074 <=? 971) with (k <=? 2045) by lia.
Qed.

End round_facts.

Section order_facts.
Local Open Scope Z_scope.

Lemma bounded_canon m e :
  bounded prec emax m e = true ↔ canon (Z.pos m) (e + 1074) ∧ e ≤ 971.
Proof.
  unfold bounded, canonical_mantissa. rewrite Zpos_digits, fexp_eq.
  change (emax - prec) with 971.
  rewrite andb_true_iff, Z.eqb_eq, Z.leb_le.
  assert (H0 := Z.log2_nonneg (Z.pos m)).
  split.
  - intros [Hc He]. split; [|done]. apply canon_log2; lia.
  - intros [Hc He]. split; [|done]. apply canon_digits in Hc. lia.
Qed.

Lemma canon_lt q k : canon q k → 0 < q * 2 ^ k < 2 ^ (53 + k).
Proof.
  intros ((Hq0 & Hq) & Hk & _). assert (Hp := pow2_pos k Hk).
  rewrite Z.pow_add_r by lia. split; [lia|].
  apply Z.mul_lt_mono_pos_r; lia.
Qed.

Lemma canon_ge q k : canon q k → 0 < k → 2 ^ (52 + k) ≤ q * 2 ^ k.
Proof.
  intros ((Hq0 & Hq) & Hk & Hc) Hk0. assert (Hp := pow2_pos k Hk).
  rewrite Z.pow_add_r by lia. apply Z.mul_le_mono_nonneg_r; lia.
Qed.

Lemma compare_canon q1 k1 q2 k2 :
  canon q1 k1 → canon q2 k2 →
  SFcompare (S754_finite false (Z.to_pos q1) (k1 - 1074))
            (S754_finite false (Z.to_pos q2) (k2 - 1074))
  = Some (q1 * 2 ^ k1 ?= q2 * 2 ^ k2).
Proof.
  intros H1 H2. cbn [SFcompare]. f_equal.
  assert (Hl1 := canon_lt _ _ H1). assert (Hl2 := canon_lt _ _ H2).
  destruct (Z.compare_spec (k1 - 1074) (k2 - 1074)) as [He|He|He].
  - assert (k1 = k2) as -> by lia.
    assert (Hp := pow2_pos k2 ltac:(destruct H2 as (_ & ? & _); lia)).
    change (Pos.compare_cont Eq (Z.to_pos q1) (Z.to_pos q2))
      with (Z.to_pos q1 ?= Z.to_pos q2)%positive.
    rewrite <- Z2Pos.inj_compare by (destruct H1, H2; lia).
    apply Zmult_compare_compat_r. lia.
  - symmetry. apply Z.compare_lt_iff.
    assert (Hg := canon_ge _ _ H2 ltac:(destruct H1 as (_ & ? & _); lia)).
    assert (2 ^ (53 + k1) ≤ 2 ^ (52 + k2)); [|lia].
    apply pow2_le. destruct H1 as (_ & ? & _). lia.
  - symmetry. apply Z.compare_gt_iff.
    assert (Hg := canon_ge _ _ H1 ltac:(destruct H2 as (_ & ? & _); lia)).
    assert (2 ^ (53 + k2) ≤ 2 ^ (52 + k1)); [|lia].
    apply pow2_le. destruct H2 as (_ & ? & _). lia.
Qed.

(** A finite [float64] that is not negative, seen through its units. *)
Lemma nonneg_finite d :
  nonneg d → finite d →
  d = S754_zero false ∨
  ∃ q k, canon q k ∧ k ≤ 2045 ∧
         d = S754_finite false (Z.to_pos q) (k - 1074) ∧ units d = q * 2 ^ k.
Proof.
  destruct d as [s|s| |s m e]; try done.
  - intros -> _. by left.
  - intros [-> Hb] _. right. apply bounded_canon in Hb as [Hc He].
    exists (Z.pos m), (e + 1074). split; [done|]. split; [lia|].
    cbn [Z.to_pos units]. split; [|done]. f_equal. lia.
Qed.

Lemma finite_or d : nonneg d → finite d ∨ d = PInf.
Proof. destruct d as [|[]| |]; cbn; intros; try done; auto. Qed.

Lemma val_finite d : nonneg d → (finite d ↔ val d < 2 ^ 2098).
Proof.
  intros Hd. destruct (finite_or d Hd) as [Hf| ->].
  - split; [|done]. intros _.
    destruct (nonneg_finite d Hd Hf) as [->|(q & k & Hc & Hk & -> & Hu)].
    + cbn. lia.
    + unfold val. rewrite Hu. assert (Hl := canon_lt q k Hc).
      assert (2 ^ (53 + k) ≤ 2 ^ 2098); [|lia].
      apply pow2_le. destruct Hc as (_ & ? & _). lia.
  - split; [done|]. intros Hv. cbn [val PInf] in Hv. lia.
Qed.

Lemma val_bounds d : nonneg d → 0 ≤ val d ≤ 2 ^ 2098.
Proof.
  intros Hd. destruct (finite_or d Hd) as [Hf| ->].
  - assert (Hv := proj1 (val_finite d Hd) Hf). split; [|lia].
    destruct (nonneg_finite d Hd Hf) as [->|(q & k & Hc & Hk & -> & Hu)].
    + cbn. lia.
    + unfold val. rewrite Hu. apply canon_lt in Hc. lia.
  - cbn [val PInf]. lia.
Qed.

(** On the values that are not negative the order of [float64] is the
    order of their units. *)
Lemma compare_val a b :
  nonneg a → nonneg b → SFcompare a b = Some (val a ?= val b).
Proof.
  intros Ha Hb.
  destruct (finite_or a Ha) as [Hfa| ->], (finite_or b Hb) as [Hfb| ->].
  - destruct (nonneg_finite a Ha Hfa) as [->|(q1 & k1 & H1 & _ & -> & Hu1)],
      (nonneg_finite b Hb Hfb) as [->|(q2 & k2 & H2 & _ & -> & Hu2)].
    + done.
    + unfold val. rewrite Hu2. cbn [SFcompare units]. f_equal. symmetry.
      apply Z.compare_lt_iff. apply canon_lt in H2. lia.
    + unfold val. rewrite Hu1. cbn [SFcompare units]. f_equal. symmetry.
      apply Z.compare_gt_iff. apply canon_lt in H1. lia.
    + unfold val. rewrite Hu1, Hu2. by apply compare_canon.
  - assert (Hv := proj1 (val_finite a Ha) Hfa). cbn [val PInf].
    rewrite (proj2 (Z.compare_lt_iff _ _)) by done. by destruct a as [|[]| |[]].
  - assert (Hv := proj1 (val_finite b Hb) Hfb). cbn [val PInf].
    rewrite (proj2 (Z.compare_gt_iff _ _)) by lia. by destruct b as [|[]| |[]].
  - done.
Qed.

Lemma flt_val a b : nonneg a → nonneg b → flt a b = (val a <? val b).
Proof.
  intros Ha Hb. unfold flt, SFltb, Z.ltb. rewrite compare_val by done.
  by destruct (_ ?= _).
Qed.

Lemma fle_val a b : nonneg a → nonneg b → fle a b = (val a <=? val b).
Proof.
  intros Ha Hb. unfold fle, SFleb, Z.leb. rewrite compare_val by done.
  by destruct (_ ?= _).
Qed.

Lemma val_inj a b : nonneg a → nonneg b → val a = val b → a = b.
Proof.
  intros Ha Hb Hv.
  destruct (finite_or a Ha) as [Hfa| ->], (finite_or b Hb) as [Hfb| ->].
  - destruct (nonneg_finite a Ha Hfa) as [->|(q1 & k1 & H1 & ? & -> & Hu1)],
      (nonneg_finite b Hb Hfb) as [->|(q2 & k2 & H2 & ? & -> & Hu2)].
    + done.
    + unfold val in Hv. rewrite Hu2 in Hv. apply canon_lt in H2. cbn in Hv. lia.
    + unfold val in Hv. rewrite Hu1 in Hv. apply canon_lt in H1. cbn in Hv. lia.
    + assert (Hcmp := compare_canon q1 k1 q2 k2 H1 H2).
      unfold val in Hv. rewrite Hu1, Hu2 in Hv. rewrite Hv, Z.compare_refl in Hcmp.
      cbn [SFcompare] in Hcmp. injection Hcmp as Hcmp.
      destruct (Z.compare_spec (k1 - 1074) (k2 - 1074)) as [He|He|He]; try done.
      change (Pos.compare_cont Eq (Z.to_pos q1) (Z.to_pos q2))
        with (Z.to_pos q1 ?= Z.to_pos q2)%positive in Hcmp.
      apply Pos.compare_eq in Hcmp. by rewrite Hcmp, He.
  - apply (val_finite a Ha) in Hfa. cbn [val PInf] in Hv. lia.
  - apply (val_finite b Hb) in Hfb. cbn [val PInf] in Hv. lia.
  - done.
Qed.

End order_facts.

Section add_facts.
Local Open Scope Z_scope.

Lemma round_int_rne N : round_int N = rne N (lowbits N) * 2 ^ lowbits N.
Proof. reflexivity. Qed.

Lemma lowbits_nonneg N : 0 ≤ lowbits N.
Proof. unfold lowbits. lia. Qed.

Lemma lowbits_mono N1 N2 : N1 ≤ N2 → lowbits N1 ≤ lowbits N2.
Proof. intros H. unfold lowbits. assert (Hl := Z.log2_le_mono N1 N2 H). lia. Qed.

Lemma round_int_rep q k : canon q k → round_int (q * 2 ^ k) = q * 2 ^ k.
Proof.
  intros Hc. apply round_int_exact.
  - apply canon_lt in Hc. lia.
  - rewrite lowbits_canon by done. apply Z.mod_mul.
    destruct Hc as (_ & Hk & _). assert (Hp := pow2_pos k Hk). lia.
Qed.

(** What rounding yields is a mantissa and an exponent. *)
Lemma round_int_canon N :
  0 < N → ∃ q k, canon q k ∧ round_int N = q * 2 ^ k.
Proof.
  intros HN. rewrite round_int_rne. set (k := lowbits N).
  assert (Hk := lowbits_nonneg N). fold k in Hk.
  assert (Hs := log2_spec N HN). assert (H0 := Z.log2_nonneg N).
  destruct (decide (k = 0)) as [Hk0|Hk0].
  - exists N, 0. rewrite Hk0. unfold rne.
    rewrite Z.pow_0_r, Z.mod_1_r, Z.div_1_r. cbn [Z.mul Z.compare].
    split; [|done]. apply canon_log2; try lia. unfold k, lowbits in Hk0. lia.
  - assert (HL : Z.log2 N = 52 + k) by (unfold k, lowbits in *; lia).
    assert (Hq0 : 2 ^ 52 ≤ N / 2 ^ k < 2 ^ (52 + 1)).
    { apply div_pow2_bounds; try lia. rewrite <- HL.
      replace (52 + 1 + k) with (Z.log2 N + 1) by lia. done. }
    assert (Hb := rne_bounds N k Hk).
    destruct (decide (rne N k = 2 ^ 53)) as [Hq|Hq].
    + exists (2 ^ 52), (k + 1). split.
      * split; [done|]. split; [lia|]. by right.
      * rewrite Hq, Z.pow_add_r, Z.pow_1_r by lia. lia.
    + exists (rne N k), k. split; [|done].
      split; [lia|]. split; [lia|]. right. lia.
Qed.

Lemma round_int_nonneg N : 0 ≤ N → 0 ≤ round_int N.
Proof.
  intros HN. destruct (decide (N = 0)) as [->|Hne]; [done|].
  destruct (round_int_canon N) as (q & k & Hc & ->); [lia|].
  apply canon_lt in Hc. lia.
Qed.

Lemma rne_mono m1 m2 n : 0 ≤ n → m1 ≤ m2 → rne m1 n ≤ rne m2 n.
Proof.
  intros Hn Hm. assert (Hp := pow2_pos n Hn).
  assert (Hq : m1 / 2 ^ n ≤ m2 / 2 ^ n) by (apply Z.div_le_mono; lia).
  assert (H1 := rne_bounds m1 n Hn). assert (H2 := rne_bounds m2 n Hn).
  destruct (decide (m1 / 2 ^ n = m2 / 2 ^ n)) as [Heq|Hne]; [|lia].
  assert (Hr : m1 mod 2 ^ n ≤ m2 mod 2 ^ n).
  { rewrite !Z.mod_eq by lia. rewrite Heq. lia. }
  unfold rne in *. rewrite Heq.
  destruct (Z.compare_spec (2 * (m1 mod 2 ^ n)) (2 ^ n)),
    (Z.compare_spec (2 * (m2 mod 2 ^ n)) (2 ^ n)),
    (Z.even (m2 / 2 ^ n)); lia.
Qed.

Lemma round_int_mono N1 N2 : 0 ≤ N1 ≤ N2 → round_int N1 ≤ round_int N2.
Proof.
  intros [H1 H12]. destruct (decide (N1 = 0)) as [->|Hne].
  { apply round_int_nonneg. lia. }
  assert (Hk := lowbits_mono N1 N2 H12). assert (Hk1 := lowbits_nonneg N1).
  rewrite !round_int_rne.
  destruct (decide (lowbits N1 = lowbits N2)) as [Heq|Hlt].
  - rewrite Heq. apply Z.mul_le_mono_nonneg_r; [apply Z.pow_nonneg; lia|].
    apply rne_mono; lia.
  - assert (Hs1 := log2_spec N1 ltac:(lia)). assert (Hs2 := log2_spec N2 ltac:(lia)).
    assert (H01 := Z.log2_nonneg N1).
    set (k1 := lowbits N1) in *. set (k2 := lowbits N2) in *.
    assert (HL2 : Z.log2 N2 = 52 + k2) by (unfold k2, lowbits in *; lia).
    assert (HL1 : Z.log2 N1 ≤ 52 + k1) by (unfold k1, lowbits in *; lia).
    assert (Hp1 := pow2_pos k1 Hk1). assert (Hp2 := pow2_pos k2 ltac:(lia)).
    assert (Hq2 : 2 ^ 52 ≤ N2 / 2 ^ k2).
    { apply Z.div_le_lower_bound; [lia|]. rewrite Z.mul_comm, <- Z.pow_add_r by lia.
      rewrite <- HL2. lia. }
    assert (Hq1 : N1 / 2 ^ k1 < 2 ^ 53).
    { apply Z.div_lt_upper_bound; [lia|]. rewrite <- Z.pow_add_r by lia.
      assert (2 ^ (Z.log2 N1 + 1) ≤ 2 ^ (k1 + 53)) by (apply pow2_le; lia). lia. }
    assert (Hb1 := rne_bounds N1 k1 Hk1). assert (Hb2 := rne_bounds N2 k2 ltac:(lia)).
    assert (Ha : rne N1 k1 * 2 ^ k1 ≤ 2 ^ 53 * 2 ^ k1).
    { apply Z.mul_le_mono_nonneg_r; lia. }
    assert (Hb : 2 ^ 52 * 2 ^ k2 ≤ rne N2 k2 * 2 ^ k2).
    { apply Z.mul_le_mono_nonneg_r; lia. }
    assert (Hc : 2 ^ 53 * 2 ^ k1 ≤ 2 ^ 52 * 2 ^ k2).
    { rewrite <- !Z.pow_add_r by lia. apply pow2_le. lia. }
    lia.
Qed.

(** The [float64] nearest to a number of units. *)
Lemma val_round_units N :
  0 ≤ N →
  nonneg (round_units N) ∧
  val (round_units N) = Z.min (round_int N) (2 ^ 2098).
Proof.
  intros HN. destruct (decide (N = 0)) as [->|Hne].
  { split; [done|]. by vm_compute. }
  unfold round_units.
  destruct (round_int_canon N) as (q & k & Hc & ->); [lia|].
  rewrite of_units_canon by done.
  assert (Hk : 0 ≤ k) by (destruct Hc as (_ & ? & _); done).
  assert (Hq : 0 < q) by (destruct Hc as ((? & _) & _); done).
  destruct (k <=? 2045) eqn:E.
  - apply Z.leb_le in E. split.
    + split; [done|]. apply bounded_canon. rewrite Z2Pos.id by done.
      replace (k - 1074 + 1074) with k by lia. split; [done|lia].
    + cbn [val units]. rewrite Z2Pos.id by done.
      replace (k - 1074 + 1074) with k by lia.
      assert (Hl := canon_lt q k Hc).
      assert (2 ^ (53 + k) ≤ 2 ^ 2098) by (apply pow2_le; lia). lia.
  - apply Z.leb_gt in E. split; [done|]. cbn [val PInf].
    assert (Hg := canon_ge q k Hc ltac:(lia)).
    assert (2 ^ 2098 ≤ 2 ^ (52 + k)) by (apply pow2_le; lia). lia.
Qed.

Lemma round_int_val d : nonneg d → round_int (val d) = val d.
Proof.
  intros Hd. destruct (finite_or d Hd) as [Hf| ->].
  - destruct (nonneg_finite d Hd Hf) as [->|(q & k & Hc & ? & -> & Hu)]; [done|].
    unfold val. rewrite Hu. by apply round_int_rep.
  - cbn [val PInf]. change (2 ^ 2098) with (2 ^ 52 * 2 ^ 2046).
    apply round_int_rep. split; [done|]. split; [done|]. by right.
Qed.

Lemma fadd_finite m1 e1 m2 e2 :
  -1074 ≤ e1 → -1074 ≤ e2 →
  fadd (S754_finite false m1 e1) (S754_finite false m2 e2)
  = round_units (Z.pos m1 * 2 ^ (e1 + 1074) + Z.pos m2 * 2 ^ (e2 + 1074)).
Proof.
  intros H1 H2. unfold fadd, SFadd. cbn [cond_Zopp]. rewrite !shl_align_spec.
  set (ez := Z.min e1 e2).
  assert (Ha : ∀ m e, ez ≤ e →
    Z.pos (if ez <? e then (Z.to_pos (Z.pos m * 2 ^ (e - ez)), ez) else (m, e)).1
    = Z.pos m * 2 ^ (e - ez)).
  { intros m e He. destruct (ez <? e) eqn:E; cbn [fst].
    - assert (Hp := pow2_pos (e - ez) ltac:(lia)). rewrite Z2Pos.id; lia.
    - apply Z.ltb_ge in E. replace (e - ez) with 0 by lia. lia. }
  set (a := (if ez <? e1 then _ else _).1).
  set (b := (if ez <? e2 then _ else _).1).
  change (Z.pos a + Z.pos b) with (Z.pos (a + b)). cbn [binary_normalize].
  rewrite binary_round_units by (unfold ez; lia). f_equal.
  rewrite Pos2Z.inj_add. unfold a, b. rewrite !Ha by (unfold ez; lia).
  rewrite Z.mul_add_distr_r, <- !Z.mul_assoc, <- !Z.pow_add_r by (unfold ez; lia).
  do 2 f_equal; f_equal; lia.
Qed.

(** Addition of values that are not negative, [-0] included on the right:
    the sum of the units, rounded, and [+Inf] from [2^2098] units on. *)
Lemma val_fadd a w :
  nonneg a → nonneg w ∨ w = S754_zero true →
  nonneg (fadd a w) ∧
  val (fadd a w) = Z.min (round_int (val a + val w)) (2 ^ 2098).
Proof.
  intros Ha Hw.
  assert (Hinf : ∀ N, 2 ^ 2098 ≤ N → Z.min (round_int N) (2 ^ 2098) = 2 ^ 2098).
  { intros N HN. assert (Hm := round_int_mono (2 ^ 2098) N ltac:(lia)).
    assert (Hr : round_int (2 ^ 2098) = 2 ^ 2098)
      by exact (round_int_val PInf eq_refl).
    lia. }
  assert (Hfin : ∀ d, nonneg d → Z.min (round_int (val d)) (2 ^ 2098) = val d).
  { intros d Hd. rewrite round_int_val by done. apply val_bounds in Hd. lia. }
  destruct Hw as [Hw| ->].
  - destruct (finite_or a Ha) as [Hfa| ->], (finite_or w Hw) as [Hfw| ->].
    + destruct a as [sa| | |sa ma ea], w as [sw| | |sw mw ew]; try done;
        cbn in Ha, Hw.
      * subst. done.
      * destruct Hw as [-> Hb]. split; [done|]. cbn [fadd SFadd].
        change (val (S754_zero sa)) with 0. rewrite Z.add_0_l.
        by rewrite Hfin.
      * destruct Ha as [-> Hb]. split; [by subst|]. unfold fadd. cbn [SFadd].
        change (val (S754_zero sw)) with 0. rewrite Z.add_0_r.
        by rewrite Hfin.
      * destruct Ha as [-> Hba], Hw as [-> Hbw].
        apply bounded_canon in Hba as [(_ & Hka & _) _].
        apply bounded_canon in Hbw as [(_ & Hkw & _) _].
        rewrite fadd_finite by lia. cbn [val units].
        apply val_round_units. lia.
    + assert (Hb := val_bounds a Ha).
      assert (fadd a PInf = PInf) as -> by by destruct a as [|[]| |[]].
      split; [done|]. cbn [val PInf]. rewrite Hinf; [done|]. fold (val a). lia.
    + assert (Hb := val_bounds w Hw).
      assert (fadd PInf w = PInf) as -> by by destruct w as [|[]| |[]].
      split; [done|]. cbn [val PInf]. rewrite Hinf; [done|]. lia.
    + split; [done|]. cbn [fadd SFadd val PInf]. rewrite Hinf; [done|]. lia.
  - change (val (S754_zero true)) with 0. rewrite Z.add_0_r, Hfin by done.
    assert (fadd a (S754_zero true) = a) as -> by by destruct a as [[]|[]| |[]].
    done.
Qed.

End add_facts.

Section float_facts.
Local Open Scope Z_scope.

Lemma weight_ok_cases w : weight_ok w → nonneg w ∨ w = S754_zero true.
Proof.
  intros [Hle Hv]. destruct w as [[]|[]| |[] m e]; try done; cbn; auto.
Qed.

Lemma fle_zero_cases w :
  fle (Fin 0) w = true →
  match w with S754_nan => False | _ => not_negative w end.
Proof. by destruct w as [[]|[]| |[] m e]. Qed.

Lemma fle_refl d : nonneg d → fle d d = true.
Proof. intros Hd. rewrite fle_val by done. lia. Qed.

Lemma fle_trans a b c :
  nonneg a → nonneg b → nonneg c →
  fle a b = true → fle b c = true → fle a c = true.
Proof. intros Ha Hb Hc. rewrite !fle_val by done. lia. Qed.

Lemma flt_fle a b : nonneg a → nonneg b → flt a b = true → fle a b = true.
Proof. intros Ha Hb. rewrite flt_val, fle_val by done. lia. Qed.

Lemma flt_false_fle a b :
  nonneg a → nonneg b → flt a b = false → fle b a = true.
Proof. intros Ha Hb. rewrite flt_val, fle_val by done. lia. Qed.

Lemma fle_flt_false a b :
  nonneg a → nonneg b → fle b a = true → flt a b = false.
Proof. intros Ha Hb. rewrite flt_val, fle_val by done. lia. Qed.

Lemma flt_fle_trans a b c :
  nonneg a → nonneg b → nonneg c →
  flt a b = true → fle b c = true → flt a c = true.
Proof. intros Ha Hb Hc. rewrite !flt_val, fle_val by done. lia. Qed.

Lemma fle_antisym a b :
  nonneg a → nonneg b → fle a b = true → fle b a = true → a = b.
Proof.
  intros Ha Hb. rewrite !fle_val by done. intros H1 H2.
  apply val_inj; [done|done|lia].
Qed.

Lemma flt_finite a b : nonneg a → nonneg b → flt a b = true → finite a.
Proof.
  intros Ha Hb. rewrite flt_val by done. intros Hlt.
  apply val_finite; [done|]. apply val_bounds in Hb. lia.
Qed.

Lemma fle_finite a b : nonneg a → nonneg b → fle a b = true → finite b → finite a.
Proof.
  intros Ha Hb. rewrite fle_val by done. intros Hle Hf.
  apply val_finite; [done|]. apply (val_finite b Hb) in Hf. lia.
Qed.

Lemma fle_PInf a : nonneg a → fle a PInf = true.
Proof.
  intros Ha. rewrite fle_val by done. apply val_bounds in Ha.
  cbn [val PInf]. lia.
Qed.

Lemma fle_zero d : nonneg d → fle (Fin 0) d = true.
Proof.
  intros Hd. rewrite fle_val by done. apply val_bounds in Hd.
  change (val (Fin 0)) with 0. lia.
Qed.

Lemma flt_nonneg_zero d : nonneg d → flt d (Fin 0) = false.
Proof.
  intros Hd. rewrite flt_val by done. apply val_bounds in Hd.
  change (val (Fin 0)) with 0. lia.
Qed.

(** Rounding is monotone, so adding one weight to two distances keeps
    their order, and adding a weight that is not negative does not
    decrease a distance. *)
Lemma fadd_mono a b w :
  nonneg a → nonneg b → weight_ok w →
  fle a b = true → fle (fadd a w) (fadd b w) = true.
Proof.
  intros Ha Hb Hw%weight_ok_cases.
  destruct (val_fadd a w Ha Hw) as [Hna Hva], (val_fadd b w Hb Hw) as [Hnb Hvb].
  rewrite !fle_val by done. rewrite Hva, Hvb. intros Hle.
  assert (H0a := val_bounds a Ha).
  assert (H0w : 0 ≤ val w).
  { destruct Hw as [Hw| ->]; [apply val_bounds in Hw; lia|done]. }
  assert (Hm := round_int_mono (val a + val w) (val b + val w) ltac:(lia)).
  lia.
Qed.

Lemma fadd_nonneg a w :
  nonneg a → weight_ok w →
  nonneg (fadd a w) ∧ fle a (fadd a w) = true.
Proof.
  intros Ha Hw%weight_ok_cases.
  destruct (val_fadd a w Ha Hw) as [Hna Hva]. split; [done|].
  rewrite fle_val by done. rewrite Hva.
  assert (H0a := val_bounds a Ha).
  assert (H0w : 0 ≤ val w).
  { destruct Hw as [Hw| ->]; [apply val_bounds in Hw; lia|done]. }
  assert (Hm := round_int_mono (val a) (val a + val w) ltac:(lia)).
  rewrite round_int_val in Hm by done. lia.
Qed.

(** Adding to [+Inf] never yields something smaller than anything. *)
Lemma flt_fadd_PInf w d : flt (fadd PInf w) d = false.
Proof. by destruct w as [|[]| |], d as [|[]| |]. Qed.

(** Nothing below zero comes out of adding a weight [0 <= w] to a
    distance that is not below zero. *)
Lemma fadd_not_negative a w :
  not_negative a → fle (Fin 0) w = true → not_negative (fadd a w).
Proof.
  intros Ha Hw%fle_zero_cases.
  destruct a as [sa|sa| |sa ma ea], w as [sw|sw| |sw mw ew]; try done;
    cbn in Ha, Hw; subst; try done.
  - by destruct sa, sw.
  - unfold fadd, SFadd. cbn [cond_Zopp].
    set (a := (shl_align ma ea _).1). set (b := (shl_align mw ew _).1).
    change (Z.pos a + Z.pos b) with (Z.pos (a + b)).
    clearbody a b. cbn [binary_normalize]. unfold binary_round.
    destruct (shl_align (a + b) _ _) as [mz ez]. rewrite binary_round_aux_spec.
    cbv zeta.
    match goal with |- not_negative (match ?x with _ => _ end) => destruct x end;
      [done| |done].
    match goal with |- not_negative (if ?x then _ else _) => by destruct x end.
Qed.

Lemma flt_not_negative_zero d : not_negative d → flt d (Fin 0) = false.
Proof. by destruct d as [|[]| |[]]. Qed.

Lemma nonneg_not_negative d : nonneg d → not_negative d.
Proof. destruct d; cbn; tauto. Qed.

(** Integers up to [2^53] are [float64] values, and their sums are exact
    as long as they stay in that range. *)
Lemma round_int_small n :
  0 ≤ n ≤ 2 ^ 53 → round_int (n * 2 ^ 1074) = n * 2 ^ 1074.
Proof.
  intros Hn. destruct (decide (n = 0)) as [->|Hne]; [done|].
  destruct (decide (n = 2 ^ 53)) as [->|Hlt].
  { rewrite <- Z.pow_add_r by lia. change (2 ^ (53 + 1074)) with (2 ^ 52 * 2 ^ 1075).
    apply round_int_rep. split; [done|]. split; [done|]. by right. }
  assert (Hs := log2_spec n ltac:(lia)). assert (H0 := Z.log2_nonneg n).
  assert (Hl : Z.log2 n < 53) by (apply Z.log2_lt_pow2; lia).
  set (l := Z.log2 n) in *.
  assert (Hp := pow2_pos (52 - l) ltac:(lia)).
  assert (HN : n * 2 ^ 1074 = n * 2 ^ (52 - l) * 2 ^ (1022 + l)).
  { rewrite <- Z.mul_assoc, <- Z.pow_add_r by lia. do 2 f_equal. lia. }
  rewrite HN. apply round_int_rep. split; [|split; [lia|right]].
  - split; [lia|]. replace 53 with (l + 1 + (52 - l)) by lia.
    rewrite Z.pow_add_r by lia. apply Z.mul_lt_mono_pos_r; lia.
  - replace 52 with (l + (52 - l)) at 1 by lia.
    rewrite Z.pow_add_r by lia. apply Z.mul_le_mono_nonneg_r; lia.
Qed.

Lemma val_Fin n :
  0 ≤ n ≤ 2 ^ 53 → nonneg (Fin n) ∧ val (Fin n) = n * 2 ^ 1074.
Proof.
  intros Hn. destruct n as [|p|p]; [done| |lia].
  unfold Fin. cbn [binary_normalize].
  rewrite binary_round_units by lia. change (0 + 1074) with 1074.
  destruct (val_round_units (Z.pos p * 2 ^ 1074)) as [Hnn Hv]; [lia|].
  split; [done|]. rewrite Hv, round_int_small by done.
  assert (Z.pos p * 2 ^ 1074 ≤ 2 ^ 53 * 2 ^ 1074)
    by (apply Z.mul_le_mono_nonneg_r; lia).
  assert (2 ^ 53 * 2 ^ 1074 < 2 ^ 2098) by done. lia.
Qed.

Lemma Fin_add a b :
  0 ≤ a → 0 ≤ b → a + b ≤ 2 ^ 53 →
  fadd (Fin a) (Fin b) = Fin (a + b).
Proof.
  intros Ha Hb Hab.
  destruct (val_Fin a) as [Hna Hva]; [lia|].
  destruct (val_Fin b) as [Hnb Hvb]; [lia|].
  destruct (val_Fin (a + b)) as [Hnc Hvc]; [lia|].
  destruct (val_fadd (Fin a) (Fin b) Hna (or_introl Hnb)) as [Hn Hv].
  apply val_inj; [done|done|]. rewrite Hv, Hva, Hvb, Hvc.
  rewrite <- Z.mul_add_distr_r, round_int_small by lia.
  apply val_bounds in Hnc. lia.
Qed.

Lemma Fin_lt a b :
  0 ≤ a ≤ 2 ^ 53 → 0 ≤ b ≤ 2 ^ 53 → flt (Fin a) (Fin b) = (a <? b).
Proof.
  intros Ha Hb.
  destruct (val_Fin a Ha) as [Hna Hva], (val_Fin b Hb) as [Hnb Hvb].
  rewrite flt_val, Hva, Hvb by done.
  assert (0 < 2 ^ 1074) by done.
  destruct (Z.ltb_spec a b), (Z.ltb_spec (a * 2 ^ 1074) (b * 2 ^ 1074)); nia.
Qed.

Lemma Fin_le a b :
  0 ≤ a ≤ 2 ^ 53 → 0 ≤ b ≤ 2 ^ 53 → fle (Fin a) (Fin b) = (a <=? b).
Proof.
  intros Ha Hb.
  destruct (val_Fin a Ha) as [Hna Hva], (val_Fin b Hb) as [Hnb Hvb].
  rewrite fle_val, Hva, Hvb by done.
  assert (0 < 2 ^ 1074) by done.
  destruct (Z.leb_spec a b), (Z.leb_spec (a * 2 ^ 1074) (b * 2 ^ 1074)); nia.
Qed.

Lemma weight_ok_Fin n : 0 ≤ n ≤ 2 ^ 53 → weight_ok (Fin n).
Proof.
  intros Hn. destruct (val_Fin n Hn) as [Hnn _]. split.
  - by apply fle_zero.
  - by destruct (Fin n) as [| | |[]]; cbn in *; try tauto.
Qed.

(** Hop counts are exact up to [2^53], and never decrease with the
    number of hops. *)
Lemma level_Fin n : Z.of_nat n ≤ 2 ^ 53 → PathFinder.level n = Fin (Z.of_nat n).
Proof.
  induction n as [|n IH]; [done|]. intros Hn. cbn [PathFinder.level].
  rewrite IH by lia. rewrite Fin_add by lia. f_equal. lia.
Qed.

Lemma level_nonneg n : nonneg (PathFinder.level n).
Proof.
  induction n as [|n IH]; [done|]. cbn [PathFinder.level].
  apply fadd_nonneg; [done|]. apply weight_ok_Fin. lia.
Qed.

Lemma level_mono n m : (n ≤ m)%nat → fle (PathFinder.level n) (PathFinder.level m) = true.
Proof.
  induction 1 as [|m Hle IH]; [apply fle_refl, level_nonneg|].
  eapply fle_trans; [apply level_nonneg|apply level_nonneg| |exact IH|].
  - apply level_nonneg.
  - cbn [PathFinder.level]. apply fadd_nonneg; [apply level_nonneg|].
    apply weight_ok_Fin. lia.
Qed.

Lemma level_bound n : val (PathFinder.level n) ≤ 2 ^ 53 * 2 ^ 1074.
Proof.
  induction n as [|n IH]; [done|]. cbn [PathFinder.level].
  destruct (val_fadd (PathFinder.level n) (Fin 1) (level_nonneg n))
    as [_ ->]; [left; by apply val_Fin|].
  assert (H0 := val_bounds _ (level_nonneg n)).
  assert (Hm := round_int_mono (val (PathFinder.level n) + val (Fin 1))
                  (2 ^ 53 * 2 ^ 1074 + val (Fin 1))).
  assert (H1 : 0 ≤ val (Fin 1)) by done.
  assert (Hr : round_int (2 ^ 53 * 2 ^ 1074 + val (Fin 1)) = 2 ^ 53 * 2 ^ 1074)
    by by vm_compute.
  lia.
Qed.

Lemma level_finite n : finite (PathFinder.level n).
Proof.
  apply val_finite; [apply level_nonneg|].
  assert (Hb := level_bound n).
  assert (2 ^ 53 * 2 ^ 1074 < 2 ^ 2098) by done. lia.
Qed.

Lemma level_le_inv n m :
  Z.of_nat n ≤ 2 ^ 53 → Z.of_nat m ≤ 2 ^ 53 →
  fle (PathFinder.level n) (PathFinder.level m) = true → (n ≤ m)%nat.
Proof.
  intros Hn Hm. rewrite !level_Fin, Fin_le by lia. lia.
Qed.

End float_facts.


(** ** Iteration order *)

Section range_facts.
Context `{Countable K} `{!MapRange K}.

Lemma elem_of_range {V} (site : option K) (m : gmap K V) k x :
  (k, x) ∈ range site m ↔ m !! k = Some x.
Proof. rewrite range_perm. apply elem_of_map_to_list. Qed.

Lemma elem_of_range_fst {V} (site : option K) (m : gmap K V) k :
  k ∈ (range site m).*1 ↔ is_Some (m !! k).
Proof.
  rewrite list_elem_of_fmap. split.
  - intros [[k' x] [-> Hin]]. apply elem_of_range in Hin. by exists x.
  - intros [x Hx]. exists (k, x). split; [done|]. by apply elem_of_range.
Qed.

Lemma NoDup_range_fst {V} (site : option K) (m : gmap K V) :
  NoDup (range site m).*1.
Proof. rewrite range_perm. apply NoDup_fst_map_to_list. Qed.

Lemma NoDup_range {V} (site : option K) (m : gmap K V) :
  NoDup (range site m).
Proof. rewrite range_perm. apply NoDup_map_to_list. Qed.

Lemma length_range {V} (site : option K) (m : gmap K V) :
  length (range site m) = size m.
Proof. rewrite range_perm. apply length_map_to_list. Qed.

Lemma range_empty {V} (site : option K) : range site (∅ : gmap K V) = [].
Proof.
  apply Permutation_nil_r. rewrite range_perm. by rewrite map_to_list_empty.
Qed.

End range_facts.

(** ** The adjacency store *)

Section store_facts.
Context `{Countable K} `{!MapRange K}.
Import Graph.
Implicit Types (g : graphData K) (n u v : K) (w : float64).

Lemma entry_adjacency g u v : adjacency g u !! v = entry g u v.
Proof. unfold adjacency, entry. by destruct (g !! u). Qed.

Lemma HasNode_true g u : HasNode g u = true ↔ is_Some (g !! u).
Proof. unfold HasNode. by rewrite bool_decide_eq_true. Qed.

Lemma HasEdge_true g u v : HasEdge g u v = true ↔ is_Some (entry g u v).
Proof.
  unfold HasEdge, entry. destruct (g !! u) as [a|]; simpl.
  - by rewrite bool_decide_eq_true.
  - split; [done | by intros [? ?]].
Qed.

Lemma HasEdge_entry g u v : HasEdge g u v = bool_decide (is_Some (entry g u v)).
Proof.
  apply eq_true_iff_eq. rewrite HasEdge_true. by rewrite bool_decide_eq_true.
Qed.

Lemma elem_of_Nodes g n : n ∈ Nodes g ↔ is_Some (g !! n).
Proof. apply elem_of_range_fst. Qed.

Lemma NoDup_Nodes g : NoDup (Nodes g).
Proof. apply NoDup_range_fst. Qed.

Lemma elem_of_Successors g n v : v ∈ Successors g n ↔ is_Some (entry g n v).
Proof. unfold Successors. by rewrite elem_of_range_fst, entry_adjacency. Qed.

Lemma NoDup_Successors g n : NoDup (Successors g n).
Proof. apply NoDup_range_fst. Qed.

Lemma length_Successors g n : length (Successors g n) = size (adjacency g n).
Proof. unfold Successors. by rewrite length_fmap, length_range. Qed.

(** One pass of the inner loop of [Predecessors] appends [node] at most
    once, because the keys of a map are pairwise distinct. *)
Lemma scan_neighbours (l : list K) (node n : K) :
  NoDup l →
  (neigh ← l; if decide (neigh = n) then [node] else [])
  = if decide (n ∈ l) then [node] else [].
Proof.
  induction 1 as [|x l Hx Hl IH]; [done|].
  rewrite bind_cons, IH. destruct (decide (x = n)) as [->|Hne].
  - rewrite (decide_True (P := n ∈ n :: l)) by apply list_elem_of_here.
    by rewrite decide_False.
  - destruct (decide (n ∈ l)) as [Hin|Hin].
    + rewrite decide_True; [done | by apply list_elem_of_further].
    + rewrite decide_False; [done|].
      rewrite elem_of_cons. intros [?|?]; [by subst | done].
Qed.

Lemma bind_filter (P : K → Prop) `{!∀ x, Decision (P x)} (l : list K) :
  (x ← l; if decide (P x) then [x] else []) = filter P l.
Proof.
  induction l as [|x l IH]; [done|]. rewrite bind_cons, IH.
  rewrite filter_cons. by destruct (decide (P x)).
Qed.

Lemma Predecessors_filter g n :
  Predecessors g n = filter (λ node, is_Some (entry g node n)) (Nodes g).
Proof.
  unfold Predecessors. rewrite <- bind_filter.
  apply list_bind_ext; [|done]. intros node.
  rewrite scan_neighbours by apply NoDup_range_fst.
  destruct (decide (n ∈ _)) as [Hin|Hin];
    rewrite elem_of_range_fst, entry_adjacency in Hin.
  - by rewrite decide_True.
  - by rewrite decide_False.
Qed.

Lemma entry_is_node g u v : is_Some (entry g u v) → is_Some (g !! u).
Proof. unfold entry. destruct (g !! u); [by eexists | by intros [? ?]]. Qed.

Lemma elem_of_Predecessors g n u :
  u ∈ Predecessors g n ↔ is_Some (entry g u n).
Proof.
  rewrite Predecessors_filter, list_elem_of_filter, elem_of_Nodes.
  split; [tauto|]. intros Hu. split; [done|]. by eapply entry_is_node.
Qed.

Lemma NoDup_Predecessors g n : NoDup (Predecessors g n).
Proof. rewrite Predecessors_filter. apply NoDup_filter, NoDup_Nodes. Qed.

End store_facts.

(** ** Mutators *)

Section mutator_facts.
Context `{Countable K} `{!MapRange K}.
Import Graph.
Implicit Types (g : graphData K) (n u v a b k : K) (w : float64).

Lemma ensure_node g n :
  (if g !! n is Some _ then g else AddNode g n) = AddNode g n.
Proof. unfold AddNode. by destruct (g !! n). Qed.

Lemma AddNode_is_node g n k :
  is_Some (AddNode g n !! k) ↔ k = n ∨ is_Some (g !! k).
Proof.
  unfold AddNode. destruct (g !! n) as [x|] eqn:Hn.
  - split; [tauto|]. intros [->|?]; [by exists x | done].
  - rewrite lookup_insert. case_decide; subst.
    + split; [tauto | by eexists].
    + split; [tauto|]. intros [?|?]; [congruence | done].
Qed.

Lemma AddNode_entry g n a b : entry (AddNode g n) a b = entry g a b.
Proof.
  unfold AddNode, entry. destruct (g !! n) as [x|] eqn:Hn; [done|].
  rewrite lookup_insert. case_decide; subst; [|done].
  rewrite Hn. simpl. apply lookup_empty.
Qed.

Lemma insert_adjacency_is_node g u (x : gmap K float64) k :
  is_Some (<[u := x]> g !! k) ↔ k = u ∨ is_Some (g !! k).
Proof.
  rewrite lookup_insert. case_decide; subst.
  - split; [tauto | by eexists].
  - split; [tauto|]. intros [?|?]; [congruence | done].
Qed.

(** [g.Adjacencies[u][v] = w] *)
Lemma assign_entry g u v w a b :
  entry (<[u := <[v := w]> (adjacency g u)]> g) a b
  = if decide (a = u ∧ b = v) then Some w else entry g a b.
Proof.
  unfold entry at 1. rewrite lookup_insert.
  destruct (decide (u = a)) as [->|Hne]; simpl.
  - rewrite lookup_insert. destruct (decide (v = b)) as [->|Hne].
    + by rewrite decide_True.
    + rewrite decide_False by intuition congruence. apply entry_adjacency.
  - by rewrite decide_False by intuition congruence.
Qed.

(** [delete(g.Adjacencies[u], v)] *)
Lemma delete_entry g u v a b :
  entry (alter (delete v) u g) a b
  = if decide (a = u ∧ b = v) then None else entry g a b.
Proof.
  unfold entry. rewrite lookup_alter.
  destruct (decide (u = a)) as [->|Hne].
  - destruct (g !! a) as [x|]; simpl.
    + rewrite lookup_delete. destruct (decide (v = b)) as [->|Hne].
      * by rewrite decide_True.
      * by rewrite decide_False by intuition congruence.
    + by case_decide.
  - by rewrite decide_False by intuition congruence.
Qed.

Lemma delete_is_node g u v k :
  is_Some (alter (delete v) u g !! k) ↔ is_Some (g !! k).
Proof.
  rewrite lookup_alter. case_decide; subst; [|done].
  by rewrite fmap_is_Some.
Qed.

Lemma RemoveNode_lookup g n k :
  RemoveNode g n !! k = if decide (k = n) then None else delete n <$> g !! k.
Proof.
  unfold RemoveNode. rewrite lookup_delete.
  destruct (decide (n = k)) as [->|Hne].
  - by rewrite decide_True.
  - rewrite decide_False by done. by rewrite lookup_fmap.
Qed.

Lemma RemoveNode_entry g n a b :
  entry (RemoveNode g n) a b
  = if decide (a = n ∨ b = n) then None else entry g a b.
Proof.
  unfold entry. rewrite RemoveNode_lookup.
  destruct (decide (a = n)) as [->|Ha].
  - by rewrite decide_True by tauto.
  - destruct (g !! a) as [x|]; simpl.
    + rewrite lookup_delete. destruct (decide (n = b)) as [->|Hb].
      * by rewrite decide_True by tauto.
      * by rewrite decide_False by intuition congruence.
    + by case_decide.
Qed.

Lemma RemoveNode_is_node g n k :
  is_Some (RemoveNode g n !! k) ↔ k ≠ n ∧ is_Some (g !! k).
Proof.
  rewrite RemoveNode_lookup. case_decide; subst.
  - split; [by intros [? ?] | tauto].
  - rewrite fmap_is_Some. tauto.
Qed.

Lemma DirectedAddEdge_entry g u v w a b :
  entry (DirectedGraph.AddEdge g u v w) a b
  = if decide (a = u ∧ b = v) then Some w else entry g a b.
Proof.
  unfold DirectedGraph.AddEdge. rewrite !ensure_node, assign_entry.
  by rewrite !AddNode_entry.
Qed.

Lemma DirectedAddEdge_is_node g u v w k :
  is_Some (DirectedGraph.AddEdge g u v w !! k)
  ↔ k = u ∨ k = v ∨ is_Some (g !! k).
Proof.
  unfold DirectedGraph.AddEdge.
  rewrite !ensure_node, insert_adjacency_is_node, !AddNode_is_node. tauto.
Qed.

Lemma UndirectedAddEdge_entry g u v w a b :
  entry (UndirectedGraph.AddEdge g u v w) a b
  = if decide ((a = u ∧ b = v) ∨ (a = v ∧ b = u)) then Some w
    else entry g a b.
Proof.
  unfold UndirectedGraph.AddEdge. rewrite !ensure_node, !assign_entry.
  rewrite !AddNode_entry.
  destruct (decide (a = v ∧ b = u)) as [?|?].
  - by rewrite decide_True by tauto.
  - destruct (decide (a = u ∧ b = v)) as [?|?].
    + by rewrite decide_True by tauto.
    + by rewrite decide_False by tauto.
Qed.

Lemma UndirectedAddEdge_is_node g u v w k :
  is_Some (UndirectedGraph.AddEdge g u v w !! k)
  ↔ k = u ∨ k = v ∨ is_Some (g !! k).
Proof.
  unfold UndirectedGraph.AddEdge.
  rewrite !ensure_node, !insert_adjacency_is_node, !AddNode_is_node. tauto.
Qed.

Lemma UndirectedRemoveEdge_entry g u v a b :
  entry (UndirectedGraph.RemoveEdge g u v) a b
  = if decide ((a = u ∧ b = v) ∨ (a = v ∧ b = u)) then None
    else entry g a b.
Proof.
  unfold UndirectedGraph.RemoveEdge. rewrite !delete_entry.
  destruct (decide (a = v ∧ b = u)) as [?|?].
  - by rewrite decide_True by tauto.
  - destruct (decide (a = u ∧ b = v)) as [?|?].
    + by rewrite decide_True by tauto.
    + by rewrite decide_False by tauto.
Qed.

End mutator_facts.

(** ** The representation invariant is kept by every mutator *)

Section closed_facts.
Context `{Countable K} `{!MapRange K}.
Import Graph.
Implicit Types (g : graphData K) (n u v a b k : K) (w : float64).

Lemma closed_empty : closed (∅ : graphData K).
Proof. intros u v [x Hx]. unfold entry in Hx. by rewrite lookup_empty in Hx. Qed.

Lemma closed_AddNode g n : closed g → closed (AddNode g n).
Proof.
  intros Hg u v. rewrite AddNode_entry, AddNode_is_node. intros Huv.
  right. by eapply Hg.
Qed.

Lemma closed_AddNodesFrom g ns : closed g → closed (AddNodesFrom g ns).
Proof.
  unfold AddNodesFrom. revert g.
  induction ns as [|n ns IH]; intros g Hg; [done|].
  simpl. by apply IH, closed_AddNode.
Qed.

Lemma closed_RemoveNode g n : closed g → closed (RemoveNode g n).
Proof.
  intros Hg u v. rewrite RemoveNode_entry, RemoveNode_is_node.
  case_decide as Hd; [by intros [? ?]|]. intros Huv. split.
  - intros ->. apply Hd. by right.
  - by eapply Hg.
Qed.

Lemma closed_RemoveNodesFrom g ns : closed g → closed (RemoveNodesFrom g ns).
Proof.
  unfold RemoveNodesFrom. revert g.
  induction ns as [|n ns IH]; intros g Hg; [done|].
  simpl. by apply IH, closed_RemoveNode.
Qed.

Lemma closed_delete g u v : closed g → closed (alter (delete v) u g).
Proof.
  intros Hg a b. rewrite delete_entry, delete_is_node.
  case_decide; [by intros [? ?]|]. apply Hg.
Qed.

Lemma closed_DirectedAddEdge g u v w :
  closed g → closed (DirectedGraph.AddEdge g u v w).
Proof.
  intros Hg a b. rewrite DirectedAddEdge_entry, DirectedAddEdge_is_node.
  case_decide as Hd; [destruct Hd as [-> ->]; tauto|].
  intros Hab. right; right. by eapply Hg.
Qed.

Lemma closed_DirectedAddEdgesFrom g es :
  closed g → closed (DirectedGraph.AddEdgesFrom g es).
Proof.
  unfold DirectedGraph.AddEdgesFrom. revert g.
  induction es as [|e es IH]; intros g Hg; [done|].
  simpl. by apply IH, closed_DirectedAddEdge.
Qed.

Lemma closed_DirectedRemoveEdgesFrom g es :
  closed g → closed (DirectedGraph.RemoveEdgesFrom g es).
Proof.
  unfold DirectedGraph.RemoveEdgesFrom. revert g.
  induction es as [|e es IH]; intros g Hg; [done|].
  simpl. by apply IH, closed_delete.
Qed.

Lemma closed_UndirectedAddEdge g u v w :
  closed g → closed (UndirectedGraph.AddEdge g u v w).
Proof.
  intros Hg a b. rewrite UndirectedAddEdge_entry, UndirectedAddEdge_is_node.
  case_decide as Hd; [destruct Hd as [[-> ->]|[-> ->]]; tauto|].
  intros Hab. right; right. by eapply Hg.
Qed.

Lemma closed_UndirectedRemoveEdge g u v :
  closed g → closed (UndirectedGraph.RemoveEdge g u v).
Proof. intros Hg. by apply closed_delete, closed_delete. Qed.

Lemma closed_apply g op : closed g → closed (UndirectedGraph.apply g op).
Proof.
  intros Hg. destruct op; simpl.
  - by apply closed_AddNode.
  - by apply closed_AddNodesFrom.
  - by apply closed_UndirectedAddEdge.
  - unfold UndirectedGraph.AddEdgesFrom. revert g Hg.
    induction es as [|e es IH]; intros g Hg; [done|].
    simpl. by apply IH, closed_UndirectedAddEdge.
  - by apply closed_RemoveNode.
  - by apply closed_RemoveNodesFrom.
  - by apply closed_UndirectedRemoveEdge.
  - unfold UndirectedGraph.RemoveEdgesFrom. revert g Hg.
    induction es as [|e es IH]; intros g Hg; [done|].
    simpl. by apply IH, closed_delete, closed_delete.
  - apply closed_empty.
Qed.

Lemma closed_run g ops : closed g → closed (UndirectedGraph.run g ops).
Proof.
  unfold UndirectedGraph.run. revert g.
  induction ops as [|op ops IH]; intros g Hg; [done|].
  simpl. by apply IH, closed_apply.
Qed.

End closed_facts.

(** ** Symmetry of undirected graphs *)

Section symmetry.
Context `{Countable K} `{!MapRange K}.
Import Graph UndirectedGraph.
Implicit Types (g : graphData K) (n u v a b k : K) (w : float64).

Lemma symmetric_empty : symmetric (∅ : graphData K).
Proof. intros u v. unfold entry. by rewrite !lookup_empty. Qed.

Lemma symmetric_AddNode g n : symmetric g → symmetric (Graph.AddNode g n).
Proof. intros Hg u v. by rewrite !AddNode_entry. Qed.

Lemma symmetric_RemoveNode g n : symmetric g → symmetric (Graph.RemoveNode g n).
Proof.
  intros Hg u v. rewrite !RemoveNode_entry, (Hg u v).
  apply decide_ext. tauto.
Qed.

Lemma symmetric_AddEdge g u v w : symmetric g → symmetric (AddEdge g u v w).
Proof.
  intros Hg a b. rewrite !UndirectedAddEdge_entry, (Hg a b).
  apply decide_ext. tauto.
Qed.

Lemma symmetric_RemoveEdge g u v : symmetric g → symmetric (RemoveEdge g u v).
Proof.
  intros Hg a b. rewrite !UndirectedRemoveEdge_entry, (Hg a b).
  apply decide_ext. tauto.
Qed.

Lemma symmetric_fold {A} (f : graphData K → A → graphData K) (l : list A) g :
  (∀ g x, symmetric g → symmetric (f g x)) →
  symmetric g → symmetric (foldl f g l).
Proof.
  intros Hf. revert g. induction l as [|x l IH]; intros g Hg; [done|].
  simpl. by apply IH, Hf.
Qed.

Lemma symmetric_apply g op : symmetric g → symmetric (apply g op).
Proof.
  intros Hg. destruct op; simpl.
  - by apply symmetric_AddNode.
  - apply symmetric_fold; [apply symmetric_AddNode | done].
  - by apply symmetric_AddEdge.
  - apply symmetric_fold; [|done]. intros. by apply symmetric_AddEdge.
  - by apply symmetric_RemoveNode.
  - apply symmetric_fold; [apply symmetric_RemoveNode | done].
  - by apply symmetric_RemoveEdge.
  - apply symmetric_fold; [|done]. intros g' e Hg'.
    by apply (symmetric_RemoveEdge g' (edge_u e) (edge_v e)).
  - apply symmetric_empty.
Qed.

Lemma symmetric_run g ops : symmetric g → symmetric (run g ops).
Proof. apply symmetric_fold. apply symmetric_apply. Qed.

(** C3.  Starting from a new undirected graph, after any sequence of
    [AddNode], [AddEdge], [RemoveNode], [RemoveEdge] (their batch forms and
    [Clear] included), [HasEdge u v] and [HasEdge v u] agree for all nodes
    [u] and [v], and the two stored weights are the same. *)
Theorem undirected_symmetry (ops : list operation) (u v : K) :
  let g := run NewUndirectedGraph ops in
  HasEdge g u v = HasEdge g v u ∧ entry g u v = entry g v u.
Proof.
  intros g.
  assert (Hsym : symmetric g) by apply symmetric_run, symmetric_empty.
  split; [|apply Hsym]. by rewrite !HasEdge_entry, (Hsym u v).
Qed.

End symmetry.

(** ** Queries: predecessors, neighbours, degrees *)

Section query_facts.
Context `{Countable K} `{!MapRange K}.
Import Graph.
Implicit Types (g : graphData K) (n u v a b k : K) (w : float64).

(** What [Predecessors] of graph/graph.go produces: every node that holds
    an adjacency entry pointing to [n], once, and nothing else. *)
Lemma Predecessors_exact g n :
  NoDup (Predecessors g n) ∧
  ∀ u, u ∈ Predecessors g n ↔ is_Some (entry g u n).
Proof. split; [apply NoDup_Predecessors | apply elem_of_Predecessors]. Qed.

(** What [Predecessors] of graph.go yields: the node [n] itself, once for
    every node that holds an adjacency entry pointing to [n]. *)
Lemma IterGraph_Predecessors_yield g n :
  IterGraph.Predecessors g n = (λ _, n) <$> Predecessors g n.
Proof.
  unfold IterGraph.Predecessors, Predecessors, Nodes.
  induction ((range None g).*1) as [|node l IH]; [done|].
  rewrite !bind_cons, fmap_app, IH. f_equal.
  induction ((range (Some node) (adjacency g node)).*1) as [|x l' IH']; [done|].
  rewrite !bind_cons, fmap_app, IH'. f_equal.
  by destruct (decide (x = n)) as [->|?].
Qed.

Lemma singleton_list (l : list K) a :
  NoDup l → (∀ x, x ∈ l ↔ x = a) → l = [a].
Proof.
  intros Hl Ha. destruct l as [|x l].
  - exfalso. eapply not_elem_of_nil, Ha. reflexivity.
  - assert (x = a) as -> by (apply Ha; left).
    destruct l as [|y l]; [done|].
    assert (y = a) as -> by (apply Ha; right; left).
    apply NoDup_cons in Hl as [Hni _]. exfalso. apply Hni. left.
Qed.

Lemma count_once (l : list K) v :
  NoDup l → v ∈ l → length (filter (λ x, x = v) l) = 1.
Proof.
  intros Hl Hv.
  rewrite (singleton_list (filter (λ x, x = v) l) v); [done| |].
  - by apply NoDup_filter.
  - intros x. rewrite list_elem_of_filter. split; [tauto|].
    intros ->. done.
Qed.

Lemma no_successors g u : length (Successors g u) = 0 → ∀ v, entry g u v = None.
Proof.
  intros Hl v. apply nil_length_inv in Hl.
  apply eq_None_not_Some. rewrite <- elem_of_Successors, Hl.
  apply not_elem_of_nil.
Qed.

Lemma no_predecessors g u : length (Predecessors g u) = 0 → ∀ v, entry g v u = None.
Proof.
  intros Hl v. apply nil_length_inv in Hl.
  apply eq_None_not_Some. rewrite <- elem_of_Predecessors, Hl.
  apply not_elem_of_nil.
Qed.

Lemma isolated_entries g u :
  Degree g u = 0 → (∀ v, entry g u v = None) ∧ (∀ v, entry g v u = None).
Proof.
  unfold Degree, InDegree, OutDegree. intros Hd. split.
  - apply no_successors. lia.
  - apply no_predecessors. lia.
Qed.

(** A list without repetition that gains the member [a], if it was not
    one already, grows by one. *)
Lemma length_add_member (l l' : list K) a (present : bool) :
  NoDup l → NoDup l' → (∀ x, x ∈ l' ↔ x = a ∨ x ∈ l) →
  (a ∈ l ↔ present = true) →
  length l' = length l + (if present then 0 else 1).
Proof.
  intros Hl Hl' Hm Ha. destruct present.
  - rewrite Nat.add_0_r. apply Permutation_length, NoDup_Permutation; [done|done|].
    intros x. rewrite Hm. split; [|by right].
    intros [->|?]; [by apply Ha|done].
  - rewrite Nat.add_1_r. change (S (length l)) with (length (a :: l)).
    apply Permutation_length, NoDup_Permutation; [done| |].
    + constructor; [|done]. by intros Hin%Ha.
    + intros x. by rewrite Hm, elem_of_cons.
Qed.

(** C6, for any node.  [AddEdge(u, u, w)] on a directed graph adds one to
    the in-degree and one to the out-degree of [u], so two to
    [Degree(u) = InDegree(u) + OutDegree(u)], unless the loop was there
    already; on an undirected graph it leaves exactly one adjacency entry
    of [u] for the loop and adds one to [Degree(u)], unless the loop was
    there already.  So on a node that has no other edge [Degree(u)] is 2
    on the directed graph and 1 on the undirected one, with the loop the
    only adjacency entry of [u]. *)
Theorem self_loop_degree g u w :
  (let d := DirectedGraph.AddEdge g u u w in
   let k := if HasEdge g u u then 0 else 1 in
   InDegree d u = InDegree g u + k ∧ OutDegree d u = OutDegree g u + k ∧
   Degree d u = InDegree d u + OutDegree d u ∧
   ((∀ v, v ≠ u → entry g u v = None ∧ entry g v u = None) →
    InDegree d u = 1 ∧ OutDegree d u = 1 ∧ Degree d u = 2)) ∧
  (let d := UndirectedGraph.AddEdge g u u w in
   let k := if HasEdge g u u then 0 else 1 in
   entry d u u = Some w ∧
   length (filter (λ x, x = u) (Successors d u)) = 1 ∧
   UndirectedGraph.Degree d u = UndirectedGraph.Degree g u + k ∧
   ((∀ v, v ≠ u → entry g u v = None) →
    adjacency d u = {[u := w]} ∧ size (adjacency d u) = 1 ∧
    UndirectedGraph.Degree d u = 1)).
Proof.
  assert (Hloop_s : u ∈ Successors g u ↔ HasEdge g u u = true).
  { by rewrite elem_of_Successors, HasEdge_true. }
  assert (Hloop_p : u ∈ Predecessors g u ↔ HasEdge g u u = true).
  { by rewrite elem_of_Predecessors, HasEdge_true. }
  split.
  - intros d k.
    assert (Hs : ∀ x, x ∈ Successors d u ↔ x = u ∨ x ∈ Successors g u).
    { intros x. rewrite !elem_of_Successors. unfold d.
      rewrite DirectedAddEdge_entry. case_decide as Hd.
      - split; [tauto | by eexists].
      - split; [tauto|]. intros [->|?]; tauto. }
    assert (Hp : ∀ x, x ∈ Predecessors d u ↔ x = u ∨ x ∈ Predecessors g u).
    { intros x. rewrite !elem_of_Predecessors. unfold d.
      rewrite DirectedAddEdge_entry. case_decide as Hd.
      - split; [tauto | by eexists].
      - split; [tauto|]. intros [->|?]; tauto. }
    split_and!.
    + apply (length_add_member (Predecessors g u) (Predecessors d u) u);
        auto using NoDup_Predecessors.
    + apply (length_add_member (Successors g u) (Successors d u) u);
        auto using NoDup_Successors.
    + done.
    + intros Hother.
      assert (Hs1 : Successors d u = [u]).
      { apply singleton_list; [apply NoDup_Successors|]. intros x.
        rewrite Hs, elem_of_Successors. split; [|by left].
        intros [->|[y Hy]]; [done|]. destruct (decide (x = u)) as [->|Hne]; [done|].
        destruct (Hother x Hne) as [Hn _]. congruence. }
      assert (Hp1 : Predecessors d u = [u]).
      { apply singleton_list; [apply NoDup_Predecessors|]. intros x.
        rewrite Hp, elem_of_Predecessors. split; [|by left].
        intros [->|[y Hy]]; [done|]. destruct (decide (x = u)) as [->|Hne]; [done|].
        destruct (Hother x Hne) as [_ Hn]. congruence. }
      unfold Degree, InDegree, OutDegree. by rewrite Hs1, Hp1.
  - intros d k.
    assert (He : ∀ x, entry d u x = if decide (x = u) then Some w else entry g u x).
    { intros x. unfold d. rewrite UndirectedAddEdge_entry.
      repeat case_decide; try done; tauto. }
    assert (Hs : ∀ x, x ∈ Successors d u ↔ x = u ∨ x ∈ Successors g u).
    { intros x. rewrite !elem_of_Successors, He. case_decide as Hd.
      - split; [by left | by eexists].
      - split; [by right|]. intros [->|?]; tauto. }
    split_and!.
    + by rewrite He, decide_True.
    + apply count_once; [apply NoDup_Successors|]. apply Hs. by left.
    + unfold UndirectedGraph.Degree, UndirectedGraph.Neighbors.
      apply (length_add_member (Successors g u) (Successors d u) u);
        auto using NoDup_Successors.
    + intros Hother.
      assert (Ha : adjacency d u = {[u := w]}).
      { apply map_eq. intros x. rewrite entry_adjacency, He. case_decide as Hd.
        - subst x. by rewrite lookup_singleton_eq.
        - rewrite lookup_singleton_ne by done. by apply Hother. }
      split; [done|]. split.
      * by rewrite Ha, map_size_singleton.
      * unfold UndirectedGraph.Degree, UndirectedGraph.Neighbors.
        by rewrite length_Successors, Ha, map_size_singleton.
Qed.

(** C10.  On the base store [Neighbors(n)] is [Successors(n)] followed by
    [Predecessors(n)], nothing removed: a node that is a successor and a
    predecessor of [n] occurs twice, and [Degree(n)] is the length of that
    list. *)
Theorem Neighbors_twice g n :
  Neighbors g n = Successors g n ++ Predecessors g n ∧
  Degree g n = length (Neighbors g n) ∧
  ∀ v, is_Some (entry g n v) → is_Some (entry g v n) →
       length (filter (λ x, x = v) (Neighbors g n)) = 2.
Proof.
  split; [done|]. split.
  - unfold Degree, InDegree, OutDegree, Neighbors. rewrite length_app. lia.
  - intros v Hs Hp. unfold Neighbors. rewrite filter_app, length_app.
    rewrite !count_once; [done | apply NoDup_Predecessors | | apply NoDup_Successors |].
    + by apply elem_of_Predecessors.
    + by apply elem_of_Successors.
Qed.

(** C8.  After [RemoveNode(n)] the node is gone and no node lists it as a
    successor or as a predecessor; removing a node that is not there
    leaves the graph as it was. *)
Theorem RemoveNode_complete g n :
  HasNode (RemoveNode g n) n = false ∧
  (∀ m, n ∉ Successors (RemoveNode g n) m) ∧
  (∀ m, n ∉ Predecessors (RemoveNode g n) m) ∧
  (∀ m, n ∉ UndirectedGraph.Predecessors (RemoveNode g n) m) ∧
  (closed g → HasNode g n = false → RemoveNode g n = g).
Proof.
  assert (Hs : ∀ m, n ∉ Successors (RemoveNode g n) m).
  { intros m. rewrite elem_of_Successors, RemoveNode_entry.
    rewrite decide_True by tauto. by intros [? ?]. }
  split; [|split; [done|split; [|split; [done|]]]].
  - apply not_true_is_false. rewrite HasNode_true, RemoveNode_is_node. tauto.
  - intros m. rewrite elem_of_Predecessors, RemoveNode_entry.
    rewrite decide_True by tauto. by intros [? ?].
  - intros Hc Hn. apply not_true_iff_false in Hn. rewrite HasNode_true in Hn.
    apply map_eq. intros k. rewrite RemoveNode_lookup. case_decide; subst.
    + symmetry. by apply eq_None_not_Some.
    + destruct (g !! k) as [x|] eqn:Hk; [|done]. simpl. f_equal.
      apply delete_id. apply eq_None_not_Some. intros Hx. apply Hn.
      apply (Hc k n). unfold entry. by rewrite Hk.
Qed.

End query_facts.

(** C4, on graph.go.  Node 1 holds the only adjacency entry that points to
    node 2, yet [Predecessors(2)] yields node 2; graph/graph.go produces
    node 1. *)
Example IterGraph_Predecessors_slip :
  let g : graphData Z := DirectedGraph.AddEdge ∅ 1%Z 2%Z (Fin 1) in
  Graph.entry g 1%Z 2%Z = Some (Fin 1) ∧
  IterGraph.Predecessors g 2%Z = [2%Z] ∧
  Graph.Predecessors g 2%Z = [1%Z].
Proof. vm_compute. done. Qed.

(** C6 as stated fails on a node that has another edge: with the edge
    between 1 and 2 in place, the loop at node 1 brings [Degree(1)] to 3 on
    the directed graph and to 2 on the undirected one, where node 1 then
    holds two adjacency entries. *)
Lemma self_loop_degree_other_edge :
  let d : graphData Z :=
    DirectedGraph.AddEdge (DirectedGraph.AddEdge ∅ 1%Z 2%Z (Fin 1)) 1%Z 1%Z (Fin 1) in
  let h : graphData Z :=
    UndirectedGraph.AddEdge (UndirectedGraph.AddEdge ∅ 1%Z 2%Z (Fin 1)) 1%Z 1%Z (Fin 1) in
  Graph.InDegree d 1%Z + Graph.OutDegree d 1%Z = 3 ∧ Graph.Degree d 1%Z = 3 ∧
  size (Graph.adjacency h 1%Z) = 2 ∧ UndirectedGraph.Degree h 1%Z = 2.
Proof. by vm_compute. Qed.

(** C6 where the loop at node 1 is added a second time. *)
Lemma self_loop_degree_witness :
  let g : graphData Z := DirectedGraph.AddEdge ∅ 1%Z 1%Z (Fin 1) in
  let h : graphData Z := UndirectedGraph.AddEdge ∅ 1%Z 1%Z (Fin 1) in
  (∀ v, v ≠ 1%Z → Graph.entry g 1%Z v = None ∧ Graph.entry g v 1%Z = None) ∧
  (∀ v, v ≠ 1%Z → Graph.entry h 1%Z v = None) ∧
  Graph.Degree (DirectedGraph.AddEdge g 1%Z 1%Z (Fin 2)) 1%Z = 2 ∧
  UndirectedGraph.Degree (UndirectedGraph.AddEdge h 1%Z 1%Z (Fin 2)) 1%Z = 1.
Proof.
  intros g h.
  assert (Hg : ∀ v, v ≠ 1%Z →
            Graph.entry g 1%Z v = None ∧ Graph.entry g v 1%Z = None).
  { intros v Hv. unfold g. rewrite !DirectedAddEdge_entry.
    by rewrite !decide_False by tauto. }
  assert (Hh : ∀ v, v ≠ 1%Z → Graph.entry h 1%Z v = None).
  { intros v Hv. unfold h. rewrite UndirectedAddEdge_entry.
    by rewrite decide_False by tauto. }
  split; [exact Hg|]. split; [exact Hh|].
  destruct (self_loop_degree g 1%Z (Fin 2)) as [(_ & _ & _ & Hd) _].
  destruct (self_loop_degree h 1%Z (Fin 2)) as [_ (_ & _ & _ & Hu)].
  split; [apply (Hd Hg) | apply (Hu Hh)].
Defined.

(** C10 at a directed graph with the edges 1 -> 2 and 2 -> 1. *)
Lemma Neighbors_twice_witness :
  let g : graphData Z :=
    DirectedGraph.AddEdge (DirectedGraph.AddEdge ∅ 1%Z 2%Z (Fin 1)) 2%Z 1%Z (Fin 1) in
  length (filter (λ x, x = 2%Z) (Graph.Neighbors g 1%Z)) = 2.
Proof.
  intros g. apply (Neighbors_twice g 1%Z); vm_compute; by eexists.
Defined.

(** C8 at a graph without node 3. *)
Lemma RemoveNode_complete_witness :
  let g : graphData Z := DirectedGraph.AddEdge ∅ 1%Z 2%Z (Fin 1) in
  Graph.RemoveNode g 3%Z = g.
Proof.
  intros g. apply (RemoveNode_complete g 3%Z).
  - apply closed_DirectedAddEdge, closed_empty.
  - reflexivity.
Defined.

(** ** Map objects: frames and views *)

Section heap_facts.
Context `{Countable K} `{!MapRange K}.
Import Heap.
Implicit Types (h : heap (K:=K)) (g c l : positive) (n u v k : K) (w : float64).

Lemma view_lookup h g n :
  view h g !! n = (λ i, default ∅ (inner_maps h !! i)) <$> ref h g n.
Proof. unfold view, ref. by rewrite lookup_fmap. Qed.

Lemma view_ext h h' l :
  nodes_of h' l = nodes_of h l →
  (∀ k j, ref h l k = Some j → inner_maps h' !! j = inner_maps h !! j) →
  view h' l = view h l.
Proof.
  intros Hn Hi. apply map_eq. intros k. rewrite !view_lookup.
  unfold ref. rewrite Hn. destruct (nodes_of h l !! k) as [j|] eqn:Hj; [|done].
  simpl. by rewrite (Hi k j).
Qed.

Lemma touches_only_refl g h : touches_only g h h.
Proof. split; [done|]. by intros l _. Qed.

Lemma touches_only_trans g h1 h2 h3 :
  touches_only g h1 h2 → touches_only g h2 h3 → touches_only g h1 h3.
Proof.
  intros [Hl1 Hv1] [Hl2 Hv2]. split.
  - intros l. by rewrite Hl2.
  - intros l Hne. destruct (Hv1 l Hne) as [E1 E2].
    destruct (Hv2 l Hne) as [E3 E4]. split; congruence.
Qed.

Lemma nodes_of_alter h g (f : gmap K positive → gmap K positive) inner l :
  live h g →
  nodes_of (mkHeap (alter f g (outer_maps h)) inner) l
  = if decide (l = g) then f (nodes_of h g) else nodes_of h l.
Proof.
  intros [m Hm]. unfold nodes_of. simpl. rewrite lookup_alter.
  destruct (decide (g = l)) as [->|Hne].
  - rewrite decide_True by done. by rewrite Hm.
  - by rewrite decide_False by done.
Qed.

Lemma live_alter h g (f : gmap K positive → gmap K positive) inner l :
  live (mkHeap (alter f g (outer_maps h)) inner) l ↔ live h l.
Proof.
  unfold live. simpl. rewrite lookup_alter. case_decide; subst; [|done].
  by rewrite fmap_is_Some.
Qed.

(** Shrinking the outer map of [g]. *)
Lemma shrink_spec h g (f : gmap K positive → gmap K positive) :
  (∀ m, f m ⊆ m) → heap_ok h → live h g →
  let h' := mkHeap (alter f g (outer_maps h)) (inner_maps h) in
  heap_ok h' ∧ touches_only g h h' ∧
  view h' g = (λ i, default ∅ (inner_maps h !! i)) <$> f (nodes_of h g).
Proof.
  intros Hf [Hal Hun] Hg h'.
  assert (Href : ∀ l k j, ref h' l k = Some j → ref h l k = Some j).
  { intros l k j. unfold ref, h'. rewrite nodes_of_alter by done.
    case_decide; subst; [|done]. intros Hj.
    eapply lookup_weaken; [exact Hj | apply Hf]. }
  split; [split|split; [split|]].
  - intros l k j Hj. apply (Hal l k j), Href, Hj.
  - intros l1 k1 l2 k2 j H1 H2. eapply Hun; by apply Href.
  - intros l. apply live_alter.
  - intros l Hne. unfold h'. split.
    + rewrite nodes_of_alter by done. by rewrite decide_False.
    + apply view_ext; [|done]. rewrite nodes_of_alter by done.
      by rewrite decide_False.
  - unfold view, h'. rewrite nodes_of_alter by done.
    by rewrite decide_True.
Qed.

(** [g.Adjacencies[n] = make(...)] *)
Lemma make_adjacency_spec h g n :
  heap_ok h → live h g →
  let h' := make_adjacency h g n in
  heap_ok h' ∧ touches_only g h h' ∧ view h' g = <[n := ∅]> (view h g).
Proof.
  intros [Hal Hun] Hg h'.
  set (i := fresh (dom (inner_maps h))).
  assert (Hi : inner_maps h !! i = None).
  { apply not_elem_of_dom, is_fresh. }
  assert (Hold : ∀ l k j, ref h l k = Some j → j ≠ i).
  { intros l k j Hj ->. apply Hal in Hj as [x Hx]. congruence. }
  assert (Href : ∀ l k j, ref h' l k = Some j →
            (l = g ∧ k = n ∧ j = i) ∨ ref h l k = Some j).
  { intros l k j. unfold ref, h', make_adjacency. rewrite nodes_of_alter by done.
    case_decide; subst; [|tauto]. rewrite lookup_insert.
    case_decide; subst; [|tauto]. intros [= <-]. tauto. }
  split; [split|split; [split|]].
  - intros l k j [(-> & -> & ->)|Hj]%Href; simpl.
    + fold i. rewrite lookup_insert_eq. by eexists.
    + fold i. rewrite lookup_insert_ne by (symmetry; by eapply Hold).
      by eapply Hal.
  - intros l1 k1 l2 k2 j [(-> & -> & ->)|H1]%Href [(-> & -> & E)|H2]%Href;
      subst; try done.
    + by apply Hold in H2.
    + by apply Hold in H1.
    + by eapply Hun.
  - intros l. apply live_alter.
  - intros l Hne. unfold h', make_adjacency. split.
    + rewrite nodes_of_alter by done. by rewrite decide_False.
    + apply view_ext.
      * rewrite nodes_of_alter by done. by rewrite decide_False.
      * intros k j Hj. simpl. fold i.
        apply lookup_insert_ne. symmetry. by eapply Hold.
  - apply map_eq. intros k. rewrite view_lookup.
    unfold ref, h', make_adjacency. rewrite nodes_of_alter by done.
    rewrite decide_True by done. fold i. rewrite !lookup_insert.
    case_decide; subst; simpl.
    + by rewrite lookup_insert_eq.
    + rewrite view_lookup. unfold ref.
      destruct (nodes_of h g !! k) as [j|] eqn:Hj; [|done]. simpl.
      rewrite lookup_insert_ne; [done|]. symmetry. by eapply Hold.
Qed.

(** An update of the map object [g.Adjacencies[n]]. *)
Lemma modify_adjacency_spec h g n f :
  heap_ok h →
  let h' := modify_adjacency h g n f in
  heap_ok h' ∧ touches_only g h h' ∧ nodes_of h' g = nodes_of h g ∧
  view h' g = alter f n (view h g).
Proof.
  intros [Hal Hun] h'. unfold h', modify_adjacency.
  destruct (ref h g n) as [i|] eqn:Hi.
  - split; [split|split; [split|split]]; try done.
    + intros l k j Hj. simpl. rewrite lookup_alter.
      case_decide; subst; [|by eapply Hal].
      rewrite fmap_is_Some. by eapply Hal.
    + intros l Hne. split; [done|]. apply view_ext; [done|].
      intros k j Hj. simpl. apply lookup_alter_ne. intros ->.
      destruct (Hun g n l k j); done.
    + apply map_eq. intros k. rewrite lookup_alter, !view_lookup.
      assert (Hr : ref {| outer_maps := outer_maps h;
                          inner_maps := alter f i (inner_maps h) |} g k
                   = ref h g k) by done.
      rewrite Hr. simpl.
      destruct (decide (n = k)) as [->|Hne].
      * rewrite Hi. simpl. rewrite lookup_alter_eq.
        destruct (Hal g k i Hi) as [x ->]. done.
      * destruct (ref h g k) as [j|] eqn:Hj; [|done]. simpl.
        rewrite lookup_alter_ne; [done|]. intros ->.
        destruct (Hun g n g k j); done.
  - split; [done|]. split; [apply touches_only_refl|]. split; [done|].
    apply map_eq. intros k. rewrite lookup_alter. case_decide; subst; [|done].
    rewrite view_lookup, Hi. done.
Qed.

End heap_facts.

(** ** Mutators on map objects *)

Section heap_mutators.
Context `{Countable K} `{!MapRange K}.
Import Heap.
Implicit Types (h : heap (K:=K)) (g c l : positive) (n u v k : K) (w : float64).

Lemma ref_view h g n : is_Some (ref h g n) ↔ is_Some (view h g !! n).
Proof. by rewrite view_lookup, fmap_is_Some. Qed.

Lemma live_touches g h h' l : touches_only g h h' → live h l → live h' l.
Proof. intros [Hl _]. apply Hl. Qed.

Lemma AddNode_spec h g n :
  heap_ok h → live h g →
  let h' := AddNode h g n in
  heap_ok h' ∧ touches_only g h h' ∧ view h' g = Graph.AddNode (view h g) n.
Proof.
  intros Hok Hg. unfold AddNode, Graph.AddNode.
  destruct (ref h g n) as [i|] eqn:Hi.
  - destruct (proj1 (ref_view h g n)) as [x ->]; [by eexists|].
    split; [done|]. split; [apply touches_only_refl | done].
  - assert (view h g !! n = None) as ->.
    { apply eq_None_not_Some. rewrite <- ref_view, Hi. by intros [? ?]. }
    by apply make_adjacency_spec.
Qed.

Lemma ensure_spec h g n :
  heap_ok h → live h g →
  let h' := if ref h g n is Some _ then h else AddNode h g n in
  heap_ok h' ∧ touches_only g h h' ∧ view h' g = Graph.AddNode (view h g) n.
Proof.
  intros Hok Hg. destruct (ref h g n) as [i|] eqn:Hi.
  - simpl. split; [done|]. split; [apply touches_only_refl|].
    unfold Graph.AddNode.
    destruct (proj1 (ref_view h g n)) as [x ->]; [by rewrite Hi; eexists | done].
  - by apply AddNode_spec.
Qed.

Lemma adjacency_alter (a : graphData K) u f :
  is_Some (a !! u) → alter f u a = <[u := f (Graph.adjacency a u)]> a.
Proof.
  intros [x Hx]. unfold Graph.adjacency. rewrite Hx. simpl.
  apply map_eq. intros k. rewrite lookup_alter, lookup_insert.
  case_decide; subst; [by rewrite Hx | done].
Qed.

Lemma DirectedAddEdge_spec h g u v w :
  heap_ok h → live h g →
  let h' := DirectedAddEdge h g u v w in
  heap_ok h' ∧ touches_only g h h' ∧
  view h' g = DirectedGraph.AddEdge (view h g) u v w.
Proof.
  intros Hok Hg. unfold DirectedAddEdge, DirectedGraph.AddEdge.
  destruct (ensure_spec h g u Hok Hg) as (Hok1 & Ht1 & Hv1).
  set (h1 := if ref h g u is Some _ then h else AddNode h g u) in *.
  assert (Hg1 : live h1 g) by by eapply live_touches.
  destruct (ensure_spec h1 g v Hok1 Hg1) as (Hok2 & Ht2 & Hv2).
  set (h2 := if ref h1 g v is Some _ then h1 else AddNode h1 g v) in *.
  destruct (modify_adjacency_spec h2 g u (<[v := w]>) Hok2) as (Hok3 & Ht3 & _ & Hv3).
  split; [done|]. split.
  - eapply touches_only_trans; [|exact Ht3].
    eapply touches_only_trans; [exact Ht1 | exact Ht2].
  - rewrite Hv3, Hv2, Hv1, !ensure_node. apply adjacency_alter.
    apply AddNode_is_node. right. apply AddNode_is_node. by left.
Qed.

Lemma UndirectedAddEdge_spec h g u v w :
  heap_ok h → live h g →
  let h' := UndirectedAddEdge h g u v w in
  heap_ok h' ∧ touches_only g h h' ∧
  view h' g = UndirectedGraph.AddEdge (view h g) u v w.
Proof.
  intros Hok Hg. unfold UndirectedAddEdge, UndirectedGraph.AddEdge.
  destruct (ensure_spec h g u Hok Hg) as (Hok1 & Ht1 & Hv1).
  set (h1 := if ref h g u is Some _ then h else AddNode h g u) in *.
  assert (Hg1 : live h1 g) by by eapply live_touches.
  destruct (ensure_spec h1 g v Hok1 Hg1) as (Hok2 & Ht2 & Hv2).
  set (h2 := if ref h1 g v is Some _ then h1 else AddNode h1 g v) in *.
  destruct (modify_adjacency_spec h2 g u (<[v := w]>) Hok2) as (Hok3 & Ht3 & _ & Hv3).
  set (h3 := modify_adjacency h2 g u (<[v := w]>)) in *.
  destruct (modify_adjacency_spec h3 g v (<[u := w]>) Hok3) as (Hok4 & Ht4 & _ & Hv4).
  split; [done|]. split.
  - eapply touches_only_trans; [|exact Ht4].
    eapply touches_only_trans; [|exact Ht3].
    eapply touches_only_trans; [exact Ht1 | exact Ht2].
  - rewrite Hv4, Hv3, Hv2, Hv1, !ensure_node.
    rewrite (adjacency_alter _ u).
    + apply adjacency_alter. apply insert_adjacency_is_node. right.
      apply AddNode_is_node. by left.
    + apply AddNode_is_node. right. apply AddNode_is_node. by left.
Qed.

Lemma lookup_foldl_alter {V} (f : V → V) (m : gmap K V) (ks : list K) k :
  (∀ x, f (f x) = f x) →
  foldl (λ m k, alter f k m) m ks !! k
  = if decide (k ∈ ks) then f <$> m !! k else m !! k.
Proof.
  intros Hf. revert m. induction ks as [|x ks IH]; intros m.
  - by rewrite decide_False by apply not_elem_of_nil.
  - simpl foldl. rewrite IH, lookup_alter. destruct (decide (x = k)) as [->|Hne].
    + rewrite (decide_True (P := k ∈ k :: ks)) by left.
      case_decide; [|done]. destruct (m !! k); simpl; [|done]. by rewrite Hf.
    + destruct (decide (k ∈ ks)).
      * by rewrite decide_True by by right.
      * rewrite decide_False; [done|].
        rewrite elem_of_cons. intros [?|?]; [by subst | done].
Qed.

Lemma fold_modify_spec h g f (ks : list K) :
  heap_ok h →
  let h' := foldl (λ h node, modify_adjacency h g node f) h ks in
  heap_ok h' ∧ touches_only g h h' ∧ nodes_of h' g = nodes_of h g ∧
  view h' g = foldl (λ m k, alter f k m) (view h g) ks.
Proof.
  revert h. induction ks as [|x ks IH]; intros h Hok; simpl.
  - split; [done|]. split; [apply touches_only_refl | done].
  - destruct (modify_adjacency_spec h g x f Hok) as (Hok1 & Ht1 & Hn1 & Hv1).
    destruct (IH _ Hok1) as (Hok2 & Ht2 & Hn2 & Hv2).
    split; [done|]. split; [by eapply touches_only_trans|].
    split; [congruence|]. by rewrite Hv2, Hv1.
Qed.

Lemma RemoveNode_spec h g n :
  heap_ok h → live h g →
  let h' := RemoveNode h g n in
  heap_ok h' ∧ touches_only g h h' ∧ view h' g = Graph.RemoveNode (view h g) n.
Proof.
  intros Hok Hg. unfold RemoveNode.
  destruct (fold_modify_spec h g (delete n) (range None (nodes_of h g)).*1 Hok)
    as (Hok1 & Ht1 & Hn1 & Hv1).
  set (h1 := foldl _ h _) in *.
  assert (Hg1 : live h1 g) by by eapply live_touches.
  destruct (shrink_spec h1 g (delete n) (λ m, delete_subseteq m n) Hok1 Hg1)
    as (Hok2 & Ht2 & Hv2).
  split; [done|]. split; [by eapply touches_only_trans|].
  rewrite Hv2, fmap_delete. fold (view h1 g). rewrite Hv1.
  unfold Graph.RemoveNode. f_equal. apply map_eq. intros k.
  rewrite lookup_foldl_alter by (intros; apply delete_delete_eq).
  rewrite lookup_fmap. case_decide as Hk; [done|].
  rewrite elem_of_range_fst in Hk. fold (ref h g k) in Hk.
  rewrite ref_view in Hk. apply eq_None_not_Some in Hk. by rewrite Hk.
Qed.

Lemma Clear_spec h g :
  heap_ok h → live h g →
  let h' := Clear h g in
  heap_ok h' ∧ touches_only g h h' ∧ view h' g = Graph.Clear (view h g).
Proof.
  intros Hok Hg.
  destruct (shrink_spec h g (λ _, ∅) (λ m, map_empty_subseteq m) Hok Hg)
    as (Hok2 & Ht2 & Hv2).
  split; [done|]. split; [done|]. unfold Clear. rewrite Hv2.
  by rewrite fmap_empty.
Qed.

(** Every mutation acts on the adjacency structure of its own graph as
    the store operation of the same name, and on no other graph. *)
Lemma mutate_spec h g m h' :
  heap_ok h → live h g → mutate h g m = Some h' →
  heap_ok h' ∧ touches_only g h h' ∧ view h' g = denote m (view h g).
Proof.
  intros Hok Hg. destruct m; simpl.
  - intros [= <-]. by apply AddNode_spec.
  - intros [= <-]. by apply RemoveNode_spec.
  - intros [= <-]. by apply Clear_spec.
  - intros [= <-]. by apply DirectedAddEdge_spec.
  - intros [= <-]. by apply UndirectedAddEdge_spec.
  - intros [= <-].
    destruct (modify_adjacency_spec h g u (delete v) Hok) as (? & ? & _ & ?).
    done.
  - intros [= <-]. unfold UndirectedRemoveEdge, UndirectedGraph.RemoveEdge.
    destruct (modify_adjacency_spec h g u (delete v) Hok) as (Hok1 & Ht1 & _ & Hv1).
    destruct (modify_adjacency_spec _ g v (delete u) Hok1) as (Hok2 & Ht2 & _ & Hv2).
    split; [done|]. split; [by eapply touches_only_trans|]. by rewrite Hv2, Hv1.
  - destruct (ref h g u) as [i|] eqn:Hi; [|done]. intros [= <-].
    destruct (modify_adjacency_spec h g u (<[v := w]>) Hok) as (Hok1 & Ht1 & _ & Hv1).
    split; [done|]. split; [done|]. rewrite Hv1. apply adjacency_alter.
    apply ref_view. by rewrite Hi.
Qed.

Lemma mutate_all_spec h g ms h' :
  heap_ok h → live h g → mutate_all h g ms = Some h' →
  heap_ok h' ∧ touches_only g h h' ∧ view h' g = denote_all ms (view h g).
Proof.
  revert h. induction ms as [|m ms IH]; intros h Hok Hg; simpl.
  - intros [= <-]. split; [done|]. split; [apply touches_only_refl | done].
  - destruct (mutate h g m) as [h1|] eqn:Hm; [|done]. simpl. intros Hms.
    destruct (mutate_spec h g m h1 Hok Hg Hm) as (Hok1 & Ht1 & Hv1).
    destruct (IH h1 Hok1 (live_touches _ _ _ _ Ht1 Hg) Hms) as (Hok2 & Ht2 & Hv2).
    split; [done|]. split; [by eapply touches_only_trans|].
    by rewrite Hv2, Hv1.
Qed.

End heap_mutators.

(** ** Copy *)

Section copy_facts.
Context `{Countable K} `{!MapRange K}.
Import Heap.
Implicit Types (h : heap (K:=K)) (g c l : positive) (n u v k : K) (w : float64).

Lemma getOrCreate_spec (nodesMap : gmap K K) id :
  registry_ok nodesMap →
  (getOrCreate nodesMap id).1 = id ∧ registry_ok (getOrCreate nodesMap id).2.
Proof.
  intros Hr. unfold getOrCreate.
  destruct (nodesMap !! id) as [node|] eqn:Hid; simpl.
  - split; [by apply Hr | done].
  - split; [done|]. intros k x. rewrite lookup_insert.
    case_decide; subst; [by intros [= <-] | apply Hr].
Qed.

Lemma foldl_insert_union {V} (es : list (K * V)) (m : gmap K V) :
  NoDup es.*1 →
  foldl (λ m e, <[e.1 := e.2]> m) m es = list_to_map es ∪ m.
Proof.
  revert m. induction es as [|[k x] es IH]; intros m Hnd.
  - simpl. by rewrite (left_id_L ∅ (∪)).
  - rewrite fmap_cons in Hnd. apply NoDup_cons in Hnd as [Hk Hnd].
    simpl foldl. rewrite IH by done. rewrite list_to_map_cons.
    rewrite <- insert_union_l. symmetry. apply insert_union_r.
    by apply not_elem_of_list_to_map.
Qed.

Lemma foldl_insert_range {V} (site : option K) (m : gmap K V) :
  foldl (λ m e, <[e.1 := e.2]> m) ∅ (range site m) = m.
Proof.
  rewrite foldl_insert_union by apply NoDup_range_fst.
  rewrite (right_id_L ∅ (∪)).
  rewrite (list_to_map_proper _ (map_to_list m)).
  - apply list_to_map_to_list.
  - apply NoDup_range_fst.
  - apply range_perm.
Qed.

Lemma copy_entries_spec c n (es : list (K * float64)) (nodesMap : gmap K K) h :
  heap_ok h → registry_ok nodesMap →
  let r := foldl (copy_entry c n) (nodesMap, h) es in
  heap_ok r.2 ∧ registry_ok r.1 ∧ touches_only c h r.2 ∧
  view r.2 c = alter (λ m, foldl (λ m e, <[e.1 := e.2]> m) m es) n (view h c).
Proof.
  revert nodesMap h. induction es as [|e es IH]; intros nodesMap h Hok Hr; simpl.
  - split; [done|]. split; [done|]. split; [apply touches_only_refl|].
    symmetry. apply map_eq. intros k. rewrite lookup_alter.
    case_decide; subst; [|done]. by destruct (view h c !! k).
  - destruct (getOrCreate_spec nodesMap e.1 Hr) as [Hid Hr1].
    assert (Hce : copy_entry c n (nodesMap, h) e
                  = ((getOrCreate nodesMap e.1).2,
                     modify_adjacency h c n (<[e.1 := e.2]>))).
    { unfold copy_entry. simpl.
      destruct (getOrCreate nodesMap e.1); simpl in *; by subst. }
    rewrite Hce.
    destruct (modify_adjacency_spec h c n (<[e.1 := e.2]>) Hok)
      as (Hok1 & Ht1 & _ & Hv1).
    destruct (IH _ _ Hok1 Hr1) as (Hok2 & Hr2 & Ht2 & Hv2).
    split; [done|]. split; [done|]. split; [by eapply touches_only_trans|].
    rewrite Hv2, Hv1. by rewrite alter_alter_eq.
Qed.

Lemma copy_node_spec c n i (nodesMap : gmap K K) h :
  heap_ok h → registry_ok nodesMap → live h c → view h c !! n = None →
  let r := copy_node c (nodesMap, h) (n, i) in
  heap_ok r.2 ∧ registry_ok r.1 ∧ touches_only c h r.2 ∧
  view r.2 c = <[n := default ∅ (inner_maps h !! i)]> (view h c).
Proof.
  intros Hok Hr Hc Hn.
  destruct (getOrCreate_spec nodesMap n Hr) as [Hid Hr1].
  assert (Href : ref h c n = None).
  { apply eq_None_not_Some. rewrite ref_view, Hn. by intros [? ?]. }
  assert (Hcn : copy_node c (nodesMap, h) (n, i)
                = foldl (copy_entry c n)
                    ((getOrCreate nodesMap n).2, make_adjacency h c n)
                    (range (Some n) (default ∅ (inner_maps h !! i)))).
  { unfold copy_node. simpl.
    destruct (getOrCreate nodesMap n); simpl in *; subst. by rewrite Href. }
  rewrite Hcn. set (nodesMap1 := (getOrCreate nodesMap n).2) in *.
  destruct (make_adjacency_spec h c n Hok Hc) as (Hok1 & Ht1 & Hv1).
  destruct (copy_entries_spec c n
              (range (Some n) (default ∅ (inner_maps h !! i))) nodesMap1 _ Hok1 Hr1)
    as (Hok2 & Hr2 & Ht2 & Hv2).
  split; [done|]. split; [done|]. split; [by eapply touches_only_trans|].
  rewrite Hv2, Hv1. apply map_eq. intros k.
  destruct (decide (n = k)) as [->|Hnk].
  - rewrite lookup_alter_eq, !lookup_insert_eq. simpl.
    by rewrite foldl_insert_range.
  - by rewrite lookup_alter_ne, !lookup_insert_ne by done.
Qed.

Lemma source_read c g h h' n i :
  c ≠ g → touches_only c h h' → ref h g n = Some i →
  ref h' g n = Some i ∧
  default ∅ (inner_maps h' !! i) = default ∅ (inner_maps h !! i).
Proof.
  intros Hne [_ Ht] Hi. destruct (Ht g (not_eq_sym Hne)) as [Hn Hv].
  assert (Hi' : ref h' g n = Some i) by (unfold ref; by rewrite Hn).
  split; [done|].
  assert (Hk : view h' g !! n = view h g !! n) by by rewrite Hv.
  rewrite !view_lookup, Hi, Hi' in Hk. simpl in Hk. by injection Hk.
Qed.

Lemma copy_loop_spec c g (es : list (K * positive)) (nodesMap : gmap K K) h :
  heap_ok h → registry_ok nodesMap → live h c → c ≠ g → NoDup es.*1 →
  (∀ n i, (n, i) ∈ es → ref h g n = Some i ∧ view h c !! n = None) →
  let r := foldl (copy_node c) (nodesMap, h) es in
  heap_ok r.2 ∧ touches_only c h r.2 ∧
  ∀ k, view r.2 c !! k
       = if decide (k ∈ es.*1) then view h g !! k else view h c !! k.
Proof.
  revert nodesMap h.
  induction es as [|[n i] es IH]; intros nodesMap h Hok Hr Hc Hne Hnd Hes.
  - simpl. split; [done|]. split; [apply touches_only_refl | done].
  - rewrite fmap_cons in Hnd. apply NoDup_cons in Hnd as [Hn Hnd].
    destruct (Hes n i) as [Hi Hcn]; [left|].
    destruct (copy_node_spec c n i nodesMap h Hok Hr Hc Hcn)
      as (Hok1 & Hr1 & Ht1 & Hv1).
    simpl foldl.
    destruct (copy_node c (nodesMap, h) (n, i)) as [nodesMap1 h1] eqn:Hcopy.
    simpl in Hok1, Hr1, Ht1, Hv1.
    destruct (IH nodesMap1 h1 Hok1 Hr1 (live_touches _ _ _ _ Ht1 Hc) Hne Hnd)
      as (Hok2 & Ht2 & Hv2).
    { intros n' i' Hin. destruct (Hes n' i') as [Hi' Hcn']; [by right|].
      split; [by eapply source_read|].
      rewrite Hv1, lookup_insert_ne; [done|]. intros ->. apply Hn.
      apply list_elem_of_fmap. by exists (n', i'). }
    split; [done|]. split; [by eapply touches_only_trans|].
    intros k. rewrite Hv2, Hv1.
    destruct Ht1 as [_ Ht1]. destruct (Ht1 g (not_eq_sym Hne)) as [_ ->].
    rewrite fmap_cons. simpl. destruct (decide (k ∈ es.*1)) as [Hk|Hk].
    + by rewrite decide_True by by right.
    + rewrite lookup_insert. destruct (decide (n = k)) as [->|Hnk].
      * rewrite decide_True by left. by rewrite view_lookup, Hi.
      * rewrite decide_False; [done|].
        rewrite elem_of_cons. intros [?|?]; [by subst | done].
Qed.

Lemma newGraphData_spec h :
  heap_ok h →
  let c := (newGraphData h).1 in
  let h' := (newGraphData h).2 in
  ¬ live h c ∧ live h' c ∧ heap_ok h' ∧ nodes_of h' c = ∅ ∧
  ∀ l, l ≠ c →
       (live h' l ↔ live h l) ∧ nodes_of h' l = nodes_of h l ∧
       view h' l = view h l.
Proof.
  intros [Hal Hun]. unfold newGraphData. simpl.
  set (c := fresh (dom (outer_maps h))).
  assert (Hc : outer_maps h !! c = None) by apply not_elem_of_dom, is_fresh.
  assert (Hn : ∀ l, nodes_of (mkHeap (<[c := ∅]> (outer_maps h)) (inner_maps h)) l
               = if decide (l = c) then ∅ else nodes_of h l).
  { intros l. unfold nodes_of. simpl. rewrite lookup_insert.
    destruct (decide (c = l)) as [->|?].
    - by rewrite decide_True.
    - by rewrite decide_False. }
  assert (Href : ∀ l k j,
            ref (mkHeap (<[c := ∅]> (outer_maps h)) (inner_maps h)) l k = Some j →
            ref h l k = Some j).
  { intros l k j. unfold ref. rewrite Hn. case_decide; [|done].
    by rewrite lookup_empty. }
  split; [|split; [|split; [split|split]]].
  - unfold live. rewrite Hc. by intros [? ?].
  - unfold live. simpl. rewrite lookup_insert_eq. by eexists.
  - intros l k j Hj. apply (Hal l k j), Href, Hj.
  - intros l1 k1 l2 k2 j H1 H2. eapply Hun; by apply Href.
  - rewrite Hn. by rewrite decide_True.
  - intros l Hne. split; [|split].
    + unfold live. simpl. by rewrite lookup_insert_ne.
    + rewrite Hn. by rewrite decide_False.
    + apply view_ext; [|done]. rewrite Hn. by rewrite decide_False.
Qed.

Lemma Copy_spec h g :
  heap_ok h → live h g →
  let c := (Copy h g).1 in
  let h1 := (Copy h g).2 in
  c ≠ g ∧ live h1 c ∧ live h1 g ∧ heap_ok h1 ∧
  view h1 c = view h g ∧ view h1 g = view h g.
Proof.
  intros Hok Hg. unfold Copy.
  destruct (newGraphData_spec h Hok) as (Hfresh & Hc & Hok0 & Hnc & Hframe).
  destruct (newGraphData h) as [c h0] eqn:Hnew. simpl in *.
  assert (Hne : c ≠ g) by (intros ->; done).
  destruct (Hframe g (not_eq_sym Hne)) as (Hlg & Hng & Hvg).
  destruct (copy_loop_spec c g (range None (nodes_of h0 g)) ∅ h0)
    as (Hok1 & Ht1 & Hv1); try done.
  - apply NoDup_range_fst.
  - intros n i Hin%elem_of_range. split; [done|].
    rewrite view_lookup. unfold ref. by rewrite Hnc, lookup_empty.
  - set (h1 := (foldl (copy_node c) (∅, h0) (range None (nodes_of h0 g))).2) in *.
    destruct Ht1 as [Hl1 Ht1]. destruct (Ht1 g (not_eq_sym Hne)) as [_ Hvg1].
    split; [done|]. split; [by apply Hl1|]. split; [by apply Hl1, Hlg|].
    split; [done|]. split; [|congruence].
    rewrite <- Hvg. apply map_eq. intros k. rewrite Hv1.
    case_decide as Hk; [done|].
    rewrite elem_of_range_fst in Hk. fold (ref h0 g k) in Hk.
    rewrite ref_view in Hk. apply eq_None_not_Some in Hk. rewrite Hk.
    rewrite view_lookup. unfold ref. by rewrite Hnc, lookup_empty.
Qed.

(** C9.  The copy [c] of a graph [g] starts with the node keys and edge
    weights of [g]; afterwards no sequence of mutations of [g] changes
    anything in [c], and none of [c] changes anything in [g], while each
    sequence does act on the graph it is applied to. *)
Theorem Copy_independent h g :
  heap_ok h → live h g →
  let c := (Copy h g).1 in
  let h1 := (Copy h g).2 in
  c ≠ g ∧ view h1 c = view h g ∧ view h1 g = view h g ∧
  (∀ ms h2, mutate_all h1 g ms = Some h2 →
     view h2 g = denote_all ms (view h1 g) ∧ view h2 c = view h1 c) ∧
  (∀ ms h2, mutate_all h1 c ms = Some h2 →
     view h2 c = denote_all ms (view h1 c) ∧ view h2 g = view h1 g).
Proof.
  intros Hok Hg c h1.
  destruct (Copy_spec h g Hok Hg) as (Hne & Hc1 & Hg1 & Hok1 & Hvc & Hvg).
  fold c h1 in Hne, Hc1, Hg1, Hok1, Hvc, Hvg.
  split; [done|]. split; [done|]. split; [done|]. split.
  - intros ms h2 Hms.
    destruct (mutate_all_spec h1 g ms h2 Hok1 Hg1 Hms) as (_ & [_ Ht] & Hv).
    split; [done|]. by apply Ht.
  - intros ms h2 Hms.
    destruct (mutate_all_spec h1 c ms h2 Hok1 Hc1 Hms) as (_ & [_ Ht] & Hv).
    split; [done|]. apply Ht. by apply not_eq_sym.
Qed.

Lemma heap_ok_empty : heap_ok (empty_heap (K:=K)).
Proof.
  split.
  - intros g n i. unfold ref, nodes_of. simpl. by rewrite !lookup_empty.
  - intros g1 n1 g2 n2 i. unfold ref, nodes_of. simpl. by rewrite !lookup_empty.
Qed.

End copy_facts.

(** C9 at a graph with the one undirected edge 1 - 2. *)
Lemma Copy_independent_witness :
  let g := (Heap.newGraphData (Heap.empty_heap (K:=Z))).1 in
  let h := Heap.UndirectedAddEdge (Heap.newGraphData Heap.empty_heap).2 g 1%Z 2%Z (Fin 1) in
  Heap.heap_ok h ∧ Heap.live h g ∧
  Heap.view (Heap.Copy h g).2 (Heap.Copy h g).1 = Heap.view h g.
Proof.
  intros g h.
  destruct (newGraphData_spec (Heap.empty_heap (K:=Z)) heap_ok_empty)
    as (_ & Hl & Hok & _).
  destruct (UndirectedAddEdge_spec _ g 1%Z 2%Z (Fin 1) Hok Hl) as (Hok1 & Ht & _).
  assert (Hl1 : Heap.live h g) by (eapply live_touches; [exact Ht | exact Hl]).
  split; [exact Hok1|]. split; [exact Hl1|].
  apply (Copy_independent h g Hok1 Hl1).
Defined.

(** The assignment [g.Adjacencies[1][2] = 10.0] after [h := g.Copy()]
    is seen in [g] and not in [h]. *)
Example Copy_then_assign :
  let g := (Heap.newGraphData (Heap.empty_heap (K:=Z))).1 in
  let h0 := Heap.UndirectedAddEdge (Heap.newGraphData Heap.empty_heap).2 g 1%Z 2%Z (Fin 1) in
  let c := (Heap.Copy h0 g).1 in
  let h1 := (Heap.Copy h0 g).2 in
  (λ h2, (Graph.entry (Heap.view h2 g) 1%Z 2%Z, Graph.entry (Heap.view h2 c) 1%Z 2%Z))
    <$> Heap.mutate h1 g (Heap.MAssign 1%Z 2%Z (Fin 10))
  = Some (Some (Fin 10), Some (Fin 1)).
Proof. vm_compute. done. Qed.

(** ** Breadth-first search *)

Section path_facts.
Context `{Countable K} `{!MapRange K} `{!ZeroValue K}.
Import Graph PathFinder.
Implicit Types (g : graphData K) (s t u v x y : K) (p q : list K).

Lemma path_nonempty g s t p : path g s t p → p ≠ [].
Proof. destruct 1; [done|]. by destruct p. Qed.

Lemma path_head g s t p : path g s t p → head p = Some s.
Proof.
  induction 1 as [|u v p Hp IH He]; [done|].
  destruct p; [done|]. exact IH.
Qed.

Lemma path_last g s t p : path g s t p → last p = Some t.
Proof. destruct 1; [done|]. apply last_snoc. Qed.

Lemma path_follows g s t p : path g s t p → follows_edges g p.
Proof.
  induction 1 as [|u v p Hp IH He]; intros i a b Ha Hb.
  - destruct i; simpl in *; [done|]. by destruct i.
  - assert (Hlen : S i < length (p ++ [v])) by by eapply lookup_lt_Some.
    rewrite length_app in Hlen. simpl in Hlen.
    rewrite lookup_app_l in Ha by lia.
    destruct (decide (S i < length p)) as [Hlt|Hge].
    + rewrite lookup_app_l in Hb by lia. by eapply IH.
    + assert (S i = length p) as Hi by lia.
      rewrite lookup_app_r, Hi, Nat.sub_diag in Hb by lia.
      simpl in Hb. injection Hb as <-.
      apply path_last in Hp. rewrite last_lookup in Hp.
      assert (i = pred (length p)) as -> by lia.
      rewrite Hp in Ha. by injection Ha as <-.
Qed.

Lemma path_from_to_path g s t p : path_from_to g s t p → path g s t p.
Proof.
  revert t. induction p as [|v p IH] using rev_ind; intros t (Hh & Hl & Hf).
  - done.
  - rewrite last_snoc in Hl. injection Hl as ->.
    destruct p as [|a p'] eqn:Hp.
    + simpl in Hh. injection Hh as ->. constructor.
    + rewrite <- Hp in *.
      assert (Hlast : is_Some (last p)).
      { rewrite last_is_Some. by rewrite Hp. }
      destruct Hlast as [u Hu]. apply path_step with u.
      * apply IH. split; [|split; [done|]].
        -- rewrite Hp in *. exact Hh.
        -- intros i a' b' Ha Hb. apply (Hf i).
           ++ by apply lookup_app_l_Some.
           ++ by apply lookup_app_l_Some.
      * rewrite last_lookup in Hu. apply (Hf (pred (length p))).
        -- by apply lookup_app_l_Some.
        -- assert (S (pred (length p)) = length p) as ->.
           { rewrite Hp. simpl. lia. }
           by rewrite lookup_app_r, Nat.sub_diag.
Qed.

Lemma path_iff g s t p : path g s t p ↔ path_from_to g s t p.
Proof.
  split; [|apply path_from_to_path].
  intros Hp. split; [by eapply path_head|].
  split; [by eapply path_last | by eapply path_follows].
Qed.

(** A path that is not just the start node ends with an adjacency entry. *)
Lemma path_target g s t p :
  path g s t p → t = s ∨ ∃ u, is_Some (entry g u t).
Proof. destruct 1; [by left | right; by eexists]. Qed.

Lemma chain_mono (m1 m2 : gmap K K) s x p :
  (∀ y, y ∈ p → m2 !! y = m1 !! y) → chain m1 s x p → chain m2 s x p.
Proof.
  intros Hm Hc. induction Hc as [|u v p Hc IH Hv Hne]; [constructor|].
  apply chain_step with u; [|by rewrite Hm by set_solver|done].
  apply IH. intros y Hy. apply Hm. set_solver.
Qed.

Lemma chain_last (m : gmap K K) s x p : chain m s x p → last p = Some x.
Proof. destruct 1; [done | apply last_snoc]. Qed.

(** Following the parent links from the end of a chain rebuilds it. *)
Lemma walk_back_chain (m : gmap K K) s x p fuel acc :
  chain m s x p → length p ≤ S fuel →
  walk_back fuel m s x (acc ++ [x]) = Some (acc ++ reverse p).
Proof.
  intros Hc. revert fuel acc.
  induction Hc as [|u v p Hc IH Hv Hne]; intros fuel acc Hlen.
  - destruct fuel; simpl; by rewrite decide_True.
  - rewrite length_app in Hlen. simpl in Hlen.
    assert (length p ≠ 0).
    { destruct Hc; [done|]. rewrite length_app. simpl. lia. }
    destruct fuel as [|fuel]; [lia|]. simpl.
    rewrite decide_False by done. rewrite Hv. simpl.
    rewrite IH by lia. by rewrite reverse_snoc, <- (assoc_L (++)).
Qed.

Lemma build_path_chain (m : gmap K K) s x p :
  chain m s x p → NoDup p → (∀ y, y ∈ p → is_Some (m !! y)) →
  build_path m s x = Some p.
Proof.
  intros Hc Hnd Hdom. unfold build_path.
  rewrite (walk_back_chain m s x p (size m) [] Hc).
  - simpl. by rewrite reverse_involutive.
  - assert (length p ≤ size m); [|lia].
    rewrite <- (size_dom (D := gset K)).
    rewrite <- (size_list_to_set (C := gset K) p) by done.
    apply subseteq_size. intros y Hy%elem_of_list_to_set.
    apply elem_of_dom. by apply Hdom.
Qed.

Lemma elem_of_edge_targets g v :
  v ∈ edge_targets g ↔ ∃ u, is_Some (entry g u v).
Proof.
  unfold edge_targets. rewrite elem_of_union_list. split.
  - intros (X & HX & Hv). apply list_elem_of_fmap in HX as (a & -> & Ha).
    apply list_elem_of_fmap in Ha as ([u a'] & -> & Hin).
    apply elem_of_map_to_list in Hin. exists u. unfold entry.
    rewrite Hin. simpl. by apply elem_of_dom.
  - intros (u & Hu). unfold entry in Hu.
    destruct (g !! u) as [a|] eqn:Ha; [|by destruct Hu].
    exists (dom a). split; [|by apply elem_of_dom].
    apply list_elem_of_fmap. exists a. split; [done|].
    apply list_elem_of_fmap. exists (u, a). split; [done|].
    by apply elem_of_map_to_list.
Qed.

End path_facts.

Section bfs_facts.
Context `{Countable K} `{!MapRange K} `{!ZeroValue K}.
Import Graph PathFinder.
Implicit Types (g : graphData K) (s t u v x y cur : K) (p q : list K)
  (st : bfs_state (K:=K)) (hops : K → nat).

Lemma bfs_inv_weaken g s (pending pending' : K → K → Prop) lo hops st :
  bfs_inv g s pending lo hops st →
  (∀ u v, u ∈ bfs_visited st → u ∉ bfs_queue st → pending u v →
          pending' u v ∨ (v ∈ bfs_visited st ∧ hops v ≤ S (hops u))) →
  bfs_inv g s pending' lo hops st.
Proof.
  intros [] Hp. split; try done.
  intros u v Hu Hq He. destruct (bfs_relaxed0 u v Hu Hq He) as [?|?]; [|by right].
  by apply Hp.
Qed.

Lemma size_unvisited (U V : gset K) v :
  v ∈ U → v ∉ V → size (U ∖ V) = S (size (U ∖ ({[v]} ∪ V))).
Proof.
  intros HU HV.
  assert (U ∖ V = {[v]} ∪ U ∖ ({[v]} ∪ V)) as ->.
  { apply set_eq. intros x. destruct (decide (x = v)); set_solver. }
  rewrite size_union by set_solver. by rewrite size_singleton.
Qed.

(** One turn of the inner loop. *)
Lemma bfs_visit_step g s cur v todo hops st :
  bfs_inner g s cur (v :: todo) hops st →
  ∃ hops', bfs_inner g s cur todo hops' (bfs_visit cur st v) ∧
    bfs_measure g s (bfs_visit cur st v) = bfs_measure g s st.
Proof.
  intros (Hinv & Hcur & Hcq & Hnd & Hedge).
  apply NoDup_cons in Hnd as [Hv Hnd].
  assert (Hedge' : ∀ v', v' ∈ todo → is_Some (entry g cur v')).
  { intros v' Hv'. apply Hedge. by right. }
  unfold bfs_visit. destruct (decide (v ∈ bfs_visited st)) as [Hvis|Hvis].
  { exists hops. split; [|done]. split; [|done].
    eapply bfs_inv_weaken; [exact Hinv|].
    intros u w Hu Hq [-> [->|Hw]%elem_of_cons]; [right | by left].
    split; [done|]. by apply (bfs_window_hi _ _ _ _ _ _ Hinv). }
  destruct Hinv as [[Hs Hs0] Hdom Hlev Htree Hqnd Hqv Hsort Hlo Hhi Hrel Huni].
  set (d := fadd (fget (bfs_distances st) cur) (Fin 1)).
  set (st' := {| bfs_queue := bfs_queue st ++ [v];
                 bfs_visited := {[v]} ∪ bfs_visited st;
                 bfs_distances := <[v := d]> (bfs_distances st);
                 bfs_previous := <[v := cur]> (bfs_previous st) |}).
  set (hops' := λ x, if decide (x = v) then S (hops cur) else hops x).
  assert (Hd : d = level (S (hops cur))).
  { unfold d, fget. by rewrite (Hlev cur Hcur). }
  assert (Hne : ∀ x, x ∈ bfs_visited st → x ≠ v) by (intros x Hx ->; done).
  assert (Hh : ∀ x, x ≠ v → hops' x = hops x).
  { intros x Hx. unfold hops'. by rewrite decide_False. }
  assert (Hhv : hops' v = S (hops cur)).
  { unfold hops'. by rewrite decide_True. }
  assert (Hhc : hops' cur = hops cur) by by apply Hh, Hne.
  clearbody hops'.
  assert (Hpv : bfs_previous st !! v = None).
  { apply eq_None_not_Some. by rewrite <- Hdom. }
  assert (Hvq : v ∉ bfs_queue st) by (intros Hq; by apply Hvis, Hqv).
  assert (Eq : bfs_queue st' = bfs_queue st ++ [v]) by done.
  assert (Ev : bfs_visited st' = {[v]} ∪ bfs_visited st) by done.
  assert (Ed : bfs_distances st' = <[v := d]> (bfs_distances st)) by done.
  assert (Ep : bfs_previous st' = <[v := cur]> (bfs_previous st)) by done.
  clearbody st'. exists hops'. unfold bfs_inner. rewrite Hhc.
  split; [split; [split|]|]; rewrite ?Eq, ?Ev, ?Ed, ?Ep.
  - split; [set_solver|]. rewrite Hh by by apply Hne. done.
  - intros x. simpl. rewrite lookup_insert_is_Some, elem_of_union,
      elem_of_singleton, <- Hdom.
    split; [intros [->|?]; [by left|] | intros [->|[? ?]]; [by left | by right]].
    right. split; [|done]. intros ->. done.
  - intros x [->%elem_of_singleton|Hx]%elem_of_union; simpl.
    + by rewrite lookup_insert_eq, Hhv, Hd.
    + rewrite lookup_insert_ne, Hh by by (apply not_eq_sym, Hne || apply Hne).
      by apply Hlev.
  - intros x [->%elem_of_singleton|Hx]%elem_of_union; simpl.
    + destruct (Htree cur Hcur) as (p & Hc & Hp & Hl & Hpn & Hpv').
      assert (Hvp : v ∉ p) by (intros Hin; by apply Hvis, Hpv').
      exists (p ++ [v]). split; [|split; [|split; [|split]]].
      * apply chain_step with cur.
        -- eapply chain_mono; [|exact Hc]. intros y Hy.
           apply lookup_insert_ne. intros ->. done.
        -- apply lookup_insert_eq.
        -- intros ->. done.
      * apply path_step with cur; [done|]. apply Hedge. by left.
      * rewrite length_app, Hhv, Hl. simpl. lia.
      * apply NoDup_app. split; [done|]. split; [|apply NoDup_singleton].
        intros y Hy ->%list_elem_of_singleton. done.
      * intros y [Hy| ->%list_elem_of_singleton]%elem_of_app; set_solver.
    + destruct (Htree x Hx) as (p & Hc & Hp & Hl & Hpn & Hpv').
      exists p. split; [|split; [done|split; [|split; [done|]]]].
      * eapply chain_mono; [|exact Hc]. intros y Hy.
        apply lookup_insert_ne. intros ->. by apply Hvis, Hpv'.
      * rewrite Hh by by apply Hne. done.
      * intros y Hy. apply elem_of_union. right. by apply Hpv'.
  - simpl. apply NoDup_app. split; [done|]. split; [|apply NoDup_singleton].
    intros y Hy ->%list_elem_of_singleton. done.
  - simpl. intros x [Hx| ->%list_elem_of_singleton]%elem_of_app; set_solver.
  - simpl. intros i j x y Hij Hi Hj.
    assert (Hx : x ∈ bfs_queue st ++ [v]) by by eapply list_elem_of_lookup_2.
    apply lookup_app_Some in Hj as [Hj|[Hlen Hj]].
    + assert (Hi' : bfs_queue st !! i = Some x).
      { apply lookup_lt_Some in Hj. rewrite lookup_app_l in Hi by lia. done. }
      assert (x ≠ v ∧ y ≠ v) as [? ?].
      { split; apply Hne, Hqv; by eapply list_elem_of_lookup_2. }
      rewrite !Hh by done. by eapply Hsort.
    + apply list_lookup_singleton_Some in Hj as [_ <-]. rewrite Hhv.
      apply elem_of_app in Hx as [Hx| ->%list_elem_of_singleton].
      * rewrite Hh by by apply Hne, Hqv. by apply Hhi, Hqv.
      * by rewrite Hhv.
  - simpl.
    intros x [Hx| ->%list_elem_of_singleton]%elem_of_app.
    + rewrite Hh by by apply Hne, Hqv. by apply Hlo.
    + rewrite Hhv. lia.
  - simpl.
    intros y [->%elem_of_singleton|Hy]%elem_of_union.
    + by rewrite Hhv.
    + rewrite Hh by by apply Hne. by apply Hhi.
  - simpl. intros u w Hu Hq He.
    assert (Huv : u ≠ v).
    { intros ->. apply Hq, elem_of_app. right. by left. }
    assert (Hu' : u ∈ bfs_visited st) by set_solver.
    assert (Hq' : u ∉ bfs_queue st).
    { intros Hin. apply Hq, elem_of_app. by left. }
    rewrite (Hh u) by done.
    destruct (Hrel u w Hu' Hq' He) as [[-> [->|Hw]%elem_of_cons]|[Hw Hle]].
    + right. split; [set_solver|]. rewrite Hhv. lia.
    + by left.
    + right. split; [set_solver|]. rewrite Hh by by apply Hne. done.
  - simpl. intros x [->%elem_of_singleton|Hx]%elem_of_union; [|by apply Huni].
    right. apply elem_of_edge_targets. exists cur. apply Hedge. by left.
  - simpl. split; [set_solver|]. split; [|done].
    intros [Hin| ->%list_elem_of_singleton]%elem_of_app; done.
  - unfold bfs_measure. rewrite Eq, Ev, length_app. simpl.
    rewrite (size_unvisited _ (bfs_visited st) v); [lia| |done].
    apply elem_of_union. right. apply elem_of_edge_targets.
    exists cur. apply Hedge. by left.
Qed.

(** The whole inner loop. *)
Lemma bfs_visit_all g s cur todo hops st :
  bfs_inner g s cur todo hops st →
  ∃ hops', bfs_inner g s cur [] hops' (foldl (bfs_visit cur) st todo) ∧
    bfs_measure g s (foldl (bfs_visit cur) st todo) = bfs_measure g s st.
Proof.
  revert hops st. induction todo as [|v todo IH]; intros hops st Hin;
    [by exists hops|].
  destruct (bfs_visit_step g s cur v todo hops st Hin) as (hops1 & Hin' & Hm).
  destruct (IH _ _ Hin') as (hops2 & Hin'' & Hm'). exists hops2. simpl.
  split; [done | congruence].
Qed.

(** Taking the head of the queue. *)
Lemma bfs_pop_step g s cur rest hops st :
  bfs_outer g s hops st → bfs_queue st = cur :: rest →
  bfs_inner g s cur (Successors g cur) hops (bfs_pop st rest) ∧
  S (bfs_measure g s (bfs_pop st rest)) = bfs_measure g s st.
Proof.
  intros [lo [[Hs Hs0] Hdom Hlev Htree Hqnd Hqv Hsort Hlo Hhi Hrel Huni]] Hq.
  rewrite Hq in *. apply NoDup_cons in Hqnd as [Hcr Hrnd].
  assert (Hcur : cur ∈ bfs_visited st) by (apply Hqv; left).
  assert (Hlc : lo ≤ hops cur) by (apply Hlo; left).
  split; [|unfold bfs_measure; rewrite Hq; simpl; lia].
  split; [|split; [done|split; [done|split; [apply NoDup_Successors|]]]].
  - split; try done; simpl.
    + intros x Hx. apply Hqv. by right.
    + intros i j x y Hij Hi Hj. apply (Hsort (S i) (S j)); [lia|done|done].
    + intros x Hx. apply list_elem_of_lookup in Hx as [i Hi].
      by apply (Hsort 0 (S i) cur x); [lia| |].
    + intros y Hy. specialize (Hhi y Hy). lia.
    + intros u v Hu Hnq He. destruct (decide (u = cur)) as [->|Hne].
      * left. split; [done|]. by apply elem_of_Successors.
      * destruct (Hrel u v Hu) as [[]|?]; [|done|by right].
        intros [?|?]%elem_of_cons; done.
  - intros v. by rewrite elem_of_Successors.
Qed.

Lemma bfs_inner_done g s cur hops st :
  bfs_inner g s cur [] hops st → bfs_outer g s hops st.
Proof.
  intros (Hinv & _). exists (hops cur).
  eapply bfs_inv_weaken; [exact Hinv|].
  intros u v _ _ [_ Hv]. by apply not_elem_of_nil in Hv.
Qed.

Lemma bfs_init_outer g s : bfs_outer g s (λ _, 0) (bfs_init s).
Proof.
  exists 0. split; simpl.
  - split; [by apply elem_of_singleton | done].
  - intros x. rewrite elem_of_singleton, lookup_singleton_is_Some. naive_solver.
  - intros x ->%elem_of_singleton. apply lookup_singleton_eq.
  - intros x ->%elem_of_singleton. exists [s].
    split; [constructor|]. split; [constructor|].
    split; [done|]. split; [apply NoDup_singleton|].
    intros y ->%list_elem_of_singleton. by apply elem_of_singleton.
  - apply NoDup_singleton.
  - intros x ->%list_elem_of_singleton. by apply elem_of_singleton.
  - intros i j x y _ [_ <-]%list_lookup_singleton_Some
      [_ <-]%list_lookup_singleton_Some. done.
  - lia.
  - intros y ->%elem_of_singleton. lia.
  - intros u v ->%elem_of_singleton Hq. exfalso. apply Hq. left.
  - intros x ->%elem_of_singleton. by left.
Qed.

Lemma bfs_init_measure g s :
  bfs_measure g s (bfs_init s) ≤ S (size (edge_targets g)).
Proof.
  unfold bfs_measure. simpl.
  assert (size (({[s]} ∪ edge_targets g) ∖ {[s]}) ≤ size (edge_targets g));
    [|lia].
  apply subseteq_size. set_solver.
Qed.

(** The outer loop empties the queue before its fuel runs out. *)
Lemma bfs_loop_total g s fuel hops st :
  bfs_outer g s hops st → bfs_measure g s st ≤ fuel →
  ∃ st' hops', bfs_loop fuel g st = Some st' ∧ bfs_outer g s hops' st' ∧
    bfs_queue st' = [].
Proof.
  revert hops st. induction fuel as [|fuel IH]; intros hops st Hout Hm.
  - assert (bfs_queue st = []) as Hq.
    { unfold bfs_measure in Hm. apply nil_length_inv. lia. }
    exists st, hops. simpl. by rewrite Hq.
  - simpl. destruct (bfs_queue st) as [|cur rest] eqn:Hq; [by exists st, hops|].
    destruct (bfs_pop_step g s cur rest hops st Hout Hq) as [Hin Hm1].
    destruct (bfs_visit_all g s cur _ _ _ Hin) as (hops' & Hin' & Hm2).
    unfold Successors in Hin', Hm2.
    apply (IH hops'); [by eapply bfs_inner_done | lia].
Qed.

Lemma BFS_total g s :
  ∃ st hops, bfs_outer g s hops st ∧ bfs_queue st = [] ∧
        BFS g s = Some (bfs_distances st, bfs_previous st).
Proof.
  destruct (bfs_loop_total g s (S (size (edge_targets g))) (λ _, 0) (bfs_init s))
    as (st & hops & Hl & Hout & Hq);
    [apply bfs_init_outer | apply bfs_init_measure|].
  exists st, hops. split; [done|]. split; [done|]. unfold BFS. by rewrite Hl.
Qed.

(** Once the queue is empty every node on a path from the start has been
    visited, with a hop count no larger than the path allows. *)
Lemma bfs_complete g s hops st t p :
  bfs_outer g s hops st → bfs_queue st = [] → path g s t p →
  t ∈ bfs_visited st ∧ S (hops t) ≤ length p.
Proof.
  intros [lo Hinv] Hq. induction 1 as [|u v p Hp [Hu Hl] He].
  - destruct (bfs_start _ _ _ _ _ _ Hinv) as [? ->]. simpl. split; [done|lia].
  - destruct (bfs_relaxed _ _ _ _ _ _ Hinv u v Hu) as [[]|[Hv Hle]]; [|done|].
    + rewrite Hq. apply not_elem_of_nil.
    + split; [done|]. rewrite length_app. simpl. lia.
Qed.

End bfs_facts.

Section bfs_claims.
Context `{Countable K} `{!MapRange K} `{!ZeroValue K}.
Import Graph PathFinder.
Implicit Types (g : graphData K) (s t u v x y cur : K) (p q : list K).

(** What [BFSTo] returns for a target other than the start. *)
Lemma BFSTo_cases g s t :
  t ≠ s →
  (¬ reachable g s t ∧ BFSTo g s t = Some ([], 0, PInf)) ∨
  (∃ p, BFSTo g s t = Some (p, length p, level (length p - 1)) ∧
        path g s t p ∧ ∀ q, path g s t q → length p ≤ length q).
Proof.
  intros Hne. destruct (BFS_total g s) as (st & hops & Hout & Hq & HBFS).
  unfold BFSTo. rewrite decide_False by done. rewrite HBFS. simpl.
  destruct Hout as [lo Hinv].
  destruct (bfs_previous st !! t) as [u|] eqn:Ht.
  - right. assert (Hv : t ∈ bfs_visited st).
    { apply (bfs_dom _ _ _ _ _ _ Hinv). by eexists. }
    destruct (bfs_tree _ _ _ _ _ _ Hinv t Hv) as (p & Hc & Hp & Hl & Hnd & Hsub).
    exists p. rewrite (build_path_chain _ s t p Hc Hnd).
    + assert (Hlen : length p - 1 = hops t) by (rewrite Hl; lia).
      rewrite Hlen. unfold fget. rewrite (bfs_level _ _ _ _ _ _ Hinv t Hv).
      split; [done|]. split; [done|].
      intros q Hq'. rewrite Hl.
      by apply (bfs_complete g s hops st t q (ex_intro _ lo Hinv) Hq).
    + intros y Hy. apply (bfs_dom _ _ _ _ _ _ Hinv). by apply Hsub.
  - left. split; [|done]. intros [p Hp].
    destruct (bfs_complete g s hops st t p (ex_intro _ lo Hinv) Hq Hp) as [Hv _].
    apply (bfs_dom _ _ _ _ _ _ Hinv) in Hv as [? ?]. congruence.
Qed.

(** C2.  For a target [t ≠ s] that can be reached from [s], [BFSTo]
    returns a path from [s] to [t] along adjacency entries with the least
    node count any such path has, its length, and as hop distance that
    count minus one: the [float64] that adding [1.0] once per hop yields,
    which is the number of hops itself up to [2^53] of them. *)
Theorem BFSTo_shortest g s t :
  reachable g s t → t ≠ s →
  ∃ p, BFSTo g s t = Some (p, length p, level (length p - 1)) ∧
       path_from_to g s t p ∧
       (∀ q, path_from_to g s t q → length p ≤ length q) ∧
       ((Z.of_nat (length p) ≤ 2 ^ 53)%Z →
        level (length p - 1) = Fin (Z.of_nat (length p) - 1)).
Proof.
  intros Hr Hne. destruct (BFSTo_cases g s t Hne) as [[Hnr _]|(p & HB & Hp & Hmin)];
    [done|].
  exists p. split; [done|]. split; [by apply path_iff|]. split.
  - intros q Hq. by apply Hmin, path_iff.
  - intros Hlen. apply path_nonempty in Hp. destruct p as [|a p]; [done|].
    rewrite level_Fin by (simpl in *; lia). f_equal. simpl. lia.
Qed.

Lemma BFSTo_unreachable g s t :
  s ≠ t → (BFSTo g s t = Some ([], 0, PInf) ↔ ¬ reachable g s t).
Proof.
  intros Hne.
  destruct (BFSTo_cases g s t (not_eq_sym Hne)) as [[Hnr HB]|(p & HB & Hp & _)].
  - by rewrite HB.
  - rewrite HB. split.
    + intros Heq. injection Heq as -> _ _. by apply path_nonempty in Hp.
    + intros Hnr. exfalso. apply Hnr. by exists p.
Qed.

End bfs_claims.

(** C2 on the undirected line 1 - 2 - 3, from node 1 to node 3. *)
Lemma BFSTo_shortest_witness :
  let g : graphData Z :=
    UndirectedGraph.AddEdge (UndirectedGraph.AddEdge ∅ 1%Z 2%Z (Fin 1)) 2%Z 3%Z (Fin 1) in
  PathFinder.reachable g 1%Z 3%Z ∧ 3%Z ≠ 1%Z ∧
  ∃ p, PathFinder.BFSTo g 1%Z 3%Z
       = Some (p, length p, PathFinder.level (length p - 1)) ∧
       PathFinder.path_from_to g 1%Z 3%Z p ∧
       (∀ q, PathFinder.path_from_to g 1%Z 3%Z q → length p ≤ length q) ∧
       ((Z.of_nat (length p) ≤ 2 ^ 53)%Z →
        PathFinder.level (length p - 1) = Fin (Z.of_nat (length p) - 1)).
Proof.
  intros g.
  assert (Hr : PathFinder.reachable g 1%Z 3%Z).
  { exists (([1%Z] ++ [2%Z]) ++ [3%Z]).
    apply PathFinder.path_step with 2%Z; [|vm_compute; by eexists].
    apply PathFinder.path_step with 1%Z; [|vm_compute; by eexists].
    constructor. }
  split; [exact Hr|]. split; [done|].
  apply (BFSTo_shortest g 1%Z 3%Z Hr). done.
Defined.


(** ** Dijkstra: the scan for the minimum and the shape of the loop *)

Section dijkstra_loop_facts.
Context `{Countable K} `{!MapRange K} `{!ZeroValue K}.
Import Graph PathFinder.
Implicit Types (g : graphData K) (s t u v x y cur : K) (p q : list K)
  (st : dijkstra_state (K:=K)) (d : gmap K float64).

Lemma min_scan_lt d q i mi md n :
  mi < n → i + length q ≤ n → min_scan d q i mi md < n.
Proof.
  revert i mi md. induction q as [|x q IH]; intros i mi md Hmi Hi; [done|].
  simpl in *. destruct (flt (fget d x) md); apply IH; lia.
Qed.

(** The scan returns the index of a queued node of least distance. *)
Lemma min_scan_spec d pre q mi md :
  (∀ y, y ∈ pre ++ q → nonneg (fget d y)) →
  (∀ y, y ∈ pre → fle md (fget d y) = true) →
  (pre = [] ∧ mi = 0 ∧ md = PInf) ∨ (∃ x, pre !! mi = Some x ∧ fget d x = md) →
  pre ++ q ≠ [] →
  ∃ cur, (pre ++ q) !! min_scan d q (length pre) mi md = Some cur ∧
         ∀ y, y ∈ pre ++ q → fle (fget d cur) (fget d y) = true.
Proof.
  revert pre mi md. induction q as [|x q IH]; intros pre mi md Hnum Hle Hmi Hne.
  - rewrite app_nil_r in *. simpl.
    destruct Hmi as [(-> & _)|(x & Hx & <-)]; [done|]. by exists x.
  - assert (Hx : nonneg (fget d x)) by (apply Hnum; set_solver).
    assert (Hmd : nonneg md).
    { destruct Hmi as [(_ & _ & ->)|(z & Hz & <-)]; [done|].
      apply Hnum, elem_of_app. left. by eapply list_elem_of_lookup_2. }
    assert (Hpre : ∀ y, y ∈ pre → nonneg (fget d y)).
    { intros y Hy. apply Hnum, elem_of_app. by left. }
    assert (Happ : pre ++ x :: q = (pre ++ [x]) ++ q) by by rewrite <- (assoc_L (++)).
    assert (Hlen : S (length pre) = length (pre ++ [x])).
    { rewrite length_app. simpl. lia. }
    simpl. rewrite Happ, Hlen.
    destruct (flt (fget d x) md) eqn:Hlt.
    + apply IH.
      * by rewrite <- Happ.
      * intros y [Hy| ->%list_elem_of_singleton]%elem_of_app.
        -- apply flt_fle; [done|by apply Hpre|].
           eapply (flt_fle_trans _ md); [done|done|by apply Hpre|exact Hlt|].
           by apply Hle.
        -- by apply fle_refl.
      * right. exists x. split; [|done].
        rewrite lookup_app_r by lia. by rewrite Nat.sub_diag.
      * by destruct pre.
    + apply IH.
      * by rewrite <- Happ.
      * intros y [Hy| ->%list_elem_of_singleton]%elem_of_app; [by apply Hle|].
        by apply flt_false_fle.
      * right. destruct Hmi as [(-> & -> & ->)|(z & Hz & <-)].
        -- exists x. split; [done|].
           apply fle_antisym; [done|done|by apply fle_PInf|].
           by apply flt_false_fle.
        -- exists z. split; [|done]. by apply lookup_app_l_Some.
      * by destruct pre.
Qed.

Lemma delete_middle (l : list K) r cur :
  l !! r = Some cur → ∃ l1 l2, l = l1 ++ cur :: l2 ∧ delete r l = l1 ++ l2.
Proof.
  intros Hr. exists (take r l), (drop (S r) l). split.
  - symmetry. by apply take_drop_middle.
  - apply delete_take_drop.
Qed.

Lemma dijkstra_extract_total st :
  dj_queue st ≠ [] →
  ∃ r cur, dj_queue st !! r = Some cur ∧
    r = min_scan (dj_distances st) (dj_queue st) 0 0 PInf ∧
    dijkstra_extract st
    = Some (cur, {| dj_queue := delete r (dj_queue st);
                    dj_distances := dj_distances st;
                    dj_previous := dj_previous st |}).
Proof.
  intros Hq. unfold dijkstra_extract.
  set (r := min_scan (dj_distances st) (dj_queue st) 0 0 PInf).
  assert (Hr : r < length (dj_queue st)).
  { apply min_scan_lt; [|simpl; lia]. destruct (dj_queue st); [done|simpl; lia]. }
  apply lookup_lt_is_Some in Hr as [cur Hcur].
  exists r, cur. split; [done|]. split; [done|]. by rewrite Hcur.
Qed.

Lemma dijkstra_extract_min st r cur :
  (∀ y, y ∈ dj_queue st → nonneg (dj_dist st y)) →
  dj_queue st !! r = Some cur →
  r = min_scan (dj_distances st) (dj_queue st) 0 0 PInf →
  ∀ y, y ∈ dj_queue st → fle (dj_dist st cur) (dj_dist st y) = true.
Proof.
  intros Hnum Hcur ->.
  destruct (min_scan_spec (dj_distances st) [] (dj_queue st) 0 PInf)
    as (cur' & Hc' & Hmin); simpl; try done.
  - intros y Hy. by apply not_elem_of_nil in Hy.
  - left. done.
  - intros Hnil. by rewrite Hnil in Hcur.
  - simpl in Hc'. rewrite Hcur in Hc'. by injection Hc' as <-.
Qed.

Lemma relax_queue cur st e : dj_queue (relax cur st e) = dj_queue st.
Proof. unfold relax. by destruct (flt _ _). Qed.

Lemma relax_all_queue cur st todo :
  dj_queue (foldl (relax cur) st todo) = dj_queue st.
Proof.
  revert st. induction todo as [|e todo IH]; intros st; [done|].
  simpl. by rewrite IH, relax_queue.
Qed.

(** A property [P] that holds at the head of the outer loop, and that the
    extraction and every relaxation carry along in the form [R], holds when
    the loop ends; the loop ends with an empty queue within its fuel. *)
Lemma dijkstra_loop_rule g (P : dijkstra_state → Prop)
    (R : K → list (K * float64) → dijkstra_state → Prop) :
  (∀ st r cur,
     P st → dj_queue st !! r = Some cur →
     r = min_scan (dj_distances st) (dj_queue st) 0 0 PInf →
     R cur (range (Some cur) (adjacency g cur))
       {| dj_queue := delete r (dj_queue st);
          dj_distances := dj_distances st;
          dj_previous := dj_previous st |}) →
  (∀ cur e todo st, R cur (e :: todo) st → R cur todo (relax cur st e)) →
  (∀ cur st, R cur [] st → P st) →
  ∀ fuel st, P st → length (dj_queue st) ≤ fuel →
    ∃ st', dijkstra_loop fuel g st = Some st' ∧ P st' ∧ dj_queue st' = [].
Proof.
  intros Hext Hrel Hdone. induction fuel as [|fuel IH]; intros st HP Hlen.
  - assert (dj_queue st = []) as Hq by (apply nil_length_inv; lia).
    exists st. simpl. by rewrite Hq.
  - simpl. destruct (dj_queue st) as [|x rest] eqn:Hq; [by exists st|].
    destruct (dijkstra_extract_total st) as (r & cur & Hcur & Hr & Hex);
      [by rewrite Hq|].
    unfold dijkstra_step. rewrite Hex. simpl.
    set (st1 := {| dj_queue := delete r (dj_queue st);
                   dj_distances := dj_distances st;
                   dj_previous := dj_previous st |}).
    assert (HR : R cur (range (Some cur) (adjacency g cur)) st1)
      by by apply Hext.
    assert (Hall : ∀ todo st, R cur todo st → R cur [] (foldl (relax cur) st todo)).
    { induction todo as [|e todo IHt]; intros st2 H2; [done|].
      simpl. by apply IHt, Hrel. }
    apply IH; [by eapply Hdone, Hall|].
    rewrite relax_all_queue. simpl. rewrite length_delete by by eexists.
    simpl in Hlen. rewrite Hq. simpl. lia.
Qed.

End dijkstra_loop_facts.

(** ** Dijkstra with finite weights that are not negative *)

Section dijkstra_facts.
Context `{Countable K} `{!MapRange K} `{!ZeroValue K}.
Import Graph PathFinder.
Implicit Types (g : graphData K) (s t u v x y cur : K) (p : list K)
  (st : dijkstra_state (K:=K)).

Lemma last_cons_default (a b : K) (l : list K) :
  default a (last (b :: l)) = default b (last l).
Proof. rewrite last_cons. by destruct (last l). Qed.

Lemma weight_from_snoc g acc a rest v :
  weight_from g acc a (rest ++ [v])
  = fadd (weight_from g acc a rest) (weight g (default a (last rest)) v).
Proof.
  revert acc a. induction rest as [|b rest IH]; intros acc a; [done|].
  simpl weight_from. rewrite IH. by rewrite last_cons_default.
Qed.

Lemma path_weight_snoc g s u p v :
  path g s u p →
  path_weight g (p ++ [v]) = fadd (path_weight g p) (weight g u v).
Proof.
  intros Hp. assert (Hl := path_last g s u p Hp).
  destruct p as [|a rest]; [done|]. simpl.
  rewrite weight_from_snoc. do 2 f_equal.
  rewrite last_cons in Hl. destruct (last rest); by injection Hl.
Qed.

Lemma weight_entry g u v w : entry g u v = Some w → weight g u v = w.
Proof. unfold weight. by intros ->. Qed.

Lemma dijkstra_enqueue_all (l : list K) st :
  let st' := foldl dijkstra_enqueue st l in
  dj_queue st' = dj_queue st ++ l ∧
  dj_previous st' = dj_previous st ∧
  ∀ x, dj_distances st' !! x
       = if decide (x ∈ l) then Some PInf else dj_distances st !! x.
Proof.
  revert st. induction l as [|a l IH]; intros st.
  - simpl. rewrite app_nil_r. done.
  - destruct (IH (dijkstra_enqueue st a)) as (Hq & Hp & Hd). simpl in *.
    split; [by rewrite Hq, <- (assoc_L (++))|]. split; [done|].
    intros x. rewrite Hd. destruct (decide (x ∈ l)) as [Hx|Hx].
    + by rewrite decide_True by by right.
    + rewrite lookup_insert. destruct (decide (a = x)) as [->|Hne].
      * by rewrite decide_True by left.
      * rewrite decide_False; [done|].
        intros [?|?]%elem_of_cons; [by subst | done].
Qed.

Lemma dijkstra_init_spec g s :
  let st := dijkstra_init g s in
  dj_queue st = Nodes g ∧ dj_previous st = {[s := s]} ∧
  dj_distances st !! s = Some (Fin 0) ∧
  ∀ x, x ≠ s → dj_distances st !! x
               = if decide (is_Some (g !! x)) then Some PInf else None.
Proof.
  unfold dijkstra_init.
  destruct (dijkstra_enqueue_all (Nodes g) (mkDijkstra [] ∅ ∅)) as (Hq & Hp & Hd).
  simpl in *. split; [done|]. split; [by rewrite Hp, insert_empty|].
  split; [apply lookup_insert_eq|]. intros x Hx.
  rewrite lookup_insert_ne by done. rewrite Hd, lookup_empty.
  apply decide_ext, elem_of_Nodes.
Qed.

Lemma dj_dist_init g s x :
  dj_dist (dijkstra_init g s) x
  = if decide (x = s) then Fin 0
    else if decide (is_Some (g !! x)) then PInf else Fin 0.
Proof.
  destruct (dijkstra_init_spec g s) as (_ & _ & Hs & Hd).
  unfold dj_dist, fget. case_decide; subst; [by rewrite Hs|].
  rewrite Hd by done. by case_decide.
Qed.

Lemma weights_ok_intro g : weights_nonneg g → weights_valid g → weights_ok g.
Proof. intros Hn Hv u v w He. split; [by eapply Hn | by eapply Hv]. Qed.

Lemma dj_init_outer g s : dj_outer g s (dijkstra_init g s).
Proof.
  destruct (dijkstra_init_spec g s) as (Hq & Hp & Hs & Hd).
  assert (Hnn : ∀ x, nonneg (dj_dist (dijkstra_init g s) x)).
  { intros x. rewrite dj_dist_init. by repeat case_decide. }
  exists (Fin 0). split.
  - split; [done|]. rewrite Hp. apply lookup_singleton_eq.
  - done.
  - done.
  - rewrite Hq. apply NoDup_Nodes.
  - intros x. rewrite Hq, elem_of_Nodes. intros Hx. rewrite dj_dist_init.
    case_decide; [done|]. by rewrite decide_False.
  - intros y _. by apply fle_zero.
  - intros u v w. rewrite Hq, elem_of_Nodes. intros Hu He. exfalso.
    apply Hu. eapply entry_is_node. by rewrite He.
  - intros x. rewrite Hp, lookup_singleton_is_Some. intros <-.
    exists [s]. split; [constructor|]. split; [constructor|].
    split; [apply NoDup_singleton|]. split.
    { intros y ->%list_elem_of_singleton. by rewrite lookup_singleton_eq. }
    split; [by intros y ->%list_elem_of_singleton|].
    rewrite dj_dist_init, decide_True by done. done.
  - intros x Hx Hfin. rewrite dj_dist_init in Hfin.
    rewrite Hp, lookup_singleton_is_Some.
    case_decide; [done|]. by rewrite decide_True in Hfin.
Qed.

Lemma dj_extract_inner g s st r cur :
  dj_outer g s st → dj_queue st !! r = Some cur →
  r = min_scan (dj_distances st) (dj_queue st) 0 0 PInf →
  dj_inner g s cur (range (Some cur) (adjacency g cur))
    {| dj_queue := delete r (dj_queue st);
       dj_distances := dj_distances st;
       dj_previous := dj_previous st |}.
Proof.
  intros [lo [Hst Hnn Hlo Hnd Hle Hge Hrel Htree Hreach]] Hcur Hr.
  assert (Hmin := dijkstra_extract_min st r cur (λ y _, Hnn y) Hcur Hr).
  destruct (delete_middle _ _ _ Hcur) as (l1 & l2 & Hl & Hdel).
  rewrite Hl in Hnd. apply NoDup_app in Hnd as (Hnd1 & Hdis & Hnd2).
  apply NoDup_cons in Hnd2 as [Hc2 Hnd2].
  assert (Hin : ∀ x, x ∈ dj_queue st ↔ x = cur ∨ x ∈ l1 ++ l2).
  { intros x. rewrite Hl, !elem_of_app, elem_of_cons. tauto. }
  assert (Hcq : cur ∉ l1 ++ l2).
  { rewrite elem_of_app. intros [H1|H2]; [|done]. apply (Hdis cur H1). left. }
  split; [|split; [by rewrite Hdel|split; [apply NoDup_range_fst|]]].
  - split; simpl; rewrite ?Hdel; try done.
    + apply Hnn.
    + apply NoDup_app. split; [done|]. split; [|done].
      intros x H1 H2. apply (Hdis x H1). by right.
    + intros x Hx. destruct (decide (x = cur)) as [->|Hne].
      * apply fle_refl, Hnn.
      * eapply (fle_trans _ lo); [apply Hnn|done|apply Hnn|apply Hle|apply Hge].
        -- rewrite Hin. tauto.
        -- apply Hin. by left.
    + intros y Hy. apply Hmin, Hin. by right.
    + intros u v w Hu He. destruct (decide (u = cur)) as [->|Hne].
      * left. split; [done|]. apply elem_of_range_fst.
        rewrite entry_adjacency, He. by eexists.
      * destruct (Hrel u v w) as [[]|?]; [|done|by right]. rewrite Hin. tauto.
    + intros x Hx. destruct (Htree x Hx) as (p & ? & ? & ? & ? & Hset & ?).
      exists p. repeat (split; [done|]). split; [|done].
      intros y Hy Hyx Hyq. apply (Hset y Hy Hyx), Hin. by right.
  - intros [v w] Hin'%elem_of_range. simpl. by rewrite <- entry_adjacency.
Qed.

Lemma dj_inv_weaken g s (pending pending' : K → K → Prop) lo st :
  dj_inv g s pending lo st →
  (∀ u v w, u ∉ dj_queue st → entry g u v = Some w → pending u v →
     pending' u v ∨ fle (dj_dist st v) (fadd (dj_dist st u) w) = true) →
  dj_inv g s pending' lo st.
Proof.
  intros [] Hp. split; try done.
  intros u v w Hu He. destruct (dj_relaxed0 u v w Hu He) as [?|?]; [|by right].
  by apply (Hp u v w).
Qed.

(** One relaxation. *)
Lemma dj_relax_step g s cur e todo st :
  weights_ok g →
  dj_inner g s cur (e :: todo) st → dj_inner g s cur todo (relax cur st e).
Proof.
  intros Hw (Hinv & Hcq & Hnd & Hedge). destruct e as [v w].
  assert (Hvw : entry g cur v = Some w) by (apply (Hedge (v, w)); left).
  assert (Hwok := Hw cur v w Hvw).
  rewrite fmap_cons in Hnd. apply NoDup_cons in Hnd as [Hv Hnd]. simpl in Hv.
  assert (Hedge' : ∀ e, e ∈ todo → entry g cur e.1 = Some e.2).
  { intros e He. apply Hedge. by right. }
  assert (Hnc := dj_nonneg _ _ _ _ _ Hinv cur).
  assert (Hnv := dj_nonneg _ _ _ _ _ Hinv v).
  destruct (fadd_nonneg _ w Hnc Hwok) as [Hna Hla].
  unfold relax. simpl. fold (dj_dist st cur) (dj_dist st v).
  destruct (flt (fadd (dj_dist st cur) w) (dj_dist st v)) eqn:Hlt.
  2:{ split; [|done]. eapply dj_inv_weaken; [exact Hinv|].
      intros u v' w' Hu He [-> [->|Hin]%elem_of_cons]; [right | by left].
      simpl in *. assert (w' = w) as -> by congruence.
      by apply flt_false_fle. }
  destruct Hinv as [[Hs Hps] Hnn Hlo Hqnd Hle Hge Hrel Htree Hreach].
  set (alt := fadd (dj_dist st cur) w) in *.
  assert (Hfa : finite alt) by by eapply (flt_finite alt (dj_dist st v)).
  assert (Hfc : finite (dj_dist st cur))
    by by eapply (fle_finite (dj_dist st cur) alt).
  assert (Hvq : v ∈ dj_queue st).
  { destruct (decide (v ∈ dj_queue st)) as [|Hn]; [done|]. exfalso.
    specialize (Hle v Hn).
    assert (Hf := flt_fle_trans _ _ _ Hna Hnv Hnc Hlt Hle).
    by rewrite (fle_flt_false alt (dj_dist st cur)) in Hf. }
  assert (Hvc : v ≠ cur) by (intros ->; done).
  assert (Hvs : v ≠ s).
  { intros ->. unfold dj_dist at 1, fget in Hlt. rewrite Hs in Hlt. simpl in Hlt.
    by rewrite flt_nonneg_zero in Hlt. }
  set (st' := {| dj_queue := dj_queue st;
                 dj_distances := <[v := alt]> (dj_distances st);
                 dj_previous := <[v := cur]> (dj_previous st) |}).
  assert (Hd : ∀ x, x ≠ v → dj_dist st' x = dj_dist st x).
  { intros x Hx. unfold dj_dist, fget. simpl. by rewrite lookup_insert_ne. }
  assert (Hdv : dj_dist st' v = alt).
  { unfold dj_dist, fget. simpl. by rewrite lookup_insert_eq. }
  assert (Hdc : dj_dist st' cur = dj_dist st cur) by (rewrite Hd by done; done).
  assert (Eq : dj_queue st' = dj_queue st) by done.
  assert (Ed : dj_distances st' = <[v := alt]> (dj_distances st)) by done.
  assert (Ep : dj_previous st' = <[v := cur]> (dj_previous st)) by done.
  clearbody st'.
  assert (Hsome : ∀ x, is_Some (dj_previous st !! x) → is_Some (dj_previous st' !! x)).
  { intros x Hx. rewrite Ep, lookup_insert_is_Some. destruct (decide (v = x)); tauto. }
  assert (Hnn' : ∀ x, nonneg (dj_dist st' x)).
  { intros x. destruct (decide (x = v)) as [->|Hx].
    - by rewrite Hdv.
    - rewrite Hd by done. apply Hnn. }
  split; [split|split; [by rewrite Eq|done]]; rewrite ?Eq, ?Hdc.
  - rewrite Ed, Ep, !lookup_insert_ne by done. done.
  - done.
  - done.
  - done.
  - intros x Hx. rewrite Hd by (intros ->; done). by apply Hle.
  - intros y Hy. destruct (decide (y = v)) as [->|Hne].
    + by rewrite Hdv.
    + rewrite Hd by done. by apply Hge.
  - intros u v' w' Hu He.
    assert (Huv : u ≠ v) by (intros ->; done).
    rewrite (Hd u) by done.
    destruct (Hrel u v' w' Hu He) as [[-> [->|Hin]%elem_of_cons]|Hold].
    + right. simpl in *. assert (w' = w) as -> by congruence.
      rewrite Hdv. by apply fle_refl.
    + by left.
    + right. destruct (decide (v' = v)) as [->|Hne].
      * rewrite Hdv.
        destruct (fadd_nonneg (dj_dist st u) w' (Hnn u) (Hw u v w' He)) as [Hnu _].
        eapply (fle_trans _ (dj_dist st v)); [done|done|done| |exact Hold].
        by apply flt_fle.
      * by rewrite Hd.
  - intros x Hx. destruct (decide (x = v)) as [->|Hne].
    + destruct (Htree cur) as (p & Hch & Hp & Hpn & Hpp & Hset & Hpw & _).
      { apply Hreach; [eapply entry_is_node; by rewrite Hvw | done]. }
      assert (Hvp : v ∉ p).
      { intros Hin. destruct (decide (v = cur)) as [|Hn]; [done|].
        by apply (Hset v Hin Hn). }
      exists (p ++ [v]). split; [|split; [|split; [|split; [|split; [|split]]]]].
      * apply chain_step with cur; [|by rewrite Ep, lookup_insert_eq|done].
        eapply chain_mono; [|exact Hch]. intros y Hy. rewrite Ep.
        apply lookup_insert_ne. intros ->. done.
      * apply path_step with cur; [done|]. by rewrite Hvw.
      * apply NoDup_app. split; [done|]. split; [|apply NoDup_singleton].
        intros y Hy ->%list_elem_of_singleton. done.
      * intros y [Hy| ->%list_elem_of_singleton]%elem_of_app; [by apply Hsome, Hpp|].
        rewrite Ep, lookup_insert_eq. by eexists.
      * intros y [Hy| ->%list_elem_of_singleton]%elem_of_app Hyv; [|done].
        destruct (decide (y = cur)) as [->|Hn]; [done|]. by apply Hset.
      * rewrite (path_weight_snoc g s cur p v Hp), Hpw, Hdv.
        by rewrite (weight_entry g cur v w).
      * by rewrite Hdv.
    + assert (Hx' : is_Some (dj_previous st !! x)).
      { rewrite Ep, lookup_insert_ne in Hx by done. done. }
      destruct (Htree x Hx') as (p & Hch & Hp & Hpn & Hpp & Hset & Hpw & Hfin).
      assert (Hvp : v ∉ p).
      { intros Hin. by apply (Hset v Hin (not_eq_sym Hne)). }
      exists p. split; [|split; [done|split; [done|split; [|split; [done|]]]]].
      * eapply chain_mono; [|exact Hch]. intros y Hy. rewrite Ep.
        apply lookup_insert_ne. intros ->. done.
      * intros y Hy. by apply Hsome, Hpp.
      * by rewrite Hd.
  - intros x Hx Hfin. destruct (decide (x = v)) as [->|Hne].
    + rewrite Ep, lookup_insert_eq. by eexists.
    + rewrite Hd in Hfin by done. by apply Hsome, Hreach.
Qed.

Lemma dj_inner_done g s cur st : dj_inner g s cur [] st → dj_outer g s st.
Proof.
  intros (Hinv & _). exists (dj_dist st cur).
  eapply dj_inv_weaken; [exact Hinv|].
  intros u v w _ _ [_ Hv]. by apply not_elem_of_nil in Hv.
Qed.

(** [Dijkstra] returns, and what it returns is a state of the above kind
    with an empty queue. *)
Lemma Dijkstra_run g s :
  weights_ok g →
  ∃ st, Dijkstra g s = Some (dj_distances st, dj_previous st) ∧
        dj_outer g s st ∧ dj_queue st = [].
Proof.
  intros Hw.
  destruct (dijkstra_loop_rule g (dj_outer g s) (dj_inner g s))
    with (fuel := length (dj_queue (dijkstra_init g s)))
         (st := dijkstra_init g s) as (st & Hl & Hout & Hq).
  - intros st r cur. apply dj_extract_inner.
  - intros cur e todo st. by apply dj_relax_step.
  - apply dj_inner_done.
  - apply dj_init_outer.
  - done.
  - exists st. unfold Dijkstra. by rewrite Hl.
Qed.

(** No path is cheaper than the distance found. *)
Lemma dj_lower_bound g s st t p :
  weights_ok g → dj_outer g s st → dj_queue st = [] →
  path g s t p →
  nonneg (path_weight g p) ∧
  fle (dj_dist st t) (path_weight g p) = true.
Proof.
  intros Hw [lo Hinv] Hq.
  induction 1 as [|u v p Hp [Hnp Hle] [w He]].
  - simpl. split; [done|]. unfold dj_dist, fget.
    destruct (dj_start _ _ _ _ _ Hinv) as [-> _]. done.
  - rewrite (path_weight_snoc g s u p v Hp), (weight_entry g u v _ He).
    destruct (fadd_nonneg _ w Hnp (Hw u v w He)) as [Hna _].
    split; [done|].
    assert (Hnu := dj_nonneg _ _ _ _ _ Hinv u).
    destruct (fadd_nonneg _ w Hnu (Hw u v w He)) as [Hnb _].
    destruct (dj_relaxed _ _ _ _ _ Hinv u v w) as [[]|Hrel]; [|done|].
    { rewrite Hq. apply not_elem_of_nil. }
    eapply (fle_trans _ (fadd (dj_dist st u) w));
      [apply (dj_nonneg _ _ _ _ _ Hinv)|done|done|exact Hrel|].
    by apply fadd_mono; [| |apply (Hw u v w He)|].
Qed.

(** With the queue empty, the nodes that have a parent are the nodes
    that some path reaches at a finite total weight. *)
Lemma dj_complete g s st t :
  closed g → weights_ok g → dj_outer g s st → dj_queue st = [] →
  (is_Some (dj_previous st !! t) ↔ reachable_finite g s t).
Proof.
  intros Hc Hw Hout Hq. assert (Hout' := Hout). destruct Hout' as [lo Hinv].
  split.
  - intros Ht. destruct (dj_tree _ _ _ _ _ Hinv t Ht)
      as (p & _ & Hp & _ & _ & _ & Hpw & Hfin).
    exists p. split; [done|]. by rewrite Hpw.
  - intros (p & Hp & Hfin).
    destruct (dj_lower_bound g s st t p Hw Hout Hq Hp) as [Hnp Hle].
    destruct (path_target g s t p Hp) as [->|[u Hu]].
    + destruct (dj_start _ _ _ _ _ Hinv) as [_ ->]. by eexists.
    + apply (dj_reached _ _ _ _ _ Hinv); [by apply (Hc u t)|].
      eapply fle_finite; [apply (dj_nonneg _ _ _ _ _ Hinv)|exact Hnp|exact Hle|done].
Qed.

(** On a graph whose weights are not negative [DijkstraTo] finds, for
    every target that some path reaches at a finite total weight, a path
    of least total weight that passes no node twice. *)
Lemma DijkstraTo_least g s t :
  closed g → weights_ok g → reachable_finite g s t →
  ∃ p, DijkstraTo g s t = Some (p, length p, path_weight g p) ∧
       path g s t p ∧ NoDup p ∧ finite (path_weight g p) ∧
       ∀ q, path g s t q → fle (path_weight g p) (path_weight g q) = true.
Proof.
  intros Hc Hw Hr.
  destruct (Dijkstra_run g s Hw) as (st & HD & Hout & Hq).
  apply (dj_complete g s st t Hc Hw Hout Hq) in Hr as Hprev.
  assert (Hout' := Hout). destruct Hout' as [lo Hinv].
  destruct (dj_tree _ _ _ _ _ Hinv t Hprev)
    as (p & Hch & Hp & Hnd & Hpp & _ & Hpw & Hfin).
  exists p. split; [|split; [done|split; [done|split; [by rewrite Hpw|]]]].
  - unfold DijkstraTo. rewrite HD. cbn [mbind option_bind].
    destruct Hprev as [u ->].
    rewrite (build_path_chain _ s t p Hch Hnd Hpp). cbn [mbind option_bind].
    by rewrite Hpw.
  - intros q Hq'. rewrite Hpw.
    by apply (dj_lower_bound g s st t q Hw Hout Hq Hq').
Qed.

End dijkstra_facts.

Section dijkstra_claims.
Context `{Countable K} `{!MapRange K} `{!ZeroValue K}.
Import Graph PathFinder.
Implicit Types (g : graphData K) (s t u v x y cur : K) (p : list K).

(** C1, for targets within finite reach.  On a graph whose edge weights
    are not negative, and for a target that some path reaches at a finite
    total weight, [DijkstraTo] returns a path from start to target along
    adjacency entries, its length, and as cost the total weight of that
    path, the [float64] sum of its edge weights in the order of the path,
    which is finite and which no path from start to target undercuts. *)
Theorem DijkstraTo_shortest g s t :
  closed g → weights_nonneg g → weights_valid g → reachable_finite g s t →
  ∃ p, DijkstraTo g s t = Some (p, length p, path_weight g p) ∧
       path_from_to g s t p ∧ finite (path_weight g p) ∧
       ∀ q, path_from_to g s t q →
            fle (path_weight g p) (path_weight g q) = true.
Proof.
  intros Hc Hn Hv Hr.
  destruct (DijkstraTo_least g s t Hc (weights_ok_intro g Hn Hv) Hr)
    as (p & HD & Hp & _ & Hfin & Hmin).
  exists p. split; [done|]. split; [by apply path_iff|]. split; [done|].
  intros q Hq%path_iff. by apply Hmin.
Qed.

End dijkstra_claims.

(** ** Dijkstra on any store, for any weights *)

Section dijkstra_reach_facts.
Context `{Countable K} `{!MapRange K} `{!ZeroValue K}.
Import Graph PathFinder.
Implicit Types (g : graphData K) (s t u v x y cur : K) (p : list K)
  (st : dijkstra_state (K:=K)).

Lemma fget_lookup (d : gmap K float64) x :
  is_Some (d !! x) → d !! x = Some (fget d x).
Proof. intros [a Ha]. unfold fget. by rewrite Ha. Qed.

Lemma dj_sound_init g s : dj_sound g s (dijkstra_init g s).
Proof.
  destruct (dijkstra_init_spec g s) as (Hq & Hp & Hs & Hd).
  split.
  - intros x. rewrite Hq. apply elem_of_Nodes.
  - rewrite Hp, lookup_singleton_eq. by eexists.
  - intros x. rewrite Hp. intros Hx%lookup_singleton_is_Some. subst x.
    exists [s]. constructor.
  - intros v u. rewrite Hp. intros [<- <-]%lookup_singleton_Some.
    split; [|done]. rewrite lookup_singleton_eq. by eexists.
  - intros x Hx. rewrite Hp. intros Hn%lookup_singleton_None.
    rewrite dj_dist_init. rewrite decide_False by done.
    by rewrite decide_True.
  - intros x [->|Hx]; [by rewrite Hs|].
    destruct (decide (x = s)) as [->|Hne]; [by rewrite Hs|].
    rewrite (Hd x Hne). by rewrite decide_True.
  - intros x Hx. destruct (decide (x = s)) as [->|Hne]; [by left|].
    right; left. rewrite (Hd x Hne) in Hx. case_decide; [done|].
    by destruct Hx.
Qed.

Lemma dj_sound_extract g s st r cur :
  dj_sound g s st → dj_queue st !! r = Some cur →
  dj_sound_inner g s cur (range (Some cur) (adjacency g cur))
    {| dj_queue := delete r (dj_queue st);
       dj_distances := dj_distances st;
       dj_previous := dj_previous st |}.
Proof.
  intros [Hq Hs Hr Hp Hu Hlo Hhi] Hcur. split; [|split].
  - split; try done. cbn [dj_queue]. intros x Hx. apply Hq.
    destruct (delete_middle _ _ _ Hcur) as (l1 & l2 & Hl & Hdel).
    rewrite Hdel in Hx. rewrite Hl.
    apply elem_of_app in Hx as [?|?]; apply elem_of_app; [by left|].
    right. by right.
  - apply Hq. by eapply list_elem_of_lookup_2.
  - intros [v w] Hin%elem_of_range. simpl. by rewrite <- entry_adjacency.
Qed.

Lemma dj_sound_relax g s cur e todo st :
  dj_sound_inner g s cur (e :: todo) st →
  dj_sound_inner g s cur todo (relax cur st e).
Proof.
  intros ([Hq Hs Hr Hp Hu Hlo Hhi] & Hcur & Hedge).
  assert (He : entry g cur e.1 = Some e.2) by (apply Hedge; by left).
  split; [|split; [done|]]; [|intros e' He'; apply Hedge; by right].
  unfold relax.
  destruct (flt (fadd (fget (dj_distances st) cur) e.2)
              (fget (dj_distances st) e.1)) eqn:Hlt; [|done].
  assert (Hpc : is_Some (dj_previous st !! cur)).
  { destruct (dj_previous st !! cur) eqn:E; [by eexists|].
    specialize (Hu cur Hcur E). unfold dj_dist in Hu.
    rewrite Hu, flt_fadd_PInf in Hlt. done. }
  split; cbn [dj_queue dj_distances dj_previous].
  - done.
  - apply lookup_insert_is_Some'. by right.
  - intros x [<-|Hx]%lookup_insert_is_Some'; [|by apply Hr].
    destruct (Hr cur Hpc) as [p Hp']. exists (p ++ [e.1]).
    eapply path_step; [done|]. by rewrite He.
  - intros v u [[<- <-]|[Hne Hv]]%lookup_insert_Some.
    + split; [apply lookup_insert_is_Some'; by right|].
      intros _. by rewrite He.
    + destruct (Hp v u Hv) as [Hu' Hvu]. split; [|done].
      apply lookup_insert_is_Some'. by right.
  - intros x Hx [Hne Hn]%lookup_insert_None.
    unfold dj_dist. cbn [dj_distances]. unfold fget.
    rewrite lookup_insert_ne by done. by apply Hu.
  - intros x Hx. apply lookup_insert_is_Some'. right. by apply Hlo.
  - intros x [<-|Hx]%lookup_insert_is_Some'; [|by apply Hhi].
    right; right. exists cur. by rewrite He.
Qed.

(** The loop returns on every store, whatever the weights, in a state
    that satisfies [dj_sound]. *)
Lemma Dijkstra_sound_run g s :
  ∃ st, Dijkstra g s = Some (dj_distances st, dj_previous st) ∧
        dj_sound g s st ∧ dj_queue st = [].
Proof.
  destruct (dijkstra_loop_rule g (dj_sound g s) (dj_sound_inner g s))
    with (fuel := length (dj_queue (dijkstra_init g s)))
         (st := dijkstra_init g s) as (st & Hl & Hout & Hq).
  - intros st r cur Hs Hcur _. by apply dj_sound_extract.
  - intros cur e todo st. apply dj_sound_relax.
  - by intros cur st [Hs _].
  - apply dj_sound_init.
  - done.
  - exists st. unfold Dijkstra. by rewrite Hl.
Qed.

(** Following parent entries that are adjacency entries walks a path of
    the graph backwards. *)
Lemma walk_back_path g (m : gmap K K) s fuel x acc r :
  (∀ v u, m !! v = Some u →
     is_Some (m !! u) ∧ (v ≠ s → is_Some (entry g u v))) →
  is_Some (m !! x) →
  walk_back fuel m s x (acc ++ [x]) = Some r →
  ∃ p, path g s x p ∧ r = acc ++ reverse p.
Proof.
  intros Hm. revert x acc.
  induction fuel as [|fuel IH]; intros x acc [u Hu]; simpl;
    destruct (decide (x = s)) as [->|Hne]; try done.
  - intros [= <-]. exists [s]. split; [constructor|done].
  - intros [= <-]. exists [s]. split; [constructor|done].
  - rewrite Hu. simpl. intros Hw.
    destruct (Hm x u Hu) as [Hsu Hux].
    destruct (IH u (acc ++ [x]) Hsu Hw) as (p & Hp & ->).
    exists (p ++ [x]). split; [eapply path_step; eauto|].
    by rewrite reverse_snoc, <- app_assoc.
Qed.

Lemma walk_back_prefix fuel (m : gmap K K) s x acc r :
  walk_back fuel m s x acc = Some r → ∃ r', r = acc ++ r'.
Proof.
  revert x acc. induction fuel as [|fuel IH]; intros x acc; simpl.
  - case_decide; [|done]. intros [= <-]. exists []. by rewrite app_nil_r.
  - case_decide; [intros [= <-]; exists []; by rewrite app_nil_r|].
    intros (r' & ->)%IH. eexists. by rewrite <- (assoc_L (++)).
Qed.

Lemma build_path_nonempty (m : gmap K K) s t p :
  build_path m s t = Some p → p ≠ [].
Proof.
  unfold build_path. destruct (walk_back _ _ _ _ _) as [r|] eqn:Hr; [|done].
  simpl. intros [= <-]. apply walk_back_prefix in Hr as [r' ->].
  rewrite reverse_app. simpl. by destruct (reverse r').
Qed.

(** A target that cannot be reached is answered with the empty path,
    whatever the weights. *)
Lemma DijkstraTo_no_path g s t :
  ¬ reachable g s t → DijkstraTo g s t = Some ([], 0, PInf).
Proof.
  intros Hnr.
  destruct (Dijkstra_sound_run g s) as (st & HD & [Hq Hs Hr Hp Hu Hlo Hhi] & _).
  unfold DijkstraTo. rewrite HD. cbn [mbind option_bind].
  destruct (dj_previous st !! t) eqn:Ht; [|done].
  destruct Hnr. apply Hr. by eexists.
Qed.

(** With weights that are not negative the empty path is the answer
    exactly when no path reaches the target at a finite total weight. *)
Lemma DijkstraTo_sentinel g s t :
  closed g → weights_ok g →
  (DijkstraTo g s t = Some ([], 0, PInf) ↔ ¬ reachable_finite g s t).
Proof.
  intros Hc Hw. destruct (Dijkstra_run g s Hw) as (st & HD & Hout & Hq).
  rewrite <- (dj_complete g s st t Hc Hw Hout Hq).
  unfold DijkstraTo. rewrite HD. simpl.
  destruct (dj_previous st !! t) as [u|] eqn:Ht.
  - split; [|intros []; by eexists].
    destruct (build_path _ s t) as [p|] eqn:Hp; [|done]. simpl.
    intros Heq. injection Heq as -> _ _. by apply build_path_nonempty in Hp.
  - split; [|done]. by intros _ [? ?].
Qed.

End dijkstra_reach_facts.

(** ** Dijkstra from a node to itself *)

Section dijkstra_source_facts.
Context `{Countable K} `{!MapRange K} `{!ZeroValue K}.
Import Graph PathFinder.
Implicit Types (g : graphData K) (s t u v x y cur : K) (p : list K)
  (st : dijkstra_state (K:=K)).

(** The loop returns on every store, whatever the weights. *)
Lemma Dijkstra_total g s (P : dijkstra_state → Prop) :
  P (dijkstra_init g s) →
  (∀ st r, P st →
     P {| dj_queue := delete r (dj_queue st);
          dj_distances := dj_distances st;
          dj_previous := dj_previous st |}) →
  (∀ cur e st, P st → P (relax cur st e)) →
  ∃ st, Dijkstra g s = Some (dj_distances st, dj_previous st) ∧ P st.
Proof.
  intros Hinit Hext Hrel.
  destruct (dijkstra_loop_rule g P (λ _ _, P))
    with (fuel := length (dj_queue (dijkstra_init g s)))
         (st := dijkstra_init g s) as (st & Hl & HP & _); try done.
  - intros st r cur HP _ _. by apply Hext.
  - intros cur e todo st. apply Hrel.
  - exists st. unfold Dijkstra. by rewrite Hl.
Qed.

Lemma build_path_self (m : gmap K K) s : build_path m s s = Some [s].
Proof.
  unfold build_path. destruct (size m); simpl; by rewrite decide_True.
Qed.

(** On every store, whatever the weights, the start node keeps a parent
    entry, so [DijkstraTo(start, start)] is the one-node path. *)
Lemma DijkstraTo_self_path g s :
  ∃ cost, DijkstraTo g s s = Some ([s], 1, cost).
Proof.
  destruct (Dijkstra_total g s (λ st, is_Some (dj_previous st !! s)))
    as (st & HD & [u Hu]).
  - destruct (dijkstra_init_spec g s) as (_ & -> & _).
    rewrite lookup_singleton_eq. by eexists.
  - done.
  - intros cur e st Hs. unfold relax. destruct (flt _ _); [|done]. simpl.
    rewrite lookup_insert_is_Some. destruct (decide (e.1 = s)); tauto.
  - eexists. unfold DijkstraTo. rewrite HD. simpl. rewrite Hu.
    by rewrite build_path_self.
Qed.

Lemma dj_source_init g s : dj_source g s (dijkstra_init g s).
Proof.
  destruct (dijkstra_init_spec g s) as (_ & Hp & Hs & _).
  split; [done|]. split; [rewrite Hp; apply lookup_singleton_eq|].
  intros x. rewrite dj_dist_init. by repeat case_decide.
Qed.

(** A relaxation along an edge whose weight is not negative. *)
Lemma dj_source_relax g s cur e st :
  fle (Fin 0) e.2 = true → dj_source g s st → dj_source g s (relax cur st e).
Proof.
  intros Hw (Hs & Hp & Hnn). unfold relax.
  assert (Ha : not_negative (fadd (fget (dj_distances st) cur) e.2)).
  { apply fadd_not_negative; [apply Hnn | done]. }
  destruct (flt _ _) eqn:Hlt; [|done].
  assert (Hne : e.1 ≠ s).
  { intros He. rewrite He in Hlt. unfold fget in Hlt at 2.
    rewrite Hs in Hlt. simpl in Hlt.
    by rewrite flt_not_negative_zero in Hlt. }
  split; [|split]; simpl.
  - by rewrite lookup_insert_ne.
  - by rewrite lookup_insert_ne.
  - intros x. unfold dj_dist, fget. simpl. rewrite lookup_insert.
    case_decide; [done | apply Hnn].
Qed.

Lemma Dijkstra_source_run g s :
  weights_nonneg g →
  ∃ st, Dijkstra g s = Some (dj_distances st, dj_previous st) ∧
        dj_source g s st.
Proof.
  intros Hw.
  destruct (dijkstra_loop_rule g (dj_source g s) (dj_source_inner g s))
    with (fuel := length (dj_queue (dijkstra_init g s)))
         (st := dijkstra_init g s) as (st & Hl & Hout & Hq).
  - intros st r cur Hsrc _ _. split; [done|].
    intros [v w] Hin%elem_of_range. simpl. by rewrite <- entry_adjacency.
  - intros cur e todo st [Hsrc Hedge]. split.
    + apply dj_source_relax; [|done].
      apply (Hw cur e.1 e.2), Hedge. by left.
    + intros e' He'. apply Hedge. by right.
  - by intros cur st [Hsrc _].
  - apply dj_source_init.
  - done.
  - exists st. unfold Dijkstra. by rewrite Hl.
Qed.

(** C7, for weights that are not negative.  On every graph
    [DijkstraTo(start, start)] returns the path [[start]] of length 1,
    never the result for an unreachable target; it is found through the
    parent entry of [start], which [Dijkstra] sets to [start] itself at
    the outset.  When no edge weight is negative that entry is still
    [start] at the end and the cost returned is 0. *)
Theorem DijkstraTo_self g s :
  dj_previous (dijkstra_init g s) !! s = Some s ∧
  (∃ cost, DijkstraTo g s s = Some ([s], 1, cost)) ∧
  (weights_nonneg g →
   (∃ distances previous,
      Dijkstra g s = Some (distances, previous) ∧ previous !! s = Some s) ∧
   DijkstraTo g s s = Some ([s], 1, Fin 0)).
Proof.
  split; [|split; [apply DijkstraTo_self_path|]].
  - destruct (dijkstra_init_spec g s) as (_ & -> & _).
    apply lookup_singleton_eq.
  - intros Hw. destruct (Dijkstra_source_run g s Hw) as (st & HD & Hs & Hp & _).
    split; [by eauto|].
    unfold DijkstraTo. rewrite HD. simpl. rewrite Hp, build_path_self. simpl.
    unfold fget. by rewrite Hs.
Qed.

(** C5, with total weights that can overflow.  For [start ≠ target],
    [BFSTo] returns the empty path with length 0 and cost [+Inf] exactly
    when no path leads from start to target.  [DijkstraTo] returns it
    whenever no path leads there, whatever the weights; on a graph whose
    edge weights are not negative it returns it exactly when no path from
    start to target has a finite total weight.  That result is a value
    returned. *)
Theorem unreachable_result g s t :
  s ≠ t →
  (BFSTo g s t = Some ([], 0, PInf) ↔ ¬ reachable g s t) ∧
  (¬ reachable g s t → DijkstraTo g s t = Some ([], 0, PInf)) ∧
  (closed g → weights_nonneg g → weights_valid g →
   (DijkstraTo g s t = Some ([], 0, PInf) ↔ ¬ reachable_finite g s t)).
Proof.
  intros Hne. split; [by apply BFSTo_unreachable|].
  split; [apply DijkstraTo_no_path|].
  intros Hc Hn Hv. apply DijkstraTo_sentinel; [done|].
  by apply weights_ok_intro.
Qed.

End dijkstra_source_facts.

(** ** The claims at concrete graphs *)

Section concrete.
Import Graph PathFinder.
Open Scope Z_scope.

Lemma weights_directed_one (u v : Z) (w : float64) (P : float64 → Prop) :
  P w → ∀ a b x, entry (DirectedGraph.AddEdge (∅ : graphData Z) u v w) a b = Some x → P x.
Proof.
  intros Hw a b x. rewrite DirectedAddEdge_entry. case_decide.
  - by intros [= <-].
  - unfold entry. by rewrite lookup_empty.
Qed.

Lemma weights_undirected_one (u v : Z) (w : float64) (P : float64 → Prop) :
  P w → ∀ a b x, entry (UndirectedGraph.AddEdge (∅ : graphData Z) u v w) a b = Some x → P x.
Proof.
  intros Hw a b x. rewrite UndirectedAddEdge_entry. case_decide.
  - by intros [= <-].
  - unfold entry. by rewrite lookup_empty.
Qed.

Lemma reachable_edge (g : graphData Z) (u v : Z) :
  is_Some (entry g u v) → reachable g u v.
Proof. intros He. exists ([u] ++ [v]). apply path_step with u; [constructor | done]. Qed.

End concrete.

(** The directed line 1 -> 2 -> 3 with weight [math.MaxFloat64] on both
    edges: every weight is finite and not negative and node 3 can be
    reached from node 1, yet the sum of the two weights overflows to
    [+Inf], which is the mark for a node not reached. *)
Lemma overflow_line :
  let g : graphData Z :=
    DirectedGraph.AddEdge (DirectedGraph.AddEdge ∅ 1%Z 2%Z MaxFloat64)
      2%Z 3%Z MaxFloat64 in
  Graph.closed g ∧ PathFinder.weights_nonneg g ∧ PathFinder.weights_valid g ∧
  (∀ u v w, Graph.entry g u v = Some w → finite w) ∧
  PathFinder.reachable g 1%Z 3%Z ∧
  PathFinder.path_weight g [1%Z; 2%Z; 3%Z] = PInf.
Proof.
  intros g.
  assert (Hw : ∀ P : float64 → Prop, P MaxFloat64 →
            ∀ a b x, Graph.entry g a b = Some x → P x).
  { intros P HP a b x. unfold g. rewrite !DirectedAddEdge_entry.
    repeat case_decide; [by intros [= <-] | by intros [= <-] | done]. }
  split; [do 2 apply closed_DirectedAddEdge; apply closed_empty|].
  split; [exact (Hw (λ w, fle (Fin 0) w = true) eq_refl)|].
  split; [exact (Hw (λ w, valid_binary prec emax w = true) eq_refl)|].
  split; [exact (Hw finite I)|].
  split; [|by vm_compute].
  exists (([1%Z] ++ [2%Z]) ++ [3%Z]).
  apply PathFinder.path_step with 2%Z; [|vm_compute; by eexists].
  apply PathFinder.path_step with 1%Z; [|vm_compute; by eexists].
  constructor.
Qed.

(** C1 as stated fails when the total weight overflows: on the line
    1 -> 2 -> 3 with weight [math.MaxFloat64] on both edges every weight
    is finite and not negative and node 3 can be reached from node 1, yet
    [DijkstraTo] returns the empty path, which is no path from 1 to 3. *)
Lemma DijkstraTo_overflow :
  let g : graphData Z :=
    DirectedGraph.AddEdge (DirectedGraph.AddEdge ∅ 1%Z 2%Z MaxFloat64)
      2%Z 3%Z MaxFloat64 in
  Graph.closed g ∧ PathFinder.weights_nonneg g ∧
  (∀ u v w, Graph.entry g u v = Some w → finite w) ∧
  PathFinder.reachable g 1%Z 3%Z ∧
  PathFinder.DijkstraTo g 1%Z 3%Z = Some ([], 0, PInf) ∧
  ¬ PathFinder.path_from_to g 1%Z 3%Z [].
Proof.
  intros g. destruct overflow_line as (Hc & Hn & _ & Hf & Hr & _).
  split; [exact Hc|]. split; [exact Hn|]. split; [exact Hf|].
  split; [exact Hr|]. split; [by vm_compute|]. by intros [Hh _].
Qed.

(** It fails for an edge of weight [+Inf] as well: the weight is not
    negative and node 2 can be reached from node 1, yet [DijkstraTo]
    returns the empty path. *)
Lemma DijkstraTo_infinite_weight :
  let g : graphData Z := DirectedGraph.AddEdge ∅ 1%Z 2%Z PInf in
  Graph.closed g ∧ PathFinder.weights_nonneg g ∧ PathFinder.reachable g 1%Z 2%Z ∧
  PathFinder.DijkstraTo g 1%Z 2%Z = Some ([], 0, PInf) ∧
  ¬ PathFinder.path_from_to g 1%Z 2%Z [].
Proof.
  intros g. split; [apply closed_DirectedAddEdge, closed_empty|].
  split; [exact (weights_directed_one 1%Z 2%Z PInf (λ w, fle (Fin 0) w = true) eq_refl)|].
  split; [apply reachable_edge; vm_compute; by eexists|].
  split; [by vm_compute|]. by intros [Hh _].
Qed.

(** And it fails where sums are rounded.  With the edges 0 -> 1 of weight
    [2^53], 1 -> 2 -> 3 -> 9 of weight 1 each and 0 -> 9 of weight
    [2^53 + 2], the path over 1, 2 and 3 weighs [2^53 + 3] and the edge
    0 -> 9 weighs less; but [2^53 + 1] rounds to [2^53], so the sum along
    the longer path stays at [2^53] and [DijkstraTo] returns that path
    with cost [2^53]. *)
Lemma DijkstraTo_rounding :
  let g : graphData Z :=
    DirectedGraph.AddEdgesFrom ∅
      [Graph.mkEdge 0%Z 1%Z (Fin (2 ^ 53)); Graph.mkEdge 1%Z 2%Z (Fin 1);
       Graph.mkEdge 2%Z 3%Z (Fin 1); Graph.mkEdge 3%Z 9%Z (Fin 1);
       Graph.mkEdge 0%Z 9%Z (Fin (2 ^ 53 + 2))] in
  PathFinder.DijkstraTo g 0%Z 9%Z = Some ([0; 1; 2; 3; 9]%Z, 5, Fin (2 ^ 53)) ∧
  PathFinder.path_from_to g 0%Z 9%Z [0; 9]%Z ∧
  (PathFinder.exact_weight g [0; 9]%Z
   < PathFinder.exact_weight g [0; 1; 2; 3; 9]%Z)%Z.
Proof.
  intros g. split; [by vm_compute|]. split; [|by vm_compute].
  split; [done|]. split; [done|].
  intros [|[|i]] u v Hu Hv; simpl in Hu, Hv; try done.
  injection Hu as <-. injection Hv as <-. vm_compute. by eexists.
Qed.

(** C1 on the directed line 1 -> 2 -> 3 with weights 1 and 2. *)
Lemma DijkstraTo_shortest_witness :
  let g : graphData Z :=
    DirectedGraph.AddEdge (DirectedGraph.AddEdge ∅ 1%Z 2%Z (Fin 1)) 2%Z 3%Z (Fin 2) in
  Graph.closed g ∧ PathFinder.weights_nonneg g ∧ PathFinder.weights_valid g ∧
  PathFinder.reachable_finite g 1%Z 3%Z ∧
  ∃ p, PathFinder.DijkstraTo g 1%Z 3%Z
       = Some (p, length p, PathFinder.path_weight g p) ∧
       PathFinder.path_from_to g 1%Z 3%Z p ∧
       finite (PathFinder.path_weight g p) ∧
       ∀ q, PathFinder.path_from_to g 1%Z 3%Z q →
            fle (PathFinder.path_weight g p) (PathFinder.path_weight g q) = true.
Proof.
  intros g.
  assert (Hc : Graph.closed g).
  { apply closed_DirectedAddEdge, closed_DirectedAddEdge, closed_empty. }
  assert (Hw : ∀ P : float64 → Prop, P (Fin 1) → P (Fin 2) →
            ∀ a b x, Graph.entry g a b = Some x → P x).
  { intros P H1 H2 a b x. unfold g. rewrite !DirectedAddEdge_entry.
    repeat case_decide; [by intros [= <-] | by intros [= <-] | done]. }
  assert (Hn : PathFinder.weights_nonneg g)
    by exact (Hw (λ w, fle (Fin 0) w = true) eq_refl eq_refl).
  assert (Hv : PathFinder.weights_valid g)
    by exact (Hw (λ w, valid_binary prec emax w = true) eq_refl eq_refl).
  assert (Hr : PathFinder.reachable_finite g 1%Z 3%Z).
  { exists (([1%Z] ++ [2%Z]) ++ [3%Z]). split; [|exact I].
    apply PathFinder.path_step with 2%Z; [|vm_compute; by eexists].
    apply PathFinder.path_step with 1%Z; [|vm_compute; by eexists].
    constructor. }
  split; [exact Hc|]. split; [exact Hn|]. split; [exact Hv|]. split; [exact Hr|].
  apply (DijkstraTo_shortest g 1%Z 3%Z Hc Hn Hv Hr).
Defined.

(** C5 as stated fails when the total weight overflows: on the undirected
    line 1 - 2 - 3 with weight [math.MaxFloat64] on both edges every
    weight is finite and node 3 can be reached from node 1, yet
    [DijkstraTo] returns the result for an unreachable target. *)
Lemma DijkstraTo_unreachable_overflow :
  let g : graphData Z :=
    UndirectedGraph.AddEdge (UndirectedGraph.AddEdge ∅ 1%Z 2%Z MaxFloat64)
      2%Z 3%Z MaxFloat64 in
  Graph.closed g ∧ 1%Z ≠ 3%Z ∧
  (∀ u v w, Graph.entry g u v = Some w → finite w) ∧
  PathFinder.reachable g 1%Z 3%Z ∧
  PathFinder.DijkstraTo g 1%Z 3%Z = Some ([], 0, PInf).
Proof.
  intros g. split; [do 2 apply closed_UndirectedAddEdge; apply closed_empty|].
  split; [done|]. split.
  { intros a b x. unfold g. rewrite !UndirectedAddEdge_entry.
    repeat case_decide; [by intros [= <-] | by intros [= <-] | done]. }
  split; [|by vm_compute].
  exists (([1%Z] ++ [2%Z]) ++ [3%Z]).
  apply PathFinder.path_step with 2%Z; [|vm_compute; by eexists].
  apply PathFinder.path_step with 1%Z; [|vm_compute; by eexists].
  constructor.
Qed.

(** It fails for an edge of weight [+Inf] as well. *)
Lemma DijkstraTo_unreachable_infinite_weight :
  let g : graphData Z := UndirectedGraph.AddEdge ∅ 1%Z 2%Z PInf in
  Graph.closed g ∧ 1%Z ≠ 2%Z ∧ PathFinder.reachable g 1%Z 2%Z ∧
  PathFinder.DijkstraTo g 1%Z 2%Z = Some ([], 0, PInf).
Proof.
  intros g. split; [apply closed_UndirectedAddEdge, closed_empty|].
  split; [done|]. split; [apply reachable_edge; vm_compute; by eexists|].
  by vm_compute.
Qed.

(** C5 on the graph with the edge 1 - 2 of weight 1 and the lone node 3. *)
Lemma unreachable_result_witness :
  let g : graphData Z :=
    Graph.AddNode (UndirectedGraph.AddEdge ∅ 1%Z 2%Z (Fin 1)) 3%Z in
  1%Z ≠ 3%Z ∧ Graph.closed g ∧ PathFinder.weights_nonneg g ∧
  PathFinder.weights_valid g ∧
  (PathFinder.BFSTo g 1%Z 3%Z = Some ([], 0, PInf)
   ↔ ¬ PathFinder.reachable g 1%Z 3%Z) ∧
  (PathFinder.DijkstraTo g 1%Z 3%Z = Some ([], 0, PInf)
   ↔ ¬ PathFinder.reachable_finite g 1%Z 3%Z).
Proof.
  intros g.
  assert (Hne : 1%Z ≠ 3%Z) by done.
  assert (Hc : Graph.closed g).
  { apply closed_AddNode, closed_UndirectedAddEdge, closed_empty. }
  assert (Hw : ∀ P : float64 → Prop, P (Fin 1) →
            ∀ a b x, Graph.entry g a b = Some x → P x).
  { intros P HP a b x. unfold g. rewrite AddNode_entry.
    exact (weights_undirected_one 1%Z 2%Z (Fin 1) P HP a b x). }
  assert (Hn : PathFinder.weights_nonneg g)
    by exact (Hw (λ w, fle (Fin 0) w = true) eq_refl).
  assert (Hv : PathFinder.weights_valid g)
    by exact (Hw (λ w, valid_binary prec emax w = true) eq_refl).
  split; [exact Hne|]. split; [exact Hc|]. split; [exact Hn|]. split; [exact Hv|].
  destruct (unreachable_result g 1%Z 3%Z Hne) as (HB & _ & HD).
  split; [exact HB | exact (HD Hc Hn Hv)].
Defined.

(** C7 as stated fails on a cycle of negative weights: the cost returned
    for the path from node 1 to itself is -2. *)
Lemma DijkstraTo_self_negative_cycle :
  let g : graphData Z :=
    DirectedGraph.AddEdge
      (DirectedGraph.AddEdge ∅ 1%Z 2%Z (Fin (-1))) 2%Z 1%Z (Fin (-1)) in
  PathFinder.DijkstraTo g 1%Z 1%Z = Some ([1%Z], 1, Fin (-2)) ∧
  PathFinder.DijkstraTo g 1%Z 1%Z ≠ Some ([1%Z], 1, Fin 0).
Proof. intros g. split; [by vm_compute|]. by vm_compute. Qed.

(** C7 on the graph with the one edge 1 -> 2 of weight 1. *)
Lemma DijkstraTo_self_witness :
  let g : graphData Z := DirectedGraph.AddEdge ∅ 1%Z 2%Z (Fin 1) in
  PathFinder.weights_nonneg g ∧
  PathFinder.DijkstraTo g 1%Z 1%Z = Some ([1%Z], 1, Fin 0).
Proof.
  intros g.
  assert (Hw : PathFinder.weights_nonneg g).
  { exact (weights_directed_one 1%Z 2%Z (Fin 1) (λ w, fle (Fin 0) w = true) eq_refl). }
  split; [exact Hw|].
  destruct (DijkstraTo_self g 1%Z) as (_ & _ & Hs). apply (Hs Hw).
Defined.

(** ** The path-finding tests of the repository

    The line 1 - 2 - 3 - 4 - 5 with unit weights and the lone node 6, then
    with the edge 5 - 1 added, then with the edge 1 - 3 added. *)

Example test_unreachable :
  let g : graphData Z :=
    Graph.AddNode
      (UndirectedGraph.AddEdgesFrom ∅
         [Graph.mkEdge 1%Z 2%Z (Fin 1); Graph.mkEdge 2%Z 3%Z (Fin 1);
          Graph.mkEdge 3%Z 4%Z (Fin 1); Graph.mkEdge 4%Z 5%Z (Fin 1)]) 6%Z in
  PathFinder.BFSTo g 1%Z 6%Z = Some ([], 0, PInf) ∧
  PathFinder.DijkstraTo g 1%Z 6%Z = Some ([], 0, PInf).
Proof. by vm_compute. Qed.

Example test_shortest_path :
  let g : graphData Z :=
    Graph.AddNode
      (UndirectedGraph.AddEdgesFrom ∅
         [Graph.mkEdge 1%Z 2%Z (Fin 1); Graph.mkEdge 2%Z 3%Z (Fin 1);
          Graph.mkEdge 3%Z 4%Z (Fin 1); Graph.mkEdge 4%Z 5%Z (Fin 1)]) 6%Z in
  PathFinder.BFSTo g 1%Z 5%Z = Some ([1; 2; 3; 4; 5]%Z, 5, Fin 4) ∧
  PathFinder.DijkstraTo g 1%Z 5%Z = Some ([1; 2; 3; 4; 5]%Z, 5, Fin 4) ∧
  PathFinder.DijkstraTo g 1%Z 1%Z = Some ([1%Z], 1, Fin 0).
Proof. by vm_compute. Qed.

Example test_cycle :
  let g : graphData Z :=
    UndirectedGraph.AddEdgesFrom ∅
      [Graph.mkEdge 1%Z 2%Z (Fin 1); Graph.mkEdge 2%Z 3%Z (Fin 1);
       Graph.mkEdge 3%Z 4%Z (Fin 1); Graph.mkEdge 4%Z 5%Z (Fin 1);
       Graph.mkEdge 5%Z 1%Z (Fin 1)] in
  PathFinder.BFSTo g 1%Z 5%Z = Some ([1; 5]%Z, 2, Fin 1) ∧
  PathFinder.DijkstraTo g 1%Z 5%Z = Some ([1; 5]%Z, 2, Fin 1) ∧
  PathFinder.DijkstraTo (UndirectedGraph.AddEdge g 1%Z 3%Z (Fin 1)) 1%Z 3%Z
  = Some ([1; 3]%Z, 2, Fin 1).
Proof. by vm_compute. Qed.

(** * Further properties of the store *)

(** ** Nodes, edges and their counts *)

Section count_facts.
Context `{Countable K} `{!MapRange K}.
Import Graph.
Implicit Types (g : graphData K) (n u v a b k : K) (w : float64).

(** Two stores with the same nodes and the same entries are one store. *)
Lemma store_ext g g' :
  (∀ k, is_Some (g !! k) ↔ is_Some (g' !! k)) →
  (∀ a b, entry g a b = entry g' a b) → g = g'.
Proof.
  intros Hn He. apply map_eq. intros k.
  destruct (g !! k) as [x|] eqn:E1, (g' !! k) as [y|] eqn:E2.
  - f_equal. apply map_eq. intros b. specialize (He k b).
    unfold entry in He. by rewrite E1, E2 in He.
  - destruct (proj1 (Hn k)) as [? Hk]; [by rewrite E1|]. congruence.
  - destruct (proj2 (Hn k)) as [? Hk]; [by rewrite E2|]. congruence.
  - done.
Qed.

Lemma HasNode_false g u : HasNode g u = false ↔ g !! u = None.
Proof.
  unfold HasNode. rewrite bool_decide_eq_false, <- eq_None_not_Some. done.
Qed.

Lemma HasEdge_false g u v : HasEdge g u v = false ↔ entry g u v = None.
Proof.
  rewrite HasEdge_entry, bool_decide_eq_false, <- eq_None_not_Some. done.
Qed.

Lemma NumberOfNodes_size g : NumberOfNodes g = size g.
Proof. unfold NumberOfNodes, Nodes. by rewrite length_fmap, length_range. Qed.

Lemma elem_of_Edges g e :
  e ∈ Edges g ↔ entry g (edge_u e) (edge_v e) = Some (edge_weight e).
Proof.
  unfold Edges. rewrite list_elem_of_bind. split.
  - intros (u & He & Hu). apply list_elem_of_fmap in He as ([v w] & -> & Hvw).
    simpl. apply elem_of_range in Hvw. by rewrite <- entry_adjacency.
  - intros He. exists (edge_u e). split.
    + apply list_elem_of_fmap. exists (edge_v e, edge_weight e).
      split; [by destruct e|]. apply elem_of_range. by rewrite entry_adjacency.
    + apply elem_of_Nodes. eapply entry_is_node. by rewrite He.
Qed.

(** The end points of the edges that [Edges] lists, in its order. *)
Lemma Edges_ends g :
  (λ e, (edge_u e, edge_v e)) <$> Edges g
  = u ← Nodes g; (λ v, (u, v)) <$> Successors g u.
Proof.
  unfold Edges, Successors. induction (Nodes g) as [|u l IH]; [done|].
  rewrite !bind_cons, fmap_app, IH. f_equal.
  rewrite <- !list_fmap_compose. done.
Qed.

Lemma NoDup_Edges_ends g : NoDup ((λ e, (edge_u e, edge_v e)) <$> Edges g).
Proof.
  rewrite Edges_ends. apply NoDup_bind.
  - intros u1 u2 [a b] _ _ H1 H2.
    apply list_elem_of_fmap in H1 as (? & [= -> ->] & _).
    apply list_elem_of_fmap in H2 as (? & [= -> _] & _). done.
  - intros u _. apply NoDup_fmap_2; [|apply NoDup_Successors].
    intros ?? [= ->]. done.
  - apply NoDup_Nodes.
Qed.

Lemma elem_of_Edges_ends g a b :
  (a, b) ∈ (λ e, (edge_u e, edge_v e)) <$> Edges g ↔ is_Some (entry g a b).
Proof.
  rewrite list_elem_of_fmap. split.
  - intros (e & [= -> ->] & He). apply elem_of_Edges in He. by rewrite He.
  - intros [w Hw]. exists (mkEdge a b w). split; [done|]. by apply elem_of_Edges.
Qed.

Lemma NoDup_Edges g : NoDup (Edges g).
Proof. eapply NoDup_fmap_1, NoDup_Edges_ends. Qed.

(** Stores with the same end points of entries have the same number of
    edges, whatever the weights. *)
Lemma NumberOfEdges_same g g' :
  (∀ a b, is_Some (entry g' a b) ↔ is_Some (entry g a b)) →
  NumberOfEdges g' = NumberOfEdges g.
Proof.
  intros Hsame. unfold NumberOfEdges.
  rewrite <- (length_fmap (λ e, (edge_u e, edge_v e)) (Edges g')).
  rewrite <- (length_fmap (λ e, (edge_u e, edge_v e)) (Edges g)).
  apply Permutation_length, NoDup_Permutation; try apply NoDup_Edges_ends.
  intros [a b]. rewrite !elem_of_Edges_ends. apply Hsame.
Qed.

Lemma NumberOfEdges_more g g' u v :
  entry g u v = None →
  (∀ a b, is_Some (entry g' a b) ↔ (a = u ∧ b = v) ∨ is_Some (entry g a b)) →
  NumberOfEdges g' = S (NumberOfEdges g).
Proof.
  intros Hnew Hmore. unfold NumberOfEdges.
  rewrite <- (length_fmap (λ e, (edge_u e, edge_v e)) (Edges g')).
  rewrite <- (length_fmap (λ e, (edge_u e, edge_v e)) (Edges g)).
  change (S (length ?l)) with (length ((u, v) :: l)).
  apply Permutation_length, NoDup_Permutation.
  - apply NoDup_Edges_ends.
  - constructor; [|apply NoDup_Edges_ends].
    rewrite elem_of_Edges_ends, Hnew. by intros [??].
  - intros [a b]. rewrite elem_of_cons, !elem_of_Edges_ends, Hmore.
    split; (intros [?|?]; [left|right]); naive_solver.
Qed.

Lemma NumberOfEdges_step g g' u v :
  (∀ a b, is_Some (entry g' a b) ↔ (a = u ∧ b = v) ∨ is_Some (entry g a b)) →
  NumberOfEdges g' = NumberOfEdges g + (if HasEdge g u v then 0 else 1).
Proof.
  intros Hmore. destruct (HasEdge g u v) eqn:E.
  - rewrite Nat.add_0_r. apply NumberOfEdges_same. intros a b.
    rewrite Hmore. apply HasEdge_true in E. naive_solver.
  - rewrite Nat.add_1_r. apply HasEdge_false in E.
    by apply (NumberOfEdges_more g g' u v).
Qed.

Lemma length_bind {A B} (f : A → list B) (l : list A) :
  length (l ≫= f) = sum_list ((λ x, length (f x)) <$> l).
Proof.
  induction l as [|x l IH]; [done|].
  rewrite bind_cons, length_app, fmap_cons, IH. done.
Qed.

(** X1 (graph/graph.go, AddNode).  Adding a node that is present changes
    nothing, so adding twice is adding once; adding an absent node raises
    the node count by one.  In both cases the node is present afterwards,
    no other node appears, and no adjacency entry appears or changes. *)
Theorem AddNode_idempotent g n :
  HasNode (AddNode g n) n = true ∧
  AddNode (AddNode g n) n = AddNode g n ∧
  (HasNode g n = true → AddNode g n = g) ∧
  (HasNode g n = false → NumberOfNodes (AddNode g n) = S (NumberOfNodes g)) ∧
  (∀ k, HasNode (AddNode g n) k = true ↔ k = n ∨ HasNode g k = true) ∧
  (∀ a b, entry (AddNode g n) a b = entry g a b) ∧
  NumberOfEdges (AddNode g n) = NumberOfEdges g.
Proof.
  split_and!.
  - apply HasNode_true, AddNode_is_node. by left.
  - unfold AddNode. destruct (g !! n) eqn:E; [by rewrite E|].
    by rewrite lookup_insert_eq.
  - intros [x Hx]%HasNode_true. unfold AddNode. by rewrite Hx.
  - intros Hn%HasNode_false. rewrite !NumberOfNodes_size. unfold AddNode.
    rewrite Hn. by apply map_size_insert_None.
  - intros k. rewrite !HasNode_true. apply AddNode_is_node.
  - apply AddNode_entry.
  - apply NumberOfEdges_same. intros a b. by rewrite AddNode_entry.
Qed.

(** X2 (graph/graph.go, Nodes and Edges).  Whatever order the runtime
    ranges over the maps in, [Nodes] lists every node exactly once and
    [Edges] lists every adjacency entry exactly once, with its weight; no
    two listed edges have the same end points in the same direction. *)
Theorem Nodes_Edges_exact g :
  NoDup (Nodes g) ∧ (∀ n, n ∈ Nodes g ↔ HasNode g n = true) ∧
  NumberOfNodes g = size (dom g) ∧
  NoDup (Edges g) ∧
  (∀ e, e ∈ Edges g ↔ entry g (edge_u e) (edge_v e) = Some (edge_weight e)) ∧
  (∀ e e', e ∈ Edges g → e' ∈ Edges g →
     edge_u e = edge_u e' → edge_v e = edge_v e' → e = e').
Proof.
  split_and!.
  - apply NoDup_Nodes.
  - intros n. by rewrite elem_of_Nodes, HasNode_true.
  - by rewrite NumberOfNodes_size, size_dom.
  - apply NoDup_Edges.
  - apply elem_of_Edges.
  - intros [u v w] [u' v' w'] He He' Hu Hv. simpl in *. subst u' v'.
    apply elem_of_Edges in He, He'. simpl in *. congruence.
Qed.

(** X3 (graph/graph.go, NumberOfEdges and the degrees).  The edge count is
    the sum of the out-degrees of the nodes and, in a store whose
    neighbours are all nodes, also the sum of their in-degrees. *)
Theorem degree_sum g :
  NumberOfEdges g = sum_list (OutDegree g <$> Nodes g) ∧
  (closed g → NumberOfEdges g = sum_list (InDegree g <$> Nodes g)).
Proof.
  split.
  - unfold NumberOfEdges.
    rewrite <- (length_fmap (λ e, (edge_u e, edge_v e)) (Edges g)), Edges_ends.
    rewrite length_bind. f_equal. apply list_fmap_ext. intros _ u _.
    by rewrite length_fmap.
  - intros Hc. unfold NumberOfEdges.
    rewrite <- (length_fmap (λ e, (edge_u e, edge_v e)) (Edges g)).
    trans (length (v ← Nodes g; (λ u, (u, v)) <$> Predecessors g v)).
    + apply Permutation_length, NoDup_Permutation.
      * apply NoDup_Edges_ends.
      * apply NoDup_bind; [| |apply NoDup_Nodes].
        -- intros v1 v2 [a b] _ _ H1 H2.
           apply list_elem_of_fmap in H1 as (? & [= -> ->] & _).
           apply list_elem_of_fmap in H2 as (? & [= _ ->] & _). done.
        -- intros v _. apply NoDup_fmap_2; [|apply NoDup_Predecessors].
           intros ?? [= ->]. done.
      * intros [a b]. rewrite elem_of_Edges_ends, list_elem_of_bind. split.
        -- intros Hab. exists b. split; [|by apply elem_of_Nodes, (Hc a)].
           apply list_elem_of_fmap. exists a. split; [done|].
           by apply elem_of_Predecessors.
        -- intros (v & Hv & _). apply list_elem_of_fmap in Hv as (u & [= -> ->] & Hu).
           by apply elem_of_Predecessors.
    + rewrite length_bind. f_equal. apply list_fmap_ext. intros _ v _.
      by rewrite length_fmap.
Qed.

End count_facts.

(** ** One edge at a time *)

Section edge_facts.
Context `{Countable K} `{!MapRange K}.
Import Graph.
Implicit Types (g : graphData K) (n u v a b k : K) (w : float64).

(** X4 (directed.go, AddEdge).  A directed [AddEdge u v w] stores the entry
    [u -> v] with weight [w], creates both end points when absent, and
    touches no other entry: in particular not the opposite one.  A second
    call on the same pair overwrites the weight, and the edge count grows
    only when the entry is new. *)
Theorem DirectedAddEdge_inserts g u v w :
  let g' := DirectedGraph.AddEdge g u v w in
  entry g' u v = Some w ∧ HasEdge g' u v = true ∧
  (∀ k, HasNode g' k = true ↔ k = u ∨ k = v ∨ HasNode g k = true) ∧
  (∀ a b, (a, b) ≠ (u, v) → entry g' a b = entry g a b) ∧
  (u ≠ v → HasEdge g' v u = HasEdge g v u) ∧
  (∀ w', DirectedGraph.AddEdge g' u v w' = DirectedGraph.AddEdge g u v w') ∧
  NumberOfEdges g' = NumberOfEdges g + (if HasEdge g u v then 0 else 1).
Proof.
  intros g'. subst g'. split_and!.
  - rewrite DirectedAddEdge_entry. by rewrite decide_True.
  - apply HasEdge_true. rewrite DirectedAddEdge_entry. by rewrite decide_True.
  - intros k. rewrite !HasNode_true. apply DirectedAddEdge_is_node.
  - intros a b Hab. rewrite DirectedAddEdge_entry.
    rewrite decide_False; [done|]. intros [-> ->]. done.
  - intros Huv. rewrite !HasEdge_entry, DirectedAddEdge_entry.
    rewrite decide_False; [done|]. intros [-> _]. done.
  - intros w'. apply store_ext.
    + intros k. rewrite !DirectedAddEdge_is_node. tauto.
    + intros a b. rewrite !DirectedAddEdge_entry. by case_decide.
  - apply NumberOfEdges_step. intros a b. rewrite DirectedAddEdge_entry.
    case_decide; [|tauto]. split; [tauto|]. by intros _.
Qed.

(** X5 (directed.go, RemoveEdge).  A directed [RemoveEdge u v] removes the
    entry [u -> v] and nothing else: both end points stay nodes, every
    other entry stays, and on a missing edge or a missing node the call
    changes nothing.  Removing an edge that was just added to a store
    without it gives the store with the two end points added. *)
Theorem DirectedRemoveEdge_removes g u v :
  let g' := DirectedGraph.RemoveEdge g u v in
  HasEdge g' u v = false ∧
  (∀ k, HasNode g' k = HasNode g k) ∧
  (∀ a b, (a, b) ≠ (u, v) → entry g' a b = entry g a b) ∧
  (HasEdge g u v = false → g' = g) ∧
  NumberOfEdges g = NumberOfEdges g' + (if HasEdge g u v then 1 else 0) ∧
  (∀ w, HasEdge g u v = false →
     DirectedGraph.RemoveEdge (DirectedGraph.AddEdge g u v w) u v
     = AddNodesFrom g [u; v]).
Proof.
  intros g'. subst g'. unfold DirectedGraph.RemoveEdge. split_and!.
  - apply HasEdge_false. rewrite delete_entry. by rewrite decide_True.
  - intros k. unfold HasNode. apply bool_decide_ext, delete_is_node.
  - intros a b Hab. rewrite delete_entry.
    rewrite decide_False; [done|]. intros [-> ->]. done.
  - intros Huv%HasEdge_false. apply store_ext.
    + intros k. apply delete_is_node.
    + intros a b. rewrite delete_entry. case_decide as Hab; [|done].
      destruct Hab as [-> ->]. done.
  - destruct (HasEdge g u v) eqn:E.
    + rewrite Nat.add_1_r. apply (NumberOfEdges_more _ g u v).
      * rewrite delete_entry. by rewrite decide_True.
      * intros a b. rewrite delete_entry. apply HasEdge_true in E.
        case_decide as Hab; [|tauto]. destruct Hab as [-> ->].
        split; [tauto|]. intros [_|[]%is_Some_None]. done.
    + rewrite Nat.add_0_r. apply NumberOfEdges_same. intros a b.
      rewrite delete_entry. apply HasEdge_false in E.
      case_decide as Hab; [|done]. destruct Hab as [-> ->]. by rewrite E.
  - intros w Huv%HasEdge_false. apply store_ext.
    + intros k. rewrite delete_is_node, DirectedAddEdge_is_node.
      unfold AddNodesFrom. simpl foldl. rewrite !AddNode_is_node. tauto.
    + intros a b. rewrite delete_entry, DirectedAddEdge_entry.
      unfold AddNodesFrom. simpl foldl. rewrite !AddNode_entry.
      case_decide as Hab; [|done]. destruct Hab as [-> ->]. done.
Qed.

(** X6 (undirected.go, AddEdge).  An undirected [AddEdge u v w] stores both
    [u -> v] and [v -> u] with weight [w] and touches no other entry; the
    order of the end points does not matter, a second call overwrites both
    weights, and the edge count grows by one for each of the two entries
    that is new (a loop is one entry). *)
Theorem UndirectedAddEdge_inserts g u v w :
  let g' := UndirectedGraph.AddEdge g u v w in
  entry g' u v = Some w ∧ entry g' v u = Some w ∧
  (∀ k, HasNode g' k = true ↔ k = u ∨ k = v ∨ HasNode g k = true) ∧
  (∀ a b, (a, b) ≠ (u, v) → (a, b) ≠ (v, u) → entry g' a b = entry g a b) ∧
  UndirectedGraph.AddEdge g v u w = g' ∧
  (∀ w', UndirectedGraph.AddEdge g' u v w' = UndirectedGraph.AddEdge g u v w') ∧
  NumberOfEdges g'
  = NumberOfEdges g + (if HasEdge g u v then 0 else 1)
    + (if decide (u = v) then 0 else if HasEdge g v u then 0 else 1).
Proof.
  intros g'. subst g'. split_and!.
  - rewrite UndirectedAddEdge_entry. rewrite decide_True; [done|]. by left.
  - rewrite UndirectedAddEdge_entry. rewrite decide_True; [done|]. by right.
  - intros k. rewrite !HasNode_true. apply UndirectedAddEdge_is_node.
  - intros a b H1 H2. rewrite UndirectedAddEdge_entry.
    rewrite decide_False; [done|]. intros [[-> ->]|[-> ->]]; done.
  - apply store_ext.
    + intros k. rewrite !UndirectedAddEdge_is_node. tauto.
    + intros a b. rewrite !UndirectedAddEdge_entry.
      repeat case_decide; try done; tauto.
  - intros w'. apply store_ext.
    + intros k. rewrite !UndirectedAddEdge_is_node. tauto.
    + intros a b. rewrite !UndirectedAddEdge_entry.
      repeat case_decide; try done; tauto.
  - rewrite (NumberOfEdges_step (DirectedGraph.AddEdge g u v w) _ v u).
    + rewrite (NumberOfEdges_step g (DirectedGraph.AddEdge g u v w) u v).
      * f_equal. rewrite (HasEdge_entry (DirectedGraph.AddEdge g u v w)).
        rewrite DirectedAddEdge_entry. case_decide as Hvu.
        -- destruct Hvu as [-> _]. rewrite bool_decide_eq_true_2; [|done].
           by rewrite decide_True.
        -- rewrite <- HasEdge_entry. case_decide as Huv; [|done].
           subst v. tauto.
      * intros a b. rewrite DirectedAddEdge_entry.
        case_decide; [|tauto]. split; [tauto|]. by intros _.
    + intros a b. rewrite UndirectedAddEdge_entry, DirectedAddEdge_entry.
      repeat case_decide; try tauto; split; (try tauto); by intros _.
Qed.

(** X7 (undirected.go, RemoveEdge).  An undirected [RemoveEdge u v] removes
    the entries [u -> v] and [v -> u] and nothing else; the order of the
    end points does not matter, the end points stay nodes, and when
    neither entry is there the call changes nothing. *)
Theorem UndirectedRemoveEdge_removes g u v :
  let g' := UndirectedGraph.RemoveEdge g u v in
  HasEdge g' u v = false ∧ HasEdge g' v u = false ∧
  (∀ k, HasNode g' k = HasNode g k) ∧
  (∀ a b, (a, b) ≠ (u, v) → (a, b) ≠ (v, u) → entry g' a b = entry g a b) ∧
  UndirectedGraph.RemoveEdge g v u = g' ∧
  (HasEdge g u v = false → HasEdge g v u = false → g' = g) ∧
  (∀ w, HasEdge g u v = false → HasEdge g v u = false →
     UndirectedGraph.RemoveEdge (UndirectedGraph.AddEdge g u v w) u v
     = AddNodesFrom g [u; v]).
Proof.
  intros g'. subst g'.
  assert (Hnodes : ∀ g0 x y k,
    is_Some (UndirectedGraph.RemoveEdge g0 x y !! k) ↔ is_Some (g0 !! k)).
  { intros g0 x y k. unfold UndirectedGraph.RemoveEdge.
    by rewrite !delete_is_node. }
  split_and!.
  - apply HasEdge_false. rewrite UndirectedRemoveEdge_entry.
    rewrite decide_True; [done|]. by left.
  - apply HasEdge_false. rewrite UndirectedRemoveEdge_entry.
    rewrite decide_True; [done|]. by right.
  - intros k. unfold HasNode. apply bool_decide_ext, Hnodes.
  - intros a b H1 H2. rewrite UndirectedRemoveEdge_entry.
    rewrite decide_False; [done|]. intros [[-> ->]|[-> ->]]; done.
  - apply store_ext.
    + intros k. by rewrite !Hnodes.
    + intros a b. rewrite !UndirectedRemoveEdge_entry.
      repeat case_decide; try done; tauto.
  - intros Huv%HasEdge_false Hvu%HasEdge_false. apply store_ext.
    + intros k. apply Hnodes.
    + intros a b. rewrite UndirectedRemoveEdge_entry.
      case_decide as Hab; [|done]. by destruct Hab as [[-> ->]|[-> ->]].
  - intros w Huv%HasEdge_false Hvu%HasEdge_false. apply store_ext.
    + intros k. rewrite Hnodes, UndirectedAddEdge_is_node.
      unfold AddNodesFrom. simpl foldl. rewrite !AddNode_is_node. tauto.
    + intros a b. rewrite UndirectedRemoveEdge_entry, UndirectedAddEdge_entry.
      unfold AddNodesFrom. simpl foldl. rewrite !AddNode_entry.
      case_decide as Hab; [|done]. by destruct Hab as [[-> ->]|[-> ->]].
Qed.

End edge_facts.

(** ** Lists of nodes and of edges *)

Section batch_facts.
Context `{Countable K} `{!MapRange K}.
Import Graph.
Implicit Types (g : graphData K) (n u v a b k : K) (w : float64)
  (ns : list K) (es : list (@Edge K)).

Lemma AddNodesFrom_is_node g ns k :
  is_Some (AddNodesFrom g ns !! k) ↔ k ∈ ns ∨ is_Some (g !! k).
Proof.
  unfold AddNodesFrom. revert g.
  induction ns as [|n ns IH]; intros g; simpl foldl.
  - rewrite elem_of_nil. tauto.
  - rewrite IH, AddNode_is_node, elem_of_cons. tauto.
Qed.

Lemma AddNodesFrom_entry g ns a b :
  entry (AddNodesFrom g ns) a b = entry g a b.
Proof.
  unfold AddNodesFrom. revert g.
  induction ns as [|n ns IH]; intros g; simpl foldl; [done|].
  by rewrite IH, AddNode_entry.
Qed.

Lemma RemoveNodesFrom_is_node g ns k :
  is_Some (RemoveNodesFrom g ns !! k) ↔ (k ∉ ns) ∧ is_Some (g !! k).
Proof.
  unfold RemoveNodesFrom. revert g.
  induction ns as [|n ns IH]; intros g; simpl foldl.
  - rewrite elem_of_nil. tauto.
  - rewrite IH, RemoveNode_is_node, not_elem_of_cons. tauto.
Qed.

Lemma RemoveNodesFrom_entry g ns a b :
  entry (RemoveNodesFrom g ns) a b
  = if decide (a ∈ ns ∨ b ∈ ns) then None else entry g a b.
Proof.
  unfold RemoveNodesFrom. revert g.
  induction ns as [|n ns IH]; intros g; simpl foldl.
  - rewrite decide_False; [done|]. rewrite !elem_of_nil. tauto.
  - rewrite IH, RemoveNode_entry.
    destruct (decide (a ∈ n :: ns ∨ b ∈ n :: ns)) as [Hin|Hout].
    + rewrite !elem_of_cons in Hin. repeat case_decide; try done. tauto.
    + rewrite !elem_of_cons in Hout. repeat case_decide; try done; tauto.
Qed.

(** X8 (graph/graph.go, AddNodesFrom).  After [AddNodesFrom ns] the nodes
    are the old ones and those of [ns]; no adjacency entry appears or
    changes, so nodes that were present keep their edges.  Order and
    repetitions in [ns] do not matter, and a second call with the same
    list changes nothing. *)
Theorem AddNodesFrom_adds g ns :
  (∀ k, HasNode (AddNodesFrom g ns) k = true ↔ k ∈ ns ∨ HasNode g k = true) ∧
  (∀ a b, entry (AddNodesFrom g ns) a b = entry g a b) ∧
  (∀ ns', (∀ k, k ∈ ns' ↔ k ∈ ns) → AddNodesFrom g ns' = AddNodesFrom g ns) ∧
  AddNodesFrom (AddNodesFrom g ns) ns = AddNodesFrom g ns ∧
  NumberOfEdges (AddNodesFrom g ns) = NumberOfEdges g.
Proof.
  split_and!.
  - intros k. rewrite !HasNode_true. apply AddNodesFrom_is_node.
  - apply AddNodesFrom_entry.
  - intros ns' Hsame. apply store_ext.
    + intros k. rewrite !AddNodesFrom_is_node, Hsame. done.
    + intros a b. by rewrite !AddNodesFrom_entry.
  - apply store_ext.
    + intros k. rewrite !AddNodesFrom_is_node. tauto.
    + intros a b. by rewrite !AddNodesFrom_entry.
  - apply NumberOfEdges_same. intros a b. by rewrite AddNodesFrom_entry.
Qed.

(** X9 (graph/graph.go, RemoveNodesFrom).  After [RemoveNodesFrom ns] the
    nodes are the old ones outside [ns], and the entries are the old ones
    with neither end in [ns].  Removing all nodes is [Clear]; and in a
    store whose neighbours are all nodes, removing nodes that were just
    added gives the store back. *)
Theorem RemoveNodesFrom_removes g ns :
  (∀ k, HasNode (RemoveNodesFrom g ns) k = true
        ↔ (k ∉ ns) ∧ HasNode g k = true) ∧
  (∀ a b, entry (RemoveNodesFrom g ns) a b
          = if decide (a ∈ ns ∨ b ∈ ns) then None else entry g a b) ∧
  RemoveNodesFrom g (Nodes g) = Clear g ∧
  (closed g → (∀ n, n ∈ ns → HasNode g n = false) →
   RemoveNodesFrom (AddNodesFrom g ns) ns = g).
Proof.
  split_and!.
  - intros k. rewrite !HasNode_true. apply RemoveNodesFrom_is_node.
  - apply RemoveNodesFrom_entry.
  - apply map_eq. intros k. unfold Clear. rewrite lookup_empty.
    apply eq_None_not_Some. rewrite RemoveNodesFrom_is_node, elem_of_Nodes.
    tauto.
  - intros Hc Hnew. apply store_ext.
    + intros k. rewrite RemoveNodesFrom_is_node, AddNodesFrom_is_node.
      split; [tauto|]. intros Hk. split; [|tauto].
      intros Hin%Hnew%HasNode_false. rewrite Hin in Hk. by destruct Hk.
    + intros a b. rewrite RemoveNodesFrom_entry, AddNodesFrom_entry.
      case_decide as Hab; [|done]. symmetry. apply eq_None_not_Some.
      intros Hs. destruct Hab as [Hin%Hnew%HasNode_false|Hin%Hnew%HasNode_false].
      * apply entry_is_node in Hs. rewrite Hin in Hs. by destruct Hs.
      * apply Hc in Hs. rewrite Hin in Hs. by destruct Hs.
Qed.

Lemma DirectedAddEdgesFrom_is_node g es k :
  is_Some (DirectedGraph.AddEdgesFrom g es !! k)
  ↔ is_Some (g !! k) ∨ ∃ e, e ∈ es ∧ (k = edge_u e ∨ k = edge_v e).
Proof.
  unfold DirectedGraph.AddEdgesFrom. revert g.
  induction es as [|e es IH]; intros g; simpl foldl.
  - split; [tauto|]. intros [|(e & []%elem_of_nil & _)]. done.
  - rewrite IH, DirectedAddEdge_is_node. split.
    + intros [[Hk|[Hk|Hk]]|(e' & He' & Hk)]; [| |tauto|].
      * right. exists e. split; [by left|tauto].
      * right. exists e. split; [by left|tauto].
      * right. exists e'. split; [by right|tauto].
    + intros [Hk|(e' & [->|He']%elem_of_cons & Hk)]; [tauto|tauto|].
      right. by exists e'.
Qed.

Lemma UndirectedAddEdgesFrom_is_node g es k :
  is_Some (UndirectedGraph.AddEdgesFrom g es !! k)
  ↔ is_Some (g !! k) ∨ ∃ e, e ∈ es ∧ (k = edge_u e ∨ k = edge_v e).
Proof.
  unfold UndirectedGraph.AddEdgesFrom. revert g.
  induction es as [|e es IH]; intros g; simpl foldl.
  - split; [tauto|]. intros [|(e & []%elem_of_nil & _)]. done.
  - rewrite IH, UndirectedAddEdge_is_node. split.
    + intros [[Hk|[Hk|Hk]]|(e' & He' & Hk)]; [| |tauto|].
      * right. exists e. split; [by left|tauto].
      * right. exists e. split; [by left|tauto].
      * right. exists e'. split; [by right|tauto].
    + intros [Hk|(e' & [->|He']%elem_of_cons & Hk)]; [tauto|tauto|].
      right. by exists e'.
Qed.

(** X10 (directed.go and undirected.go, AddEdgesFrom).  After
    [AddEdgesFrom es] the weight stored for a pair of nodes is that of the
    last edge of [es] that joins them (in that direction for a directed
    graph, in either for an undirected one); pairs that no listed edge
    joins keep their entry.  The nodes are the old ones and the end points
    of the listed edges. *)
Theorem AddEdgesFrom_last_wins g es :
  (∀ u v, entry (DirectedGraph.AddEdgesFrom g es) u v
     = from_option (λ e, Some (edge_weight e)) (entry g u v)
         (last (filter (λ e, edge_u e = u ∧ edge_v e = v) es))) ∧
  (∀ u v, entry (UndirectedGraph.AddEdgesFrom g es) u v
     = from_option (λ e, Some (edge_weight e)) (entry g u v)
         (last (filter (λ e, (edge_u e = u ∧ edge_v e = v) ∨
                             (edge_u e = v ∧ edge_v e = u)) es))) ∧
  (∀ k, HasNode (DirectedGraph.AddEdgesFrom g es) k = true
        ↔ HasNode g k = true ∨ ∃ e, e ∈ es ∧ (k = edge_u e ∨ k = edge_v e)) ∧
  (∀ k, HasNode (UndirectedGraph.AddEdgesFrom g es) k = true
        ↔ HasNode g k = true ∨ ∃ e, e ∈ es ∧ (k = edge_u e ∨ k = edge_v e)).
Proof.
  split_and!.
  - intros u v. induction es as [|e es IH] using rev_ind; [done|].
    unfold DirectedGraph.AddEdgesFrom in *. rewrite foldl_snoc.
    rewrite DirectedAddEdge_entry, IH, filter_app, filter_cons, filter_nil.
    destruct (decide (edge_u e = u ∧ edge_v e = v)) as [[Hu Hv]|Hne].
    + rewrite last_snoc. simpl. rewrite decide_True; done.
    + rewrite app_nil_r. rewrite decide_False; [done|]. naive_solver.
  - intros u v. induction es as [|e es IH] using rev_ind; [done|].
    unfold UndirectedGraph.AddEdgesFrom in *. rewrite foldl_snoc.
    rewrite UndirectedAddEdge_entry, IH, filter_app, filter_cons, filter_nil.
    destruct (decide ((edge_u e = u ∧ edge_v e = v) ∨
                      (edge_u e = v ∧ edge_v e = u))) as [He|Hne].
    + rewrite last_snoc. simpl. rewrite decide_True; [done|]. naive_solver.
    + rewrite app_nil_r. rewrite decide_False; [done|]. naive_solver.
  - intros k. rewrite !HasNode_true. apply DirectedAddEdgesFrom_is_node.
  - intros k. rewrite !HasNode_true. apply UndirectedAddEdgesFrom_is_node.
Qed.

(** X11 (directed.go and undirected.go, RemoveEdgesFrom).  After
    [RemoveEdgesFrom es] a pair of nodes has no entry when some listed edge
    joins it (in that direction for a directed graph, in either for an
    undirected one) and keeps its entry otherwise; the weights of the
    listed edges are not looked at, and no node is removed. *)
Theorem RemoveEdgesFrom_removes g es :
  (∀ a b, entry (DirectedGraph.RemoveEdgesFrom g es) a b
     = if decide (Exists (λ e, edge_u e = a ∧ edge_v e = b) es) then None
       else entry g a b) ∧
  (∀ a b, entry (UndirectedGraph.RemoveEdgesFrom g es) a b
     = if decide (Exists (λ e, (edge_u e = a ∧ edge_v e = b) ∨
                               (edge_u e = b ∧ edge_v e = a)) es) then None
       else entry g a b) ∧
  (∀ k, HasNode (DirectedGraph.RemoveEdgesFrom g es) k = HasNode g k) ∧
  (∀ k, HasNode (UndirectedGraph.RemoveEdgesFrom g es) k = HasNode g k).
Proof.
  split_and!.
  - intros a b. unfold DirectedGraph.RemoveEdgesFrom. revert g.
    induction es as [|e es IH]; intros g; simpl foldl.
    + rewrite decide_False; [done|]. by intros ?%Exists_nil.
    + rewrite IH, delete_entry. clear IH.
      destruct (decide (Exists (λ e, edge_u e = a ∧ edge_v e = b) (e :: es)))
        as [Hex|Hnex]; rewrite Exists_cons in *.
      * repeat case_decide; try done. exfalso. naive_solver.
      * repeat case_decide; try done; exfalso; naive_solver.
  - intros a b. unfold UndirectedGraph.RemoveEdgesFrom. revert g.
    induction es as [|e es IH]; intros g; simpl foldl.
    + rewrite decide_False; [done|]. by intros ?%Exists_nil.
    + rewrite IH.
      change (alter (delete (edge_u e)) (edge_v e)
                (alter (delete (edge_v e)) (edge_u e) g))
        with (UndirectedGraph.RemoveEdge g (edge_u e) (edge_v e)).
      rewrite UndirectedRemoveEdge_entry. clear IH.
      destruct (decide (Exists (λ e, (edge_u e = a ∧ edge_v e = b) ∨
                                     (edge_u e = b ∧ edge_v e = a)) (e :: es)))
        as [Hex|Hnex]; rewrite Exists_cons in *.
      * repeat case_decide; try done. exfalso. naive_solver.
      * repeat case_decide; try done; exfalso; naive_solver.
  - intros k. unfold HasNode. apply bool_decide_ext.
    unfold DirectedGraph.RemoveEdgesFrom. revert g.
    induction es as [|e es IH]; intros g; simpl foldl; [done|].
    by rewrite IH, delete_is_node.
  - intros k. unfold HasNode. apply bool_decide_ext.
    unfold UndirectedGraph.RemoveEdgesFrom. revert g.
    induction es as [|e es IH]; intros g; simpl foldl; [done|].
    by rewrite IH, !delete_is_node.
Qed.

End batch_facts.

(** ** Queries *)

Section query_extras.
Context `{Countable K} `{!MapRange K}.
Import Graph.
Implicit Types (g : graphData K) (n u v a b k : K) (w : float64).

(** X12 (undirected.go, Neighbors, Predecessors and Degree).  In a store
    that holds both directions of every edge, the predecessors of a node
    are its successors, so what the undirected graph returns in their
    place is a list of the same nodes; it names every neighbour once,
    where the store's own [Neighbors] names each twice, and the store's
    [Degree] is twice the undirected one. *)
Theorem undirected_overrides g n :
  UndirectedGraph.symmetric g →
  Predecessors g n ≡ₚ UndirectedGraph.Predecessors g n ∧
  Neighbors g n
  ≡ₚ UndirectedGraph.Neighbors g n ++ UndirectedGraph.Neighbors g n ∧
  NoDup (UndirectedGraph.Neighbors g n) ∧
  (∀ v, v ∈ UndirectedGraph.Neighbors g n ↔ HasEdge g n v = true) ∧
  (∀ v, v ∈ UndirectedGraph.Neighbors g n ↔ HasEdge g v n = true) ∧
  InDegree g n = UndirectedGraph.Degree g n ∧
  OutDegree g n = UndirectedGraph.Degree g n ∧
  Degree g n = 2 * UndirectedGraph.Degree g n.
Proof.
  intros Hsym.
  unfold UndirectedGraph.Predecessors, UndirectedGraph.Degree,
    UndirectedGraph.Neighbors.
  assert (Hperm : Predecessors g n ≡ₚ Successors g n).
  { apply NoDup_Permutation.
    - apply NoDup_Predecessors.
    - apply NoDup_Successors.
    - intros u. by rewrite elem_of_Predecessors, elem_of_Successors, Hsym. }
  assert (Hlen : InDegree g n = length (Successors g n)).
  { unfold InDegree. by rewrite Hperm. }
  split_and!.
  - done.
  - unfold Neighbors. by rewrite Hperm.
  - apply NoDup_Successors.
  - intros v. by rewrite elem_of_Successors, HasEdge_true.
  - intros v. by rewrite elem_of_Successors, HasEdge_true, Hsym.
  - done.
  - done.
  - unfold Degree, OutDegree. rewrite Hlen. lia.
Qed.

(** X13 (graph/graph.go, the queries on a node that is absent).  A node
    that was never added has no successors and out-degree 0, is the
    source of no edge, and removing an edge that would leave it changes
    nothing: the map reads on the missing key yield the nil map.  In a
    store whose neighbours are all nodes it has no predecessors and no
    neighbours either, and degree 0. *)
Theorem absent_node_queries g n :
  HasNode g n = false →
  Successors g n = [] ∧ OutDegree g n = 0 ∧
  (∀ v, HasEdge g n v = false) ∧
  (∀ v, DirectedGraph.RemoveEdge g n v = g) ∧
  (closed g →
   Predecessors g n = [] ∧ InDegree g n = 0 ∧ Neighbors g n = [] ∧
   Degree g n = 0 ∧ ∀ v, HasEdge g v n = false).
Proof.
  intros Hn%HasNode_false.
  assert (Hs : Successors g n = []).
  { unfold Successors, adjacency. rewrite Hn. simpl. by rewrite range_empty. }
  split_and!.
  - done.
  - unfold OutDegree. by rewrite Hs.
  - intros v. unfold HasEdge. by rewrite Hn.
  - intros v. unfold DirectedGraph.RemoveEdge. apply map_eq. intros k.
    rewrite lookup_alter. case_decide as Hk; [|done]. subst k.
    by rewrite Hn.
  - intros Hc.
    assert (Hnone : ∀ v, entry g v n = None).
    { intros v. apply eq_None_not_Some. intros Hs'%Hc.
      rewrite Hn in Hs'. by destruct Hs'. }
    assert (Hp : Predecessors g n = []).
    { apply elem_of_nil_inv. intros u Hu%elem_of_Predecessors.
      rewrite Hnone in Hu. by destruct Hu. }
    split_and!.
    + done.
    + unfold InDegree. by rewrite Hp.
    + unfold Neighbors. by rewrite Hs, Hp.
    + unfold Degree, InDegree, OutDegree. by rewrite Hs, Hp.
    + intros v. by apply HasEdge_false.
Qed.

(** X14 (graph.go, the iterator-based store).  [Predecessors] of the
    iterator-based store yields the queried node once for every node that
    holds an entry to it.  The counts built on it are therefore those of
    the slice-based store; [Neighbors] yields the successors followed by
    repetitions of the queried node; and the two [Predecessors] agree
    only when the queried node has no predecessor but itself. *)
Theorem IterGraph_counts g n :
  IterGraph.Predecessors g n = replicate (InDegree g n) n ∧
  IterGraph.InDegree g n = InDegree g n ∧
  IterGraph.OutDegree g n = OutDegree g n ∧
  IterGraph.Degree g n = Degree g n ∧
  IterGraph.Neighbors g n = Successors g n ++ replicate (InDegree g n) n ∧
  (IterGraph.Predecessors g n = Predecessors g n
   ↔ ∀ u, is_Some (entry g u n) → u = n).
Proof.
  assert (Hy : IterGraph.Predecessors g n = replicate (InDegree g n) n).
  { rewrite IterGraph_Predecessors_yield. apply const_fmap. done. }
  assert (Hi : IterGraph.InDegree g n = InDegree g n).
  { unfold IterGraph.InDegree. by rewrite Hy, length_replicate. }
  split_and!.
  - done.
  - done.
  - done.
  - unfold IterGraph.Degree, Degree. by rewrite Hi.
  - unfold IterGraph.Neighbors. by rewrite Hy.
  - rewrite Hy. split.
    + intros Heq u Hu%elem_of_Predecessors. rewrite <- Heq in Hu.
      by apply elem_of_replicate_inv in Hu.
    + intros Hself. unfold InDegree.
      assert (Hall : ∀ u, u ∈ Predecessors g n → u = n).
      { intros u Hu%elem_of_Predecessors. by apply Hself. }
      assert (Hnd := NoDup_Predecessors g n).
      destruct (Predecessors g n) as [|x [|y l]]; [done| |].
      * simpl. f_equal. symmetry. apply Hall. by left.
      * exfalso. apply NoDup_cons in Hnd as [Hx _]. apply Hx.
        rewrite (Hall x), (Hall y); [by left| |by left].
        right. by left.
Qed.

End query_extras.

Lemma undirected_overrides_witness :
  let g : graphData Z :=
    UndirectedGraph.AddEdge (UndirectedGraph.AddEdge ∅ 1%Z 2%Z (Fin 1))
      1%Z 3%Z (Fin 1) in
  UndirectedGraph.symmetric g ∧
  Graph.Degree g 1%Z = 2 * UndirectedGraph.Degree g 1%Z.
Proof.
  intros g.
  assert (Hsym : UndirectedGraph.symmetric g).
  { do 2 apply symmetric_AddEdge. apply symmetric_empty. }
  split; [exact Hsym|].
  apply (undirected_overrides g 1%Z Hsym).
Defined.

Lemma absent_node_queries_witness :
  let g : graphData Z := DirectedGraph.AddEdge ∅ 1%Z 2%Z (Fin 1) in
  Graph.HasNode g 3%Z = false ∧ Graph.Successors g 3%Z = [].
Proof.
  intros g.
  assert (Hn : Graph.HasNode g 3%Z = false) by (vm_compute; reflexivity).
  split; [exact Hn|].
  apply (absent_node_queries g 3%Z Hn).
Defined.

(** * Further properties of path finding *)

(** ** BFS: the two maps *)

Section bfs_extras.
Context `{Countable K} `{!MapRange K} `{!ZeroValue K}.
Import Graph PathFinder.
Implicit Types (g : graphData K) (s t u v x y cur : K) (p : list K)
  (st : bfs_state (K:=K)).

Lemma chain_snoc_inv (m : gmap K K) s x p :
  chain m s x p → x ≠ s →
  ∃ u p', p = p' ++ [x] ∧ chain m s u p' ∧ m !! x = Some u.
Proof. destruct 1 as [|u v p Hc Hu _]; [done|]. intros _. by exists u, p. Qed.

Lemma path_snoc_inv g s x p :
  path g s x p → x ≠ s →
  ∃ u p', p = p' ++ [x] ∧ path g s u p' ∧ is_Some (entry g u x).
Proof. destruct 1 as [|u v p Hp He]; [done|]. intros _. by exists u, p. Qed.

(** What both steps of the loop keep, the loop keeps. *)
Lemma bfs_loop_keeps g (P : bfs_state → Prop) :
  (∀ st queue, P st → P (bfs_pop st queue)) →
  (∀ cur st v, P st → P (bfs_visit cur st v)) →
  ∀ fuel st st', P st → bfs_loop fuel g st = Some st' → P st'.
Proof.
  intros Hpop Hvisit.
  assert (Hall : ∀ cur l st, P st → P (foldl (bfs_visit cur) st l)).
  { intros cur l. induction l as [|v l IH]; intros st HP; simpl foldl; [done|].
    by apply IH, Hvisit. }
  induction fuel as [|fuel IH]; intros st st' HP; simpl;
    destruct (bfs_queue st) as [|cur rest] eqn:Hq; try congruence.
  intros Hl. eapply IH; [|exact Hl]. by apply Hall, Hpop.
Qed.

Lemma BFS_start_kept g s :
  ∃ st hops, bfs_outer g s hops st ∧ bfs_queue st = [] ∧
        BFS g s = Some (bfs_distances st, bfs_previous st) ∧
        bfs_previous st !! s = Some s ∧
        ∀ x, is_Some (bfs_distances st !! x) → x ∈ bfs_visited st.
Proof.
  destruct (bfs_loop_total g s (S (size (edge_targets g))) (λ _, 0) (bfs_init s))
    as (st & hops & Hl & Hout & Hq);
    [apply bfs_init_outer | apply bfs_init_measure|].
  exists st, hops. split; [done|]. split; [done|].
  split; [unfold BFS; by rewrite Hl|].
  pose (P := λ st : bfs_state (K:=K),
    s ∈ bfs_visited st ∧ bfs_previous st !! s = Some s ∧
    ∀ x, is_Some (bfs_distances st !! x) → x ∈ bfs_visited st).
  assert (HP : P st).
  { apply (bfs_loop_keeps g P) with (fuel := S (size (edge_targets g)))
      (st := bfs_init s); [| | |done].
    - by intros st0 queue HP.
    - intros cur st0 v (Hs & Hp & Hd). unfold P, bfs_visit.
      case_decide as Hv; [done|].
      cbn [bfs_visited bfs_previous bfs_distances bfs_queue]. split_and!.
      + set_solver.
      + rewrite lookup_insert_ne; [done|]. by intros ->.
      + intros x [->|Hx]%lookup_insert_is_Some'; [set_solver|].
        apply Hd in Hx. set_solver.
    - unfold P, bfs_init.
      cbn [bfs_visited bfs_previous bfs_distances bfs_queue]. split_and!.
      + set_solver.
      + apply lookup_singleton_eq.
      + intros x Hx%lookup_singleton_is_Some. subst x. set_solver. }
  destruct HP as (_ & ? & ?). done.
Qed.

(** X15 (path finding, BFS).  [BFS] returns on every store.  Its two maps
    have an entry for exactly the nodes that can be reached from the start;
    the distance stored for such a node is the least number of edges on a
    path to it; the start is its own parent at distance 0, and every other
    reached node has as parent a node one hop nearer that holds an
    adjacency entry to it. *)
Theorem BFS_result g s :
  ∃ distances previous, BFS g s = Some (distances, previous) ∧
    previous !! s = Some s ∧ distances !! s = Some (Fin 0) ∧
    (∀ t, is_Some (previous !! t) ↔ reachable g s t) ∧
    (∀ t, is_Some (distances !! t) ↔ reachable g s t) ∧
    (∀ t, reachable g s t →
       ∃ p, path_from_to g s t p ∧
            distances !! t = Some (level (length p - 1)) ∧
            ∀ q, path_from_to g s t q → length p ≤ length q) ∧
    (∀ t u, previous !! t = Some u → t ≠ s →
       is_Some (entry g u t) ∧
       fget distances t = fadd (fget distances u) (Fin 1)).
Proof.
  destruct (BFS_start_kept g s) as (st & hops & Hout & Hq & HBFS & Hps & Hdv).
  exists (bfs_distances st), (bfs_previous st).
  assert (Hout' := Hout). destruct Hout' as [lo Hinv].
  assert (Hreach : ∀ t, t ∈ bfs_visited st ↔ reachable g s t).
  { intros t. split.
    - intros Hv. destruct (bfs_tree _ _ _ _ _ _ Hinv t Hv) as (p & _ & Hp & _).
      by exists p.
    - intros [p Hp]. by destruct (bfs_complete g s hops st t p Hout Hq Hp). }
  split_and!.
  - done.
  - done.
  - destruct (bfs_start _ _ _ _ _ _ Hinv) as [Hs Hs0].
    rewrite (bfs_level _ _ _ _ _ _ Hinv s Hs), Hs0. done.
  - intros t. by rewrite <- Hreach, (bfs_dom _ _ _ _ _ _ Hinv).
  - intros t. rewrite <- Hreach. split; [apply Hdv|].
    intros Hv. rewrite (bfs_level _ _ _ _ _ _ Hinv t Hv). by eexists.
  - intros t Hv%Hreach.
    destruct (bfs_tree _ _ _ _ _ _ Hinv t Hv) as (p & _ & Hp & Hl & _).
    exists p. split; [by apply path_iff|]. split.
    + rewrite (bfs_level _ _ _ _ _ _ Hinv t Hv). do 2 f_equal. lia.
    + intros q Hq'%path_iff. rewrite Hl.
      by apply (bfs_complete g s hops st t q Hout Hq).
  - intros t u Htu Hts.
    assert (Hv : t ∈ bfs_visited st).
    { apply (bfs_dom _ _ _ _ _ _ Hinv). by eexists. }
    destruct (bfs_tree _ _ _ _ _ _ Hinv t Hv) as (p & Hc & Hp & Hl & _).
    destruct (chain_snoc_inv _ _ _ _ Hc Hts) as (u' & p' & Heq & Hc' & Hu').
    assert (u' = u) as -> by congruence.
    destruct (path_snoc_inv _ _ _ _ Hp Hts) as (u'' & p'' & Heq' & Hp'' & He).
    rewrite Heq in Heq'. apply app_inj_tail in Heq' as [<- _].
    assert (u'' = u) as ->.
    { apply path_last in Hp''. apply chain_last in Hc'. congruence. }
    split; [done|].
    destruct (bfs_complete g s hops st u p' Hout Hq Hp'') as [Hvu Hlu].
    destruct (bfs_tree _ _ _ _ _ _ Hinv u Hvu) as (pu & _ & Hpu & Hlpu & _).
    destruct (bfs_complete g s hops st t (pu ++ [t]) Hout Hq) as [_ Hlt].
    { by eapply path_step. }
    rewrite length_app in Hlt. simpl in Hlt.
    rewrite Heq, length_app in Hl. simpl in Hl.
    assert (Hhops : hops t = S (hops u)) by lia.
    unfold fget.
    rewrite (bfs_level _ _ _ _ _ _ Hinv t Hv), (bfs_level _ _ _ _ _ _ Hinv u Hvu).
    change (level (hops t) = fadd (level (hops u)) (Fin 1)).
    by rewrite Hhops.
Qed.

End bfs_extras.

(** ** Dijkstra on any store, for any weights *)

Section dijkstra_extras.
Context `{Countable K} `{!MapRange K} `{!ZeroValue K}.
Import Graph PathFinder.
Implicit Types (g : graphData K) (s t u v x y cur : K) (p : list K)
  (st : dijkstra_state (K:=K)).

(** X16 (path finding, Dijkstra).  [Dijkstra] returns on every store and
    for all weights, negative, infinite and NaN included.  Its distance
    map has an entry for the start and for every node; its parent map has
    one for the start; a node with a parent entry can be reached from the
    start, its parent has a parent entry too and holds an adjacency entry
    to it; and a node without a parent entry is left at distance
    [+Inf]. *)
Theorem Dijkstra_any_weights g s :
  ∃ distances previous, Dijkstra g s = Some (distances, previous) ∧
    is_Some (previous !! s) ∧
    (∀ x, x = s ∨ HasNode g x = true → is_Some (distances !! x)) ∧
    (∀ x, is_Some (previous !! x) → reachable g s x) ∧
    (∀ v u, previous !! v = Some u → v ≠ s →
       is_Some (previous !! u) ∧ is_Some (entry g u v)) ∧
    (∀ x, HasNode g x = true → previous !! x = None →
       distances !! x = Some PInf).
Proof.
  destruct (Dijkstra_sound_run g s) as (st & HD & [Hq Hs Hr Hp Hu Hlo Hhi] & _).
  exists (dj_distances st), (dj_previous st). split_and!; try done.
  - intros x Hx. apply Hlo. rewrite HasNode_true in Hx. done.
  - intros v u Hv Hne. destruct (Hp v u Hv). auto.
  - intros x Hx%HasNode_true Hn. rewrite fget_lookup; [|apply Hlo; by right].
    f_equal. by apply Hu.
Qed.

(** X17 (path finding, DijkstraTo).  Whatever the weights, [DijkstraTo]
    answers a target that cannot be reached with the empty path, length 0
    and cost [+Inf]; and whenever it returns something else, that is a
    path from start to target along adjacency entries together with its
    node count. *)
Theorem DijkstraTo_sound g s t :
  (¬ reachable g s t → DijkstraTo g s t = Some ([], 0, PInf)) ∧
  ∀ p n c, DijkstraTo g s t = Some (p, n, c) →
    n = length p ∧ ((p = [] ∧ c = PInf) ∨ path_from_to g s t p).
Proof.
  destruct (Dijkstra_sound_run g s) as (st & HD & [Hq Hs Hr Hp Hu Hlo Hhi] & _).
  unfold DijkstraTo. rewrite HD.
  cbn [mbind option_bind]. split.
  - intros Hnr. destruct (dj_previous st !! t) eqn:Ht; [|done].
    destruct Hnr. apply Hr. by eexists.
  - intros p n c. destruct (dj_previous st !! t) as [u|] eqn:Ht.
    + destruct (build_path (dj_previous st) s t) as [p'|] eqn:Hb; [|done].
      cbn [mbind option_bind]. intros [= <- <- <-]. split; [done|]. right.
      unfold build_path in Hb.
      destruct (walk_back (size (dj_previous st)) (dj_previous st) s t [t])
        as [r|] eqn:Hw; [|done].
      injection Hb as <-.
      destruct (walk_back_path g (dj_previous st) s (size (dj_previous st)) t [] r)
        as (p & Hpath & ->).
      * intros v u' Hv. destruct (Hp v u' Hv). auto.
      * by eexists.
      * done.
      * simpl. rewrite reverse_involutive. by apply path_iff.
    + intros [= <- <- <-]. split; [done|]. by left.
Qed.

(** X18 (path finding, Dijkstra).  On a graph whose edge weights are not
    negative the maps that [Dijkstra] returns are exact up to overflow:
    the parent map has an entry for exactly the nodes that some path
    reaches at a finite total weight, the distance of such a node is the
    least total weight of a path to it, every other node of the graph has
    distance [+Inf], and nothing but the start and the nodes has a
    distance.  The total weight of a path is the [float64] sum of its edge
    weights in the order of the path. *)
Theorem Dijkstra_distances g s :
  closed g → weights_nonneg g → weights_valid g →
  ∃ distances previous, Dijkstra g s = Some (distances, previous) ∧
    (∀ t, is_Some (previous !! t) ↔ reachable_finite g s t) ∧
    (∀ t, reachable_finite g s t →
       ∃ p, path_from_to g s t p ∧
            distances !! t = Some (path_weight g p) ∧
            finite (path_weight g p) ∧
            ∀ q, path_from_to g s t q →
                 fle (path_weight g p) (path_weight g q) = true) ∧
    (∀ t, HasNode g t = true → ¬ reachable_finite g s t →
       distances !! t = Some PInf) ∧
    (∀ t, is_Some (distances !! t) ↔ t = s ∨ HasNode g t = true).
Proof.
  intros Hc Hn Hv. assert (Hw := weights_ok_intro g Hn Hv).
  destruct (Dijkstra_run g s Hw) as (st & HD & Hout & Hq).
  destruct (Dijkstra_sound_run g s) as (st' & HD' & [_ _ Hr _ Hu Hlo Hhi] & _).
  rewrite HD in HD'. injection HD' as Hd' Hp'.
  rewrite <- Hp' in Hr, Hu. rewrite <- Hd' in Hlo, Hhi.
  assert (Hdist : ∀ x, dj_dist st' x = dj_dist st x).
  { intros x. unfold dj_dist. by rewrite Hd'. }
  exists (dj_distances st), (dj_previous st).
  assert (Hprev := λ t, dj_complete g s st t Hc Hw Hout Hq).
  assert (Hout' := Hout). destruct Hout' as [lo Hinv].
  assert (Hnode : ∀ t, reachable g s t → t = s ∨ is_Some (g !! t)).
  { intros t [p Hp]. destruct (path_target g s t p Hp) as [->|[u Hu']].
    - by left.
    - right. by apply (Hc u t). }
  split_and!.
  - done.
  - done.
  - intros t Hreach. apply Hprev in Hreach as Hpt.
    destruct (dj_tree _ _ _ _ _ Hinv t Hpt)
      as (p & _ & Hp & _ & _ & _ & Hpw & Hfin).
    exists p. split; [by apply path_iff|]. split; [|split].
    + rewrite fget_lookup; [by rewrite Hpw|]. apply Hlo, Hnode. by exists p.
    + by rewrite Hpw.
    + intros q Hq'%path_iff. rewrite Hpw.
      by apply (dj_lower_bound g s st t q Hw Hout Hq Hq').
  - intros t Ht%HasNode_true Hnr.
    rewrite fget_lookup; [|apply Hlo; by right]. f_equal.
    rewrite <- (Hu t Ht); [by rewrite Hdist|].
    apply eq_None_not_Some. intros Hs. by apply Hnr, Hprev.
  - intros t. rewrite HasNode_true. split; [|apply Hlo].
    intros [->|[Ht|[u Hu']]]%Hhi; [by left|by right|].
    right. by apply (Hc u t).
Qed.

(** With weight 1 on every edge the weight of a path is the float of its
    hop count. *)
Lemma path_weight_unit g s t p :
  (∀ u v w, entry g u v = Some w → w = Fin 1) →
  path g s t p → path_weight g p = level (length p - 1).
Proof.
  intros Hunit. induction 1 as [|u v p Hp IH [w He]]; [done|].
  rewrite (path_weight_snoc g s u p v Hp), IH.
  rewrite (weight_entry g u v w He), (Hunit u v w He).
  change (fadd (level (length p - 1)) (Fin 1)) with (level (S (length p - 1))).
  f_equal. rewrite length_app. simpl.
  apply path_nonempty in Hp. destruct p; [done|]. simpl. lia.
Qed.

(** In a graph every node of a path is the start or a node. *)
Lemma path_nodes g s t p :
  closed g → path g s t p → ∀ y, y ∈ p → y = s ∨ is_Some (g !! y).
Proof.
  intros Hc. induction 1 as [|u v p Hp IH He].
  - intros y ->%list_elem_of_singleton. by left.
  - intros y [Hy|Hy%list_elem_of_singleton]%elem_of_app; [by apply IH|].
    subst y. right. by apply (Hc u v).
Qed.

Lemma path_length_bound g s t p :
  closed g → path g s t p → NoDup p → length p ≤ S (size g).
Proof.
  intros Hc Hp Hnd.
  rewrite <- (size_list_to_set (C := gset K) p) by done.
  rewrite <- (size_dom (D := gset K) g).
  assert (Hs : size ({[s]} ∪ dom g : gset K) ≤ S (size (dom g : gset K))).
  { rewrite size_union_alt, size_singleton.
    assert (size (dom g ∖ {[s]} : gset K) ≤ size (dom g : gset K)); [|lia].
    apply subseteq_size. set_solver. }
  etrans; [|exact Hs]. apply subseteq_size.
  intros y Hy%elem_of_list_to_set.
  destruct (path_nodes g s t p Hc Hp y Hy) as [->|Hn]; [set_solver|].
  apply elem_of_union. right. by apply elem_of_dom.
Qed.

(** X19 (path finding, BFSTo and DijkstraTo).  On a graph in which every
    edge has weight 1, as in the graphs that [readLines] builds, the two
    searches agree: for every start and target they return the same cost,
    and paths with the same number of nodes (the paths themselves may
    differ) as long as the graph has fewer than [2^53] nodes, beyond which
    adding [1.0] to a hop count no longer changes it. *)
Theorem unit_weights_agree g s t :
  closed g → (∀ u v w, entry g u v = Some w → w = Fin 1) →
  ∃ p q n m c,
    BFSTo g s t = Some (p, n, c) ∧ DijkstraTo g s t = Some (q, m, c) ∧
    ((Z.of_nat (size g) < 2 ^ 53)%Z → m = n).
Proof.
  intros Hc Hunit.
  assert (Hw : weights_ok g).
  { intros u v w He. rewrite (Hunit u v w He). by apply weight_ok_Fin. }
  destruct (decide (t = s)) as [->|Hne].
  - exists [s], [s], 1, 1, (Fin 0). split; [|split; [|done]].
    + unfold BFSTo. by rewrite decide_True.
    + destruct (Dijkstra_source_run g s) as (st & HD & Hs & Hp & _).
      { intros u v w He. by rewrite (Hunit u v w He). }
      unfold DijkstraTo. rewrite HD. cbn [mbind option_bind].
      rewrite Hp, build_path_self. cbn [mbind option_bind].
      unfold fget. by rewrite Hs.
  - destruct (BFSTo_cases g s t Hne) as [[Hnr HB]|(p & HB & Hp & Hmin)].
    + exists [], [], 0, 0, PInf. split; [done|]. split; [|done].
      by apply DijkstraTo_no_path.
    + destruct (DijkstraTo_least g s t Hc Hw)
        as (q & HDT & Hq & Hnd & Hfin & Hleast).
      { exists p. split; [done|].
        rewrite (path_weight_unit g s t p Hunit Hp). apply level_finite. }
      exists p, q, (length p), (length q), (level (length p - 1)).
      split; [done|].
      assert (Hpq := Hmin q Hq). specialize (Hleast p Hp).
      rewrite (path_weight_unit g s t q Hunit Hq) in Hleast.
      rewrite (path_weight_unit g s t p Hunit Hp) in Hleast.
      assert (length p ≠ 0).
      { apply path_nonempty in Hp. by destruct p. }
      split.
      * rewrite HDT, (path_weight_unit g s t q Hunit Hq). do 2 f_equal.
        apply fle_antisym; [apply level_nonneg|apply level_nonneg|done|].
        apply level_mono. lia.
      * intros Hsize.
        assert (Hlq := path_length_bound g s t q Hc Hq Hnd).
        apply level_le_inv in Hleast; lia.
Qed.

End dijkstra_extras.

Lemma Dijkstra_distances_witness :
  let g : graphData Z :=
    DirectedGraph.AddEdge (DirectedGraph.AddEdge ∅ 1%Z 2%Z (Fin 1)) 2%Z 3%Z (Fin 2) in
  Graph.closed g ∧ PathFinder.weights_nonneg g ∧ PathFinder.weights_valid g ∧
  ∃ distances previous,
    PathFinder.Dijkstra g 1%Z = Some (distances, previous) ∧
    ∀ t, is_Some (distances !! t) ↔ t = 1%Z ∨ Graph.HasNode g t = true.
Proof.
  intros g.
  assert (Hc : Graph.closed g).
  { do 2 apply closed_DirectedAddEdge. apply closed_empty. }
  assert (Hw : ∀ P : float64 → Prop, P (Fin 1) → P (Fin 2) →
            ∀ a b x, Graph.entry g a b = Some x → P x).
  { intros P H1 H2 a b x. unfold g. rewrite !DirectedAddEdge_entry.
    repeat case_decide; [by intros [= <-] | by intros [= <-] | done]. }
  assert (Hn : PathFinder.weights_nonneg g)
    by exact (Hw (λ w, fle (Fin 0) w = true) eq_refl eq_refl).
  assert (Hv : PathFinder.weights_valid g)
    by exact (Hw (λ w, valid_binary prec emax w = true) eq_refl eq_refl).
  split; [exact Hc|]. split; [exact Hn|]. split; [exact Hv|].
  destruct (Dijkstra_distances g 1%Z Hc Hn Hv) as (d & p & HD & _ & _ & _ & Hdom).
  by exists d, p.
Defined.

Lemma unit_weights_agree_witness :
  let g : graphData Z :=
    UndirectedGraph.AddEdge (UndirectedGraph.AddEdge ∅ 1%Z 2%Z (Fin 1))
      2%Z 3%Z (Fin 1) in
  Graph.closed g ∧
  (∀ u v w, Graph.entry g u v = Some w → w = Fin 1) ∧
  ∃ p q n m c, PathFinder.BFSTo g 1%Z 3%Z = Some (p, n, c) ∧
               PathFinder.DijkstraTo g 1%Z 3%Z = Some (q, m, c) ∧
               ((Z.of_nat (size g) < 2 ^ 53)%Z → m = n).
Proof.
  intros g.
  assert (Hc : Graph.closed g).
  { do 2 apply closed_UndirectedAddEdge. apply closed_empty. }
  assert (Hu : ∀ u v w, Graph.entry g u v = Some w → w = Fin 1).
  { intros a b x. unfold g. rewrite !UndirectedAddEdge_entry.
    repeat case_decide; try congruence. done. }
  split; [exact Hc|]. split; [exact Hu|].
  exact (unit_weights_agree g 1%Z 3%Z Hc Hu).
Defined.

(** * Graphs built through the methods *)

Section api_facts.
Context `{Countable K} `{!MapRange K}.
Import Graph.
Implicit Types (g : graphData K) (n u v a b k : K) (w : float64).

Lemma closed_directed_apply g op :
  closed g → closed (DirectedGraph.apply g op).
Proof.
  intros Hg. destruct op; simpl.
  - by apply closed_AddNode.
  - by apply closed_AddNodesFrom.
  - by apply closed_DirectedAddEdge.
  - by apply closed_DirectedAddEdgesFrom.
  - by apply closed_RemoveNode.
  - by apply closed_RemoveNodesFrom.
  - by apply closed_delete.
  - by apply closed_DirectedRemoveEdgesFrom.
  - apply closed_empty.
Qed.

Lemma closed_directed_run g ops :
  closed g → closed (DirectedGraph.run g ops).
Proof.
  unfold DirectedGraph.run. revert g.
  induction ops as [|op ops IH]; intros g Hg; [done|].
  simpl. by apply IH, closed_directed_apply.
Qed.

Lemma closed_members g :
  closed g →
  (∀ u v, HasEdge g u v = true → HasNode g u = true ∧ HasNode g v = true) ∧
  (∀ n x, x ∈ Neighbors g n → HasNode g x = true).
Proof.
  intros Hc. split.
  - intros u v Huv%HasEdge_true. rewrite !HasNode_true. split.
    + by eapply entry_is_node.
    + by apply (Hc u v).
  - intros n x. unfold Neighbors. rewrite elem_of_app, HasNode_true.
    intros [Hx%elem_of_Successors|Hx%elem_of_Predecessors].
    + by apply (Hc n x).
    + by eapply entry_is_node.
Qed.

(** X20 (all mutating methods of directed.go, undirected.go and
    graph/graph.go).  In a graph built from the new graph by any sequence
    of the mutating methods (AddNode, AddNodesFrom, AddEdge, AddEdgesFrom,
    RemoveNode, RemoveNodesFrom, RemoveEdge, RemoveEdgesFrom, Clear), both
    end points of every edge are nodes of the graph, and so is every node
    that [Neighbors] returns: no method leaves an edge to or from a node
    that is gone. *)
Theorem edges_join_nodes
    (dops : list (DirectedGraph.operation (K:=K)))
    (uops : list (UndirectedGraph.operation (K:=K))) :
  let d := DirectedGraph.run DirectedGraph.NewDirectedGraph dops in
  let g := UndirectedGraph.run UndirectedGraph.NewUndirectedGraph uops in
  (∀ u v, HasEdge d u v = true → HasNode d u = true ∧ HasNode d v = true) ∧
  (∀ n x, x ∈ Neighbors d n → HasNode d x = true) ∧
  (∀ u v, HasEdge g u v = true → HasNode g u = true ∧ HasNode g v = true) ∧
  (∀ n x, x ∈ UndirectedGraph.Neighbors g n → HasNode g x = true).
Proof.
  intros d g.
  assert (Hd : closed d) by apply closed_directed_run, closed_empty.
  assert (Hg : closed g) by apply closed_run, closed_empty.
  destruct (closed_members d Hd) as [Hd1 Hd2].
  destruct (closed_members g Hg) as [Hg1 Hg2].
  split_and!; try done.
  intros n x Hx. apply (Hg2 n). unfold Neighbors. apply elem_of_app. by left.
Qed.

End api_facts.

(** * New graphs in the heap *)

Section new_graph_facts.
Context `{Countable K} `{!MapRange K}.
Import Heap.
Implicit Types (h : heap (K:=K)) (g c : positive).


End new_graph_facts.


(** * The maze reader *)

(** ** Loops that thread a graph and may panic *)

Section maze_loops.
Import Graph Maze.
Implicit Types (g : graphData coordinate) (a b c n : coordinate)
  (d : Direction) (ds : list Direction) (gr : list (list Z)).





(** A loop that has panicked stays so, and a step that panics on every
    graph makes the loop panic. *)
Lemma fold_panics {A} (f : option (graphData coordinate) → A →
                           option (graphData coordinate))
    (l : list A) (x : A) (acc : option (graphData coordinate)) :
  (∀ y, f None y = None) → x ∈ l → (∀ g, f (Some g) x = None) →
  foldl f acc l = None.
Proof.
  intros Hnone Hx Hbad.
  assert (Habs : ∀ l', foldl f None l' = None).
  { induction l' as [|y l' IH]; [done|]. simpl. by rewrite Hnone. }
  revert acc. induction l as [|y l IH]; intros acc; [by apply elem_of_nil in Hx|].
  simpl foldl. apply elem_of_cons in Hx as [<-|Hx].
  - destruct acc as [g|]; [rewrite Hbad|rewrite Hnone]; apply Habs.
  - by apply IH.
Qed.

Lemma elem_of_imap_pair {A} (l : list A) (i : nat) (x : A) :
  (i, x) ∈ imap pair l ↔ l !! i = Some x.
Proof.
  rewrite elem_of_lookup_imap. split.
  - by intros (j & y & [= -> ->] & Hj).
  - intros Hi. by exists i, x.
Qed.

End maze_loops.

(** ** The walk over the grid *)

Section maze_walk.
Import Graph Maze.
Implicit Types (g : graphData coordinate) (a b c n : coordinate)
  (d : Direction) (ds : list Direction) (gr : list (list Z)).


Lemma tile_Some gr c r :
  tile gr c = Some r
  ↔ (0 ≤ X c)%Z ∧ (0 ≤ Y c)%Z ∧
    ∃ row, gr !! Z.to_nat (Y c) = Some row ∧ row !! Z.to_nat (X c) = Some r.
Proof.
  unfold tile. case_decide as Hc.
  - destruct (gr !! Z.to_nat (Y c)) as [row|]; simpl.
    + split; [|by intros (_ & _ & row' & [= <-] & Hr)].
      intros Hr. destruct Hc. split; [done|]. split; [done|]. by exists row.
    + split; [done|]. by intros (_ & _ & row' & ? & _).
  - split; [done|]. intros (? & ? & _). tauto.
Qed.

Lemma in_bounds_test gr first n :
  gr !! 0 = Some first →
  in_bounds gr n
  ↔ ¬ (X n < 0 ∨ Z.of_nat (length first) ≤ X n ∨
       Y n < 0 ∨ Z.of_nat (length gr) ≤ Y n)%Z.
Proof. intros Hf. unfold in_bounds. rewrite Hf. simpl. lia. Qed.





(** A walkable tile is at a place of the grid. *)
Lemma walkable_place gr a :
  walkable gr a →
  ∃ (x y : nat) row, a = mkCoordinate (Z.of_nat x) (Z.of_nat y) ∧
    gr !! y = Some row ∧ row !! x = Some dot.
Proof.
  intros (Hx & Hy & row & Hrow & Hr)%tile_Some.
  exists (Z.to_nat (X a)), (Z.to_nat (Y a)), row. split; [|done].
  rewrite !Z2Nat.id by done. by destruct a.
Qed.



Lemma visit_direction_panics gr first (x y : nat) d g :
  gr !! 0 = Some first →
  in_bounds gr (step d (mkCoordinate (Z.of_nat x) (Z.of_nat y))) →
  tile gr (step d (mkCoordinate (Z.of_nat x) (Z.of_nat y))) = None →
  visit_direction gr (Z.of_nat (length gr)) (Z.of_nat (length first))
    (Z.of_nat x) (Z.of_nat y) (Some g) d = None.
Proof.
  intros Hf Hin Hnone. unfold visit_direction. cbn [mbind option_bind].
  set (n := step d (mkCoordinate (Z.of_nat x) (Z.of_nat y))) in *.
  change (wrap (Z.of_nat x + X d)) with (X n).
  change (wrap (Z.of_nat y + Y d)) with (Y n).
  pose proof (in_bounds_test gr first n Hf) as Hb.
  rewrite decide_False by by apply Hb.
  apply Hb in Hin.
  destruct (gr !! Z.to_nat (Y n)) as [row|] eqn:Hrow; [|done].
  cbn [mbind option_bind].
  destruct (row !! Z.to_nat (X n)) as [r|] eqn:Hr; [|done].
  assert (tile gr n = Some r); [|congruence].
  apply tile_Some. split; [lia|]. split; [lia|]. by exists row.
Qed.

Lemma walk_grid_panics gr ds a d :
  walkable gr a → d ∈ ds → in_bounds gr (step d a) →
  tile gr (step d a) = None → walk_grid gr ds = None.
Proof.
  intros (x & y & row & -> & Hy & Hx)%walkable_place Hd Hin Hnone.
  unfold walk_grid. destruct (gr !! 0) as [first|] eqn:Hf; [|done].
  cbn [mbind option_bind].
  apply (fold_panics _ _ (y, row)).
  - intros [y' row']. unfold visit_row. cbn [fst snd].
    induction (imap pair row') as [|[x' r'] l IH]; [done|]. simpl foldl.
    unfold visit_tile at 2. cbn [fst snd]. case_decide; [done|].
    replace (foldl _ None ds) with (None (A:=graphData coordinate)); [done|].
    clear. induction ds as [|d' ds IH]; [done|]. done.
  - by apply elem_of_imap_pair.
  - intros g. unfold visit_row. cbn [fst snd].
    apply (fold_panics _ _ (x, dot)).
    + intros [x' r']. unfold visit_tile. cbn [fst snd]. case_decide; [done|].
      clear. induction ds as [|d' ds IH]; [done|]. done.
    + by apply elem_of_imap_pair.
    + intros g'. unfold visit_tile. cbn [fst snd].
      rewrite decide_False by (intros Hne; by apply Hne).
      apply (fold_panics _ _ d); [done|done|].
      intros g''. by apply visit_direction_panics.
Qed.

End maze_walk.

(** ** readLines *)

Section maze_claims.
Import Graph Maze.
Implicit Types (g : graphData coordinate) (a b c n : coordinate)
  (d : Direction) (ds : list Direction) (gr : list (list Z)).

Lemma Split_nonempty (s : list Byte.byte) : Split s ≠ [].
Proof.
  induction s as [|b s IH]; simpl; [done|].
  destruct (Byte.eqb b Byte.x0a); [done|]. by destruct (Split s).
Qed.

Lemma Split_newline (s : list Byte.byte) :
  Split (s ++ [Byte.x0a]) = Split s ++ [[]].
Proof.
  induction s as [|b s IH]; [done|]. simpl.
  destruct (Byte.eqb b Byte.x0a); [by rewrite IH|].
  rewrite IH. pose proof (Split_nonempty s). by destruct (Split s).
Qed.

Lemma scan_line_grid (st : scan) (yl : nat * list Byte.byte) :
  ∃ row, scan_line st yl
         = mkScan (start (scan_line st yl)) (target (scan_line st yl))
             (grid st ++ [row]).
Proof.
  unfold scan_line.
  destruct (foldl _ _ _) as [[s t] row]. by exists row.
Qed.

Lemma scan_lines_length (l : list (nat * list Byte.byte)) (st : scan) :
  length (grid (foldl scan_line st l)) = length (grid st) + length l.
Proof.
  revert st. induction l as [|yl l IH]; intros st; simpl; [lia|].
  rewrite IH. destruct (scan_line_grid st yl) as [row ->]. simpl.
  rewrite length_app. simpl. lia.
Qed.

Lemma scan_file_first (buf : list Byte.byte) :
  is_Some (grid (scan_file buf) !! 0).
Proof.
  apply lookup_lt_is_Some_2. unfold scan_file.
  rewrite scan_lines_length, length_imap. simpl.
  pose proof (Split_nonempty buf). destruct (Split buf); [done|]. simpl. lia.
Qed.

Lemma scan_file_newline (text : list Byte.byte) :
  scan_file (text ++ [Byte.x0a])
  = mkScan (start (scan_file text)) (target (scan_file text))
      (grid (scan_file text) ++ [[]]).
Proof.
  unfold scan_file. rewrite Split_newline, imap_app, foldl_app. done.
Qed.

Lemma wrap_small (z : Z) : (- 2 ^ 63 ≤ z < 2 ^ 63)%Z → wrap z = z.
Proof. intros Hz. unfold wrap. rewrite Z.mod_small; lia. Qed.



(** X23 (readLines, rows of different lengths).  [readLines] tests a
    neighbour's coordinates against the number of rows and the length of
    the first row only.  If some walkable tile has, in one of the given
    directions, a neighbour inside these bounds that lies beyond the end
    of its own row, [readLines] does not return: the index is out of
    range. *)
Theorem readLines_panics (buf : list Byte.byte) ds a d :
  let gr := grid (scan_file buf) in
  walkable gr a → d ∈ ds → in_bounds gr (step d a) →
  tile gr (step d a) = None →
  readLines (Some buf) ds = None.
Proof.
  intros gr Ha Hd Hin Hnone. unfold readLines. cbn [mbind option_bind].
  fold gr. by rewrite (walk_grid_panics gr ds a d).
Qed.

(** X24 (readLines, a file that ends in a newline).  The text after the
    last newline is a row of its own, empty when the file ends in a
    newline.  So if the last line of a text holds a walkable tile, within
    the length of the first line, then for the text followed by a newline
    [readLines] does not return when the direction (0, 1) is among the
    directions: the tile below is inside the bounds and the empty row has
    no such index. *)
Theorem readLines_trailing_newline (text : list Byte.byte) ds a :
  let gr := grid (scan_file text) in
  walkable gr a → in_bounds gr a → Y a = (Z.of_nat (length gr) - 1)%Z →
  (X a < 2 ^ 63)%Z → (Z.of_nat (length gr) < 2 ^ 63)%Z →
  mkCoordinate 0 1 ∈ ds →
  readLines (Some (text ++ [Byte.x0a])) ds = None.
Proof.
  intros gr Ha [Hx Hy] Hlast Hxs Hys Hd.
  assert (Hgr : grid (scan_file (text ++ [Byte.x0a])) = gr ++ [[]]).
  { by rewrite scan_file_newline. }
  destruct (scan_file_first text) as [first Hf]. fold gr in Hf.
  rewrite Hf in Hx. simpl in Hx.
  assert (Hlen : 0 < length gr) by (apply lookup_lt_Some in Hf; lia).
  assert (Hstep : step (mkCoordinate 0 1) a = mkCoordinate (X a) (Y a + 1)).
  { unfold step. simpl. rewrite !wrap_small by lia. f_equal. lia. }
  unfold readLines. cbn [mbind option_bind].
  rewrite (walk_grid_panics _ ds a (mkCoordinate 0 1)); [done| |done| |];
    rewrite Hgr, ?Hstep.
  - apply tile_Some in Ha as (Hx0 & Hy0 & row & Hrow & Hr).
    apply tile_Some. split; [done|]. split; [done|]. exists row.
    split; [|done]. rewrite lookup_app_l; [done|]. lia.
  - unfold in_bounds. rewrite lookup_app_l by done. rewrite Hf. simpl.
    rewrite length_app. simpl. lia.
  - unfold tile. simpl. rewrite decide_True by lia.
    replace (Z.to_nat (Y a + 1)) with (length gr + 0) by lia.
    rewrite lookup_app_r by lia. by replace (length gr + 0 - length gr) with 0 by lia.
Qed.

End maze_claims.


Lemma readLines_panics_witness :
  let buf := [Byte.x2e; Byte.x2e; Byte.x0a; Byte.x2e] in
  let ds := [Maze.mkCoordinate 0 1] in
  let a := Maze.mkCoordinate 1 0 in
  let gr := Maze.grid (Maze.scan_file buf) in
  Maze.walkable gr a ∧ Maze.mkCoordinate 0 1 ∈ ds ∧
  Maze.in_bounds gr (Maze.step (Maze.mkCoordinate 0 1) a) ∧
  Maze.tile gr (Maze.step (Maze.mkCoordinate 0 1) a) = None ∧
  Maze.readLines (Some buf) ds = None.
Proof.
  intros buf ds a gr.
  assert (Ha : Maze.walkable gr a) by (vm_compute; reflexivity).
  assert (Hd : Maze.mkCoordinate 0 1 ∈ ds) by (by left).
  assert (Hin : Maze.in_bounds gr (Maze.step (Maze.mkCoordinate 0 1) a)).
  { vm_compute. repeat split; discriminate. }
  assert (Hnone : Maze.tile gr (Maze.step (Maze.mkCoordinate 0 1) a) = None)
    by (vm_compute; reflexivity).
  split; [exact Ha|]. split; [exact Hd|]. split; [exact Hin|].
  split; [exact Hnone|].
  exact (readLines_panics buf ds a (Maze.mkCoordinate 0 1) Ha Hd Hin Hnone).
Defined.

Lemma readLines_trailing_newline_witness :
  let text := [Byte.x53; Byte.x2e] in
  let ds := [Maze.mkCoordinate 1 0; Maze.mkCoordinate (-1) 0;
             Maze.mkCoordinate 0 1; Maze.mkCoordinate 0 (-1)] in
  let a := Maze.mkCoordinate 0 0 in
  let gr := Maze.grid (Maze.scan_file text) in
  Maze.walkable gr a ∧ Maze.in_bounds gr a ∧
  Maze.readLines (Some (text ++ [Byte.x0a])) ds = None.
Proof.
  intros text ds a gr.
  assert (Ha : Maze.walkable gr a) by (vm_compute; reflexivity).
  assert (Hin : Maze.in_bounds gr a).
  { vm_compute. repeat split; discriminate. }
  split; [exact Ha|]. split; [exact Hin|].
  apply (readLines_trailing_newline text ds a Ha Hin).
  - vm_compute. reflexivity.
  - vm_compute. reflexivity.
  - vm_compute. reflexivity.
  - right. right. by left.
Defined.

Section maze_tests.
Import Maze.

(** The reader on a small maze, [S.#] over [..T]: five nodes, five edges
    stored in both directions, and four nodes on a shortest path. *)
Example test_readLines :
  let buf := [Byte.x53; Byte.x2e; Byte.x23; Byte.x0a;
              Byte.x2e; Byte.x2e; Byte.x54] in
  let ds := [mkCoordinate 1 0; mkCoordinate (-1) 0;
             mkCoordinate 0 1; mkCoordinate 0 (-1)] in
  (λ r, (Graph.NumberOfNodes r.1.1, Graph.NumberOfEdges r.1.1,
         (λ p, (p.1.2, p.2)) <$> PathFinder.BFSTo r.1.1 r.1.2 r.2,
         (λ p, (p.1.2, p.2)) <$> PathFinder.DijkstraTo r.1.1 r.1.2 r.2))
    <$> readLines (Some buf) ds
  = Some (5, 10, Some (4, Fin 3), Some (4, Fin 3)).
Proof. vm_compute. reflexivity. Qed.

End maze_tests.
